(** * filesort: an external sorter for text files of 32-bit integers

    Shallow embedding of the C sources (src/algo/heap.c, src/algo/pmsort.c,
    src/algo/kmerge.c, src/tools.c, src/sort.c, src/main.c) and the
    properties of the natural-language specification proved on it.

    Conventions of the embedding:
    - [int32_t] / [int] values are integers of [Z]; the sorter only compares
      and copies them, the range [INT_MIN, INT_MAX] is enforced where values
      enter the program ([str2int]);
    - [size_t] indices and counts are [nat]; the places where the C code
      subtracts are preceded by the comparison that keeps them in range;
    - an array is a [list], read with [!!!] and written with [<[i:=x]>];
    - a run that does not return to its caller ends in an [error]: a failed
      [assert], [die()]; the heap and the chunk sorter, which have no other
      way to fail, return [None] for a failed [assert];
    - a read of a block slot that [fread] did not fill is an [error] too
      ([StaleRead]): the C code would go on with whatever the slot holds,
      which the embedding does not describe; the theorems show that a run
      without short write never gets there;
    - a short write is one that the call itself reports: [fwrite] returning
      fewer items, [fprintf] fewer bytes, than it was given. The C code
      never looks at the result of [fclose], so data lost when a buffered
      stream is flushed goes unnoticed by it; the embedding does not
      describe such a loss, and what is proved about the contents of the
      files written is proved for environments without short write
      ([no_short_fwrite], [no_short_fprintf]);
    - a [FILE *] opened for reading is the list of items not yet read, a
      [FILE *] opened for writing the list of items written so far;
    - loops whose end is not structural take a fuel argument, and their
      callers pass a bound that the proofs show to be enough;
    - the threads of [pmsort_sort] work on disjoint ranges and are joined
      before the array is read again, so they are run one after the other;
    - [malloc] is taken to succeed, and the text file to exist;
    - the number of merge stages and of files per stage, which the C code
      computes on [double] with [log], [pow] and [ceil], are taken with the
      exact value of these formulas. *)

From Stdlib Require Import ZArith Lia Ascii String.
From stdpp Require Import base option list gmap strings sorting.

Open Scope Z_scope.

(** ** Results, environment and file system *)

(** The ways in which a run does not return to its caller. *)
Inductive error :=
  | AssertFailed    (* a failed [assert] *)
  | StaleRead       (* read of an array element outside the loaded window *)
  | Died            (* [die()]: [exit(EXIT_FAILURE)] from [xfopen] *)
  | OutOfFuel.      (* a loop of the embedding ran out of fuel *)

Inductive result (A : Type) :=
  | Ok (a : A)
  | Err (e : error).
Arguments Ok {A} a.
Arguments Err {A} e.

#[export] Instance result_ret : MRet result := λ A a, Ok a.
#[export] Instance result_bind : MBind result := λ A B f m,
  match m with
  | Ok a => f a
  | Err e => Err e
  end.

(** An [assert]-guarded operation of the heap inside a run. *)
Definition asserted {A} (m : option A) : result A :=
  match m with
  | Some a => Ok a
  | None => Err AssertFailed
  end.

(** What the sorter does not control: whether [mkdtemp] succeeds, and which
    write calls are short. Write calls are numbered in the order they are
    issued; [fwrite_short t = Some k] makes the [t]-th call, if it is an
    [fwrite], transfer at most [k] items, [fprintf_short t = Some k] makes
    it, if it is an [fprintf], transfer at most [k] bytes. *)
Record env := {
  mkdtemp_ok : bool;
  fwrite_short : nat → option nat;
  fprintf_short : nat → option nat;
}.

(** Name of a temporary file: [format_tmp_fname] prints ["%s/%zu_%zu"] of
    the temp directory, the stage and the file number. *)
Abbreviation fname := (nat * nat)%type.

(** The files the sorter works on: the text file to sort, the binary files
    of the temp directory, and the number of write calls issued so far. *)
Record world := {
  input : string;
  tmp : gmap fname (list Z);
  clock : nat;
}.

Definition set_input (w : world) (s : string) : world :=
  {| input := s; tmp := tmp w; clock := clock w |}.
Definition set_tmp (w : world) (m : gmap fname (list Z)) : world :=
  {| input := input w; tmp := m; clock := clock w |}.
Definition set_clock (w : world) (t : nat) : world :=
  {| input := input w; tmp := tmp w; clock := t |}.

(** [fread(buf, sizeof(int32_t), n, stream)]: the items read and the rest of
    the stream; the return value is the length of the former. *)
Definition fread (n : nat) (stream : list Z) : list Z * list Z :=
  (take n stream, drop n stream).

(** [fwrite(buf, sizeof(int32_t), length data, stream)] as write call
    number [t]: the return value and the stream afterwards. The stream
    holds exactly the items the call reports; this describes the file on
    disk only when the call is not short, since the C code closes its
    streams without looking at the result of [fclose]. *)
Definition fwrite (e : env) (t : nat) (data : list Z) (stream : list Z)
  : nat * list Z :=
  let n :=
    match fwrite_short e t with
    | Some k => (k `min` length data)%nat
    | None => length data
    end in
  (n, stream ++ take n data).

(** ** algo/heap.c : binary min-heap in an array *)

Module Heap.

(** [struct heap_el] *)
Record heap_el := { key : Z; idx : nat }.

#[export] Instance heap_el_inhabited : Inhabited heap_el :=
  populate {| key := 0; idx := 0 |}.

(** [struct heap] *)
Record heap := {
  capacity : nat;       (* max possible nodes number in the tree *)
  count : nat;          (* current nodes number in the tree *)
  arr : list heap_el;   (* array representation of binary heap *)
}.

Definition heap_parent (i : nat) : nat := ((i - 1) / 2)%nat.
Definition heap_left (i : nat) : nat := (i * 2 + 1)%nat.
Definition heap_right (i : nat) : nat := (i * 2 + 2)%nat.

(** [heap_swap(&arr[i], &arr[j])] *)
Definition heap_swap (a : list heap_el) (i j : nat) : list heap_el :=
  let tmp := a !!! i in
  <[j := tmp]> (<[i := a !!! j]> a).

Definition set_arr (obj : heap) (a : list heap_el) : heap :=
  {| capacity := capacity obj; count := count obj; arr := a |}.

(** [heap_heapify_min]: the recursion descends the tree, [fuel] bounds its
    depth; [heap_heapify_min] below starts it with the node count. *)
Fixpoint heap_heapify_min_rec (fuel : nat) (obj : heap) (i : nat) : heap :=
  match fuel with
  | O => obj
  | S fuel =>
    let l := heap_left i in
    let r := heap_right i in
    let min := i in
    let min :=
      if bool_decide (l < count obj)%nat
         && (key (arr obj !!! l) <? key (arr obj !!! min))
      then l else min in
    let min :=
      if bool_decide (r < count obj)%nat
         && (key (arr obj !!! r) <? key (arr obj !!! min))
      then r else min in
    if bool_decide (min ≠ i)
    then heap_heapify_min_rec fuel (set_arr obj (heap_swap (arr obj) i min)) min
    else obj
  end.

Definition heap_heapify_min (obj : heap) (i : nat) : heap :=
  heap_heapify_min_rec (count obj) obj i.

(** The heap [heap_create] returns: the array is allocated, not
    initialised; the embedding fills it with a fixed element, which no
    operation reads. *)
Definition heap_new (cap : nat) : heap :=
  {| capacity := cap; count := 0; arr := replicate cap inhabitant |}.

(** [heap_create]; [None] is the failed assertion [capacity > 0]. *)
Definition heap_create (cap : nat) : option heap :=
  if bool_decide (0 < cap)%nat then Some (heap_new cap) else None.

Definition heap_empty (obj : heap) : bool := bool_decide (count obj = 0%nat).

(** The [while] loop of [heap_insert]; [i] strictly decreases. *)
Fixpoint heap_insert_loop (fuel : nat) (a : list heap_el) (i : nat)
  : list heap_el :=
  match fuel with
  | O => a
  | S fuel =>
    if bool_decide (i ≠ 0%nat)
       && (key (a !!! heap_parent i) >? key (a !!! i))
    then heap_insert_loop fuel (heap_swap a i (heap_parent i)) (heap_parent i)
    else a
  end.

(** [heap_insert]; [None] is the failed overflow assertion. *)
Definition heap_insert (obj : heap) (el : heap_el) : option heap :=
  if bool_decide (count obj < capacity obj)%nat then
    let cnt := S (count obj) in
    let i := (cnt - 1)%nat in
    let a := <[i := el]> (arr obj) in
    Some {| capacity := capacity obj; count := cnt;
            arr := heap_insert_loop cnt a i |}
  else None.

(** [heap_pop]; [None] is the failed underflow assertion. *)
Definition heap_pop (obj : heap) : option (heap_el * heap) :=
  if bool_decide (0 < count obj)%nat then
    let el := arr obj !!! 0%nat in
    let a := <[0%nat := arr obj !!! (count obj - 1)%nat]> (arr obj) in
    let obj := {| capacity := capacity obj; count := (count obj - 1)%nat;
                  arr := a |} in
    Some (el, heap_heapify_min obj 0)
  else None.

(** The elements stored in the heap: [arr[0 .. count)]. *)
Definition elements (obj : heap) : list heap_el := take (count obj) (arr obj).

(** Well-formedness of the representation. *)
Definition heap_wf (obj : heap) : Prop :=
  length (arr obj) = capacity obj ∧ (count obj ≤ capacity obj)%nat.

(** The min-heap property on [arr[0 .. count)]. *)
Definition heap_ordered (obj : heap) : Prop :=
  ∀ i, (0 < i < count obj)%nat →
       key (arr obj !!! heap_parent i) ≤ key (arr obj !!! i).

Definition heap_inv (obj : heap) : Prop := heap_wf obj ∧ heap_ordered obj.

End Heap.

(** ** algo/pmsort.c : parallel merge sort of one chunk *)

Module Pmsort.

(** [struct pmsort], the singleton [obj]; the array itself is passed along
    explicitly ([obj.arr] and the [arr] arguments alias one array). *)
Record pmsort := {
  len : nat;            (* array length *)
  num_threads : nat;    (* thread count to use for sorting *)
  npt : nat;            (* numbers per thread *)
  offset : nat;         (* additional elements to sort with last thr *)
}.

(** The three [while] loops of [pmsort_merge]: the values stored at
    [arr[left + k]] for [k = 0, 1, ...], chosen from [left_array] and
    [right_array]. *)
Fixpoint pmsort_merge_loop (left_array : list Z) : list Z → list Z :=
  fix from_right (right_array : list Z) : list Z :=
    match left_array, right_array with
    | [], _ => right_array
    | _, [] => left_array
    | x :: left_array', y :: right_array' =>
      if x <=? y then x :: pmsort_merge_loop left_array' right_array
      else y :: from_right right_array'
    end.

(** [pmsort_merge]: merges [arr[left..middle]] and [arr[middle+1..right]]
    back into [arr[left..right]]. *)
Definition pmsort_merge (arr : list Z) (left middle right : nat) : list Z :=
  let left_length := (middle - left + 1)%nat in
  let right_length := (right - middle)%nat in
  let left_array := take left_length (drop left arr) in
  let right_array := take right_length (drop (middle + 1) arr) in
  list_inserts left (pmsort_merge_loop left_array right_array) arr.

(** [pmsort_merge_sort]; the recursion halves the range, [fuel] bounds its
    depth. *)
Fixpoint pmsort_merge_sort_rec (fuel : nat) (arr : list Z) (left right : nat)
  : list Z :=
  match fuel with
  | O => arr
  | S fuel =>
    if bool_decide (left < right)%nat then
      let middle := (left + (right - left) / 2)%nat in
      let arr := pmsort_merge_sort_rec fuel arr left middle in
      let arr := pmsort_merge_sort_rec fuel arr (middle + 1) right in
      pmsort_merge arr left middle right
    else arr
  end.

Definition pmsort_merge_sort (arr : list Z) (left right : nat) : list Z :=
  pmsort_merge_sort_rec (S (right - left)) arr left right.

(** The [for] loop of [pmsort_merge_array_sections], from index [i] on. *)
Fixpoint pmsort_sections_loop (fuel : nat) (obj : pmsort) (arr : list Z)
    (number aggregation i : nat) : list Z :=
  match fuel with
  | O => arr
  | S fuel =>
    if bool_decide (i < number)%nat then
      let left := (i * (npt obj * aggregation))%nat in
      let right := ((i + 2) * npt obj * aggregation - 1)%nat in
      let middle := (left + npt obj * aggregation - 1)%nat in
      let right :=
        if bool_decide (len obj ≤ right)%nat then (len obj - 1)%nat
        else right in
      pmsort_sections_loop fuel obj (pmsort_merge arr left middle right)
        number aggregation (i + 2)
    else arr
  end.

(** [pmsort_merge_array_sections]: one pass of pairwise merges, then the
    same on half as many sections of twice the size. *)
Fixpoint pmsort_merge_array_sections_rec (fuel : nat) (obj : pmsort)
    (arr : list Z) (number aggregation : nat) : list Z :=
  match fuel with
  | O => arr
  | S fuel =>
    let arr := pmsort_sections_loop number obj arr number aggregation 0 in
    if bool_decide (1 ≤ number / 2)%nat
    then pmsort_merge_array_sections_rec fuel obj arr (number / 2)
           (aggregation * 2)
    else arr
  end.

Definition pmsort_merge_array_sections (obj : pmsort) (arr : list Z)
    (number aggregation : nat) : list Z :=
  pmsort_merge_array_sections_rec (S number) obj arr number aggregation.

(** [pmsort_thread_merge_sort]: the work of thread [thread_id]. *)
Definition pmsort_thread_merge_sort (obj : pmsort) (arr : list Z)
    (thread_id : nat) : list Z :=
  let left := (thread_id * npt obj)%nat in
  let right := ((thread_id + 1) * npt obj - 1)%nat in
  let right :=
    if bool_decide (thread_id = (num_threads obj - 1)%nat)
    then (right + offset obj)%nat else right in
  let middle := (left + (right - left) / 2)%nat in
  if bool_decide (left < right)%nat then
    let arr := pmsort_merge_sort arr left right in
    let arr := pmsort_merge_sort arr (left + 1) right in
    pmsort_merge arr left middle right
  else arr.

(** The threads of [pmsort_sort] work on pairwise disjoint ranges of the
    array and are all joined before the sections are merged: whatever their
    interleaving, the array after the join is the one obtained by running
    them one after the other. *)
Definition pmsort_run_threads (obj : pmsort) (arr : list Z) : list Z :=
  foldl (pmsort_thread_merge_sort obj) arr (seq 0 (num_threads obj)).

(** [pmsort_sort]; sorts [arr[0 .. len)]. [None] is a failed assertion. *)
Definition pmsort_sort (arr : list Z) (len num_threads : nat)
  : option (list Z) :=
  if bool_decide (len = 0)%nat then None
  else if bool_decide (num_threads = 0)%nat then None
  else if bool_decide (len = 1)%nat then Some arr
  else
    let num_threads :=
      if bool_decide (len < num_threads)%nat then len else num_threads in
    let obj := {| len := len; num_threads := num_threads;
                  npt := (len / num_threads)%nat;
                  offset := (len `mod` num_threads)%nat |} in
    let arr :=
      if bool_decide (num_threads = 1)%nat
      then pmsort_thread_merge_sort obj arr 0
      else pmsort_run_threads obj arr in
    Some (pmsort_merge_array_sections obj arr num_threads 1).

End Pmsort.

(** ** tools.c : string conversion *)

Module Tools.

Definition INT_MAX : Z := 2147483647.
Definition INT_MIN : Z := -2147483648.
Definition LONG_MAX : Z := 9223372036854775807.
Definition LONG_MIN : Z := -9223372036854775808.

Inductive errno := EINVAL | ERANGE.

(** [isspace] and [isdigit] of the C locale. *)
Definition isspace (c : ascii) : bool :=
  let n := nat_of_ascii c in
  bool_decide (n = 32 ∨ 9 ≤ n ≤ 13)%nat.

Definition isdigit (c : ascii) : bool :=
  let n := nat_of_ascii c in
  bool_decide (48 ≤ n ≤ 57)%nat.

Definition digit_value (c : ascii) : Z := Z.of_nat (nat_of_ascii c) - 48.

(** A C string ends at its first NUL character. *)
Fixpoint cstring (s : string) : string :=
  match s with
  | EmptyString => EmptyString
  | String c s' =>
    if bool_decide (c = "000"%char) then EmptyString else String c (cstring s')
  end.

(** The digits [strtol] consumes, their value, and where it stops. *)
Fixpoint strtol_digits (s : string) (acc : Z) : Z * string :=
  match s with
  | String c s' =>
    if isdigit c then strtol_digits s' (acc * 10 + digit_value c) else (acc, s)
  | EmptyString => (acc, s)
  end.

Fixpoint strtol_skip (s : string) : string :=
  match s with
  | String c s' => if isspace c then strtol_skip s' else s
  | EmptyString => s
  end.

(** [strtol(s, &end, 10)] with a 64-bit [long]: the value returned, whether
    [errno] is set to [ERANGE], and [end]. *)
Definition strtol (s : string) : Z * bool * string :=
  let s1 := strtol_skip s in
  let '(neg, s2) :=
    match s1 with
    | String "-"%char r => (true, r)
    | String "+"%char r => (false, r)
    | _ => (false, s1)
    end in
  match s2 with
  | String c _ =>
    if isdigit c then
      let '(v, e) := strtol_digits s2 0 in
      let v := if neg : bool then - v else v in
      if LONG_MAX <? v then (LONG_MAX, true, e)
      else if v <? LONG_MIN then (LONG_MIN, true, e)
      else (v, false, e)
    else (0, false, s)
  | EmptyString => (0, false, s)
  end.

(** [str2int(&out, s, 10)]: [inr out] on success, [inl] the error. *)
Definition str2int (s : string) : errno + Z :=
  match s with
  | EmptyString => inl EINVAL
  | String c _ =>
    if isspace c then inl EINVAL
    else
      let '(l, erange, e) := strtol s in
      if (INT_MAX <? l) || (erange && (l =? LONG_MAX)) then inl ERANGE
      else if (l <? INT_MIN) || (erange && (l =? LONG_MIN)) then inl ERANGE
      else if negb (bool_decide (e = EmptyString)) then inl EINVAL
      else inr l
  end.

(** The lines [getline] returns one after the other until it returns -1:
    each ends with its newline, except possibly the last. *)
Fixpoint getlines (s : string) : list string :=
  match s with
  | EmptyString => []
  | String c s' =>
    if bool_decide (c = "010"%char) then String c EmptyString :: getlines s'
    else
      match getlines s' with
      | [] => [String c EmptyString]
      | l :: ls => String c l :: ls
      end
  end.

(** [if ((pos = strchr(line, '\n')) != NULL) *pos = '\0';] *)
Fixpoint strip_newline (line : string) : string :=
  match line with
  | EmptyString => EmptyString
  | String c s' =>
    if bool_decide (c = "010"%char) then EmptyString
    else String c (strip_newline s')
  end.

(** The decimal digits of [n >= 0], in front of [acc]. *)
Fixpoint print_digits (fuel : nat) (n : Z) (acc : string) : string :=
  match fuel with
  | O => acc
  | S fuel =>
    let acc := String (ascii_of_nat (48 + Z.to_nat (n `mod` 10))) acc in
    if n <? 10 then acc else print_digits fuel (n / 10) acc
  end.

(** What the conversion [%d] prints. *)
Definition print_int (v : Z) : string :=
  let fuel := S (Z.to_nat (Z.log2 (Z.abs v))) in
  if v <? 0 then String "-"%char (print_digits fuel (- v) EmptyString)
  else print_digits fuel v EmptyString.

(** [fprintf(fout, "%d\n", v)] as write call number [t]: the text of the
    file afterwards; the return value is not looked at. *)
Definition fprintf_int (e : env) (t : nat) (v : Z) (stream : string)
  : string :=
  let text := (print_int v +:+ String "010"%char EmptyString)%string in
  match fprintf_short e t with
  | Some k => (stream +:+ String.substring 0 k text)%string
  | None => (stream +:+ text)%string
  end.

End Tools.

(** ** algo/kmerge.c : external K-way merge of files *)

Module Kmerge.

(** "K" in "K-way merge" *)
Definition NMERGE : nat := 16.

(** [struct merge], the singleton [obj]: [tmpdir], [buf] and [out] are
    pointers, the files they lead to are in the [world]. *)
Record merge := {
  fcount : nat;             (* input files count (on 0th merge stage) *)
  buf_nmemb : nat;          (* number of members in 'buf' array *)
  queue : Heap.heap;        (* priority queue for K-way merge *)
}.

Definition set_queue (obj : merge) (q : Heap.heap) : merge :=
  {| fcount := fcount obj; buf_nmemb := buf_nmemb obj; queue := q |}.

(** [struct merge_block]. [buf] lists the loaded part of the block's share
    of the RAM buffer: the [count] items last read for an input block, the
    [pos] items written since the last flush for the output block. *)
Record merge_block := {
  buf : list Z;     (* start address of block *)
  size : nat;       (* max elements (int32_t) count in buffer *)
  count : nat;      (* actual elements (int32_t) count in buffer *)
  pos : nat;        (* current position in this block *)
}.

#[export] Instance merge_block_inhabited : Inhabited merge_block :=
  populate {| buf := []; size := 0; count := 0; pos := 0 |}.

(** [ceil(logn(x, base))] and [ceil(x / pow(base, stage))], computed on
    [double] in the C code, with their exact values: the least [s] with
    [x <= base ^ s], and the quotient rounded up. *)
Fixpoint ceil_logn_from (fuel x base s p : nat) : nat :=
  match fuel with
  | O => s
  | S fuel =>
    if bool_decide (x ≤ p)%nat then s
    else ceil_logn_from fuel x base (S s) (p * base)%nat
  end.

Definition ceil_logn (x base : nat) : nat := ceil_logn_from x x base 0 1.

Definition ceil_div (x y : nat) : nat := ((x + y - 1) / y)%nat.

Definition kmerge_calc_stages (obj : merge) : nat :=
  ceil_logn (fcount obj) NMERGE.

Definition kmerge_calc_stage_files (obj : merge) (stage : nat) : nat :=
  if bool_decide (stage = 0)%nat then fcount obj
  else ceil_div (fcount obj) (NMERGE ^ stage).

(** State of one run of [kmerge_merge_blocks]: the queue, the blocks, the
    input files [fs], the output file [fout] and the write-call counter. *)
Record mstate := {
  st_queue : Heap.heap;
  st_blocks : list merge_block;
  st_fs : list (list Z);
  st_fout : list Z;
  st_clock : nat;
}.

(** [fwrite(out->buf, sizeof(int32_t), out->pos, fout)] followed by the test
    [nwrite != out->pos]: [false] is the short write, otherwise [out->pos]
    is reset. *)
Definition flush_out (e : env) (st : mstate) : bool * mstate :=
  let out := st_blocks st !!! NMERGE in
  let '(nwrite, fout) := fwrite e (st_clock st) (buf out) (st_fout st) in
  let st := {| st_queue := st_queue st; st_blocks := st_blocks st;
               st_fs := st_fs st; st_fout := fout;
               st_clock := S (st_clock st) |} in
  if bool_decide (nwrite ≠ pos out) then (false, st)
  else
    let out := {| buf := []; size := size out; count := count out;
                  pos := 0 |} in
    (true, {| st_queue := st_queue st;
              st_blocks := <[NMERGE := out]> (st_blocks st);
              st_fs := st_fs st; st_fout := st_fout st;
              st_clock := st_clock st |}).

(** [el.key = b->buf[b->pos++]; heap_insert(obj.queue, &el);] on block
    [i]. *)
Definition push_next (st : mstate) (i : nat) : result mstate :=
  let b := st_blocks st !!! i in
  match buf b !! pos b with
  | None => Err StaleRead
  | Some k =>
    let b := {| buf := buf b; size := size b; count := count b;
                pos := S (pos b) |} in
    q ← asserted (Heap.heap_insert (st_queue st)
                    {| Heap.key := k; Heap.idx := i |});
    Ok {| st_queue := q; st_blocks := <[i := b]> (st_blocks st);
          st_fs := st_fs st; st_fout := st_fout st;
          st_clock := st_clock st |}
  end.

(** [b->count = fread(b->buf, sizeof(int32_t), n, fs[i]); b->pos = 0;] *)
Definition load_block (st : mstate) (i n : nat) : mstate :=
  let b := st_blocks st !!! i in
  let '(items, rest) := fread n (st_fs st !!! i) in
  let b := {| buf := items; size := size b; count := length items;
              pos := 0 |} in
  {| st_queue := st_queue st; st_blocks := <[i := b]> (st_blocks st);
     st_fs := <[i := rest]> (st_fs st); st_fout := st_fout st;
     st_clock := st_clock st |}.

(** [out->buf[out->pos++] = key;] and, when the output block is full, its
    flush: [false] is the short write. *)
Definition emit_out (e : env) (st : mstate) (key : Z) : bool * mstate :=
  let out := st_blocks st !!! NMERGE in
  let out := {| buf := buf out ++ [key]; size := size out;
                count := count out; pos := S (pos out) |} in
  let st := {| st_queue := st_queue st;
               st_blocks := <[NMERGE := out]> (st_blocks st);
               st_fs := st_fs st; st_fout := st_fout st;
               st_clock := st_clock st |} in
  (* Output buffer is full; store into the file *)
  if bool_decide (pos out = size out) then flush_out e st
  else (true, st).

(** "Add next element to queue from the same buffer we popped": the
    [if ... else if ... else] on block [i] that ends a turn of the loop. *)
Definition queue_next (st : mstate) (i : nat) : result mstate :=
  let b := st_blocks st !!! i in
  if bool_decide (count b = 0)%nat then
    (* File read complete *)
    Ok st
  else if bool_decide (pos b < count b)%nat then
    push_next st i
  else
    (* This block is exhausted; read next one *)
    let st := load_block st i (size b) in
    if bool_decide (0 < count (st_blocks st !!! i))%nat then
      (* And push first element to the queue *)
      push_next st i
    else Ok st.

(** One turn of the [while] loop of [kmerge_merge_blocks]: [false] is the
    [return false] after a short write, [true] goes on to the next turn. *)
Definition kmerge_merge_blocks_turn (e : env) (st : mstate)
  : result (bool * mstate) :=
  (* Populate output buffer with minimal elements from queue *)
  '(el, q) ← asserted (Heap.heap_pop (st_queue st));
  let st := {| st_queue := q; st_blocks := st_blocks st; st_fs := st_fs st;
               st_fout := st_fout st; st_clock := st_clock st |} in
  let '(ok, st) := emit_out e st (Heap.key el) in
  if negb ok then Ok (false, st)
  else
    st ← queue_next st (Heap.idx el);
    Ok (true, st).

(** The [while] loop of [kmerge_merge_blocks]. The result [false] is the
    [return false] inside the loop, [true] the normal end of the loop. *)
Fixpoint kmerge_merge_blocks_loop (e : env) (fuel : nat) (st : mstate)
  : result (bool * mstate) :=
  match fuel with
  | O => Err OutOfFuel
  | S fuel =>
    if Heap.heap_empty (st_queue st) then Ok (true, st)
    else
      '(ok, st) ← kmerge_merge_blocks_turn e st;
      if negb ok then Ok (false, st)
      else kmerge_merge_blocks_loop e fuel st
  end.

(** Every turn of the loop pops one item; the items still to pop are those
    in the queue, in the blocks and in the files. *)
Definition pending (st : mstate) : nat :=
  (Heap.count (st_queue st)
   + sum_list ((λ b, count b - pos b)%nat <$> take NMERGE (st_blocks st))
   + sum_list (length <$> st_fs st))%nat.

(** [kmerge_merge_blocks] *)
Definition kmerge_merge_blocks (e : env) (st : mstate)
  : result (bool * mstate) :=
  '(ok, st) ← kmerge_merge_blocks_loop e (S (pending st)) st;
  if negb ok then Ok (false, st)
  else
    (* Remainder *)
    if bool_decide (pos (st_blocks st !!! NMERGE) ≠ 0)%nat
    then Ok (flush_out e st)
    else Ok (true, st).

(** The loop of [kmerge_copy]. *)
Fixpoint kmerge_copy_loop (e : env) (fuel : nat) (n : nat)
    (from to : list Z) (t : nat) : result (bool * list Z * nat) :=
  match fuel with
  | O => Err OutOfFuel
  | S fuel =>
    let '(items, from) := fread n from in
    if bool_decide (length items = 0)%nat then Ok (true, to, t)
    else
      let '(nwrite, to) := fwrite e t items to in
      if bool_decide (nwrite ≠ length items) then Ok (false, to, S t)
      else kmerge_copy_loop e fuel n from to (S t)
  end.

(** [kmerge_copy]: copies [from] to the end of [to] by blocks of the whole
    RAM buffer. *)
Definition kmerge_copy (e : env) (obj : merge) (from to : list Z) (t : nat)
  : result (bool * list Z * nat) :=
  kmerge_copy_loop e (S (length from)) (buf_nmemb obj) from to t.

(** The second loop of [kmerge_merge_files]: reads the first block of
    each of the input files [i, i+1, ...] and queues its first element. *)
Fixpoint prime_blocks (fuel : nat) (st : mstate) (bs i : nat)
  : result mstate :=
  match fuel with
  | O => Ok st
  | S fuel =>
    let st := load_block st i bs in
    st ← push_next st i;
    prime_blocks fuel st bs (S i)
  end.

(** [kmerge_merge_files]: merges the open files [fs] into the file
    [stage + 1, outn]. *)
Definition kmerge_merge_files (e : env) (obj : merge) (fs : list (list Z))
    (stage outn : nat) (w : world) : result (bool * merge * world) :=
  let fn := length fs in
  let bs := (buf_nmemb obj / (NMERGE + 1))%nat in
  (* Initialize blocks *)
  let blocks :=
    replicate (NMERGE + 1) {| buf := []; size := bs; count := 0; pos := 0 |} in
  let st := {| st_queue := queue obj; st_blocks := blocks; st_fs := fs;
               st_fout := []; st_clock := clock w |} in
  (* Read first blocks from input files into buf *)
  st ← prime_blocks fn st bs 0;
  (* K-way merge *)
  '(ret, st) ← kmerge_merge_blocks e st;
  (* Close input and output files *)
  let w := {| input := input w;
              tmp := <[(S stage, outn) := st_fout st]> (tmp w);
              clock := st_clock st |} in
  Ok (ret, set_queue obj (st_queue st), w).

(** [xfopen(fname, "r")] on a temporary file. *)
Definition xfopen_tmp (w : world) (f : fname) : result (list Z) :=
  match tmp w !! f with
  | Some items => Ok items
  | None => Err Died
  end.

(** The [for] loop of [kmerge_merge_stage] from file [i] on, with the files
    [fs] of the current group already open. *)
Fixpoint kmerge_merge_stage_loop (e : env) (fuel : nat) (obj : merge)
    (stage i : nat) (fs : list (list Z)) (w : world)
  : result (bool * list (list Z) * merge * world) :=
  match fuel with
  | O => Ok (true, fs, obj, w)
  | S fuel =>
    f ← xfopen_tmp w (stage, i);
    let fs := fs ++ [f] in
    if bool_decide (length fs = NMERGE) then
      '(ret, obj, w) ← kmerge_merge_files e obj fs stage (i / NMERGE) w;
      if negb ret then Ok (false, fs, obj, w)
      else kmerge_merge_stage_loop e fuel obj stage (S i) [] w
    else kmerge_merge_stage_loop e fuel obj stage (S i) fs w
  end.

(** [kmerge_merge_stage] *)
Definition kmerge_merge_stage (e : env) (obj : merge) (stage fcount : nat)
    (w : world) : result (bool * merge * world) :=
  '(ret, fs, obj, w) ← kmerge_merge_stage_loop e fcount obj stage 0 [] w;
  if negb ret then Ok (false, obj, w)
  else
    let i := fcount in
    (* Remainder *)
    if bool_decide (length fs = 1)%nat then
      (* Fast path *)
      '(ret, fout, t) ← kmerge_copy e obj (fs !!! 0%nat) [] (clock w);
      Ok (ret, obj,
          {| input := input w;
             tmp := <[(S stage, (i / NMERGE)%nat) := fout]> (tmp w);
             clock := t |})
    else if bool_decide (length fs ≠ 0)%nat then
      kmerge_merge_files e obj fs stage (i / NMERGE) w
    else Ok (true, obj, w).

(** The loop of [kmerge_merge_all] from stage [i] on. *)
Fixpoint kmerge_merge_all_loop (e : env) (fuel : nat) (obj : merge)
    (i : nat) (w : world) : result (bool * merge * world) :=
  match fuel with
  | O => Ok (true, obj, w)
  | S fuel =>
    let stage_fcount := kmerge_calc_stage_files obj i in
    '(res, obj, w) ← kmerge_merge_stage e obj i stage_fcount w;
    if negb res then Ok (false, obj, w)
    else kmerge_merge_all_loop e fuel obj (S i) w
  end.

(** [kmerge_merge_all]; also gives the name stored in [obj.out]. *)
Definition kmerge_merge_all (e : env) (obj : merge) (w : world)
  : result (bool * fname * world) :=
  let stages := kmerge_calc_stages obj in
  let out := (stages, 0%nat) in
  '(res, _, w) ← kmerge_merge_all_loop e stages obj 0 w;
  Ok (res, out, w).

(** [kmerge_merge]: the result and the name of the merged file. *)
Definition kmerge_merge (e : env) (fcount buf_nmemb : nat) (w : world)
  : result (bool * fname * world) :=
  if negb (bool_decide (0 < fcount)%nat) then Err AssertFailed
  else if negb (bool_decide (NMERGE < buf_nmemb)%nat) then Err AssertFailed
  else
    queue ← asserted (Heap.heap_create NMERGE);
    let obj := {| fcount := fcount; buf_nmemb := buf_nmemb;
                  queue := queue |} in
    kmerge_merge_all e obj w.

End Kmerge.

(** ** sort.c : the sorter *)

Module Sort.

(** [struct sort]: [fpath], [buf] and [tmpdir] are pointers, what they lead
    to is in the [world]. *)
Record sort := {
  buf_nmemb : nat;      (* max number of members in 'buf' array *)
  thr_count : nat;      (* thread count *)
  fcount : nat;         (* number of buffers (or tmp files) *)
}.

Definition set_fcount (obj : sort) (n : nat) : sort :=
  {| buf_nmemb := buf_nmemb obj; thr_count := thr_count obj; fcount := n |}.

(** [sort_create_tmp_dir]: a fresh, empty directory, or the failure of both
    [mkdtemp] calls. *)
Definition sort_create_tmp_dir (e : env) (w : world) : bool * world :=
  if mkdtemp_ok e then (true, set_tmp w ∅) else (false, w).

(** [sort_remove_tmp_dir] *)
Definition sort_remove_tmp_dir (w : world) : world := set_tmp w ∅.

(** [sort_handle_buf(obj, bufn, count)] with [buf] the first [count] items
    of the RAM buffer. *)
Definition sort_handle_buf (e : env) (obj : sort) (buf : list Z)
    (bufn : nat) (w : world) : result (bool * world) :=
  let count := length buf in
  buf ← asserted (Pmsort.pmsort_sort buf count (thr_count obj));
  let '(res, stream) := fwrite e (clock w) buf [] in
  let ret := bool_decide (res = count) in
  Ok (ret, {| input := input w; tmp := <[(0%nat, bufn) := stream]> (tmp w);
              clock := S (clock w) |}).

(** The [while] loop of [sort_read_chunks] over the lines not yet read;
    [buf] lists the [buf_idx] items stored in the RAM buffer. *)
Fixpoint sort_read_chunks_loop (e : env) (obj : sort) (lines : list string)
    (buf : list Z) (bufn : nat) (w : world)
  : result (bool * list Z * nat * world) :=
  match lines with
  | [] => Ok (true, buf, bufn, w)
  | line :: lines =>
    (* Remove trailing newline *)
    let line := Tools.strip_newline (Tools.cstring line) in
    match Tools.str2int line with
    | inl _ => Ok (false, buf, bufn, w)
    | inr val =>
      let buf := buf ++ [val] in
      if bool_decide (length buf = buf_nmemb obj) then
        '(ret, w) ← sort_handle_buf e obj buf bufn w;
        if negb ret then Ok (false, buf, bufn, w)
        else sort_read_chunks_loop e obj lines [] (S bufn) w
      else sort_read_chunks_loop e obj lines buf bufn w
    end
  end.

(** [sort_read_chunks] *)
Definition sort_read_chunks (e : env) (obj : sort) (w : world)
  : result (bool * sort * world) :=
  '(ret, buf, bufn, w) ←
    sort_read_chunks_loop e obj (Tools.getlines (input w)) [] 0 w;
  if negb ret then Ok (false, obj, w)
  else
    (* Remainder *)
    if bool_decide (length buf ≠ 0)%nat then
      '(ret, w) ← sort_handle_buf e obj buf bufn w;
      if negb ret then Ok (false, obj, w)
      else Ok (true, set_fcount obj (S bufn), w)
    else Ok (true, set_fcount obj bufn, w).

(** The [for] loop of [sort_write_output]: one [fprintf] per item. *)
Fixpoint sort_write_items (e : env) (items : list Z) (fout : string)
    (t : nat) : string * nat :=
  match items with
  | [] => (fout, t)
  | v :: items => sort_write_items e items (Tools.fprintf_int e t v fout) (S t)
  end.

(** The [do ... while] loop of [sort_write_output]. *)
Fixpoint sort_write_output_loop (e : env) (fuel : nat) (n : nat)
    (fmerged : list Z) (fout : string) (t : nat) : result (string * nat) :=
  match fuel with
  | O => Err OutOfFuel
  | S fuel =>
    let '(items, fmerged) := fread n fmerged in
    let '(fout, t) := sort_write_items e items fout t in
    if bool_decide (length items ≠ 0)%nat
    then sort_write_output_loop e fuel n fmerged fout t
    else Ok (fout, t)
  end.

(** [sort_write_output]: rewrites the input file from the merged file. *)
Definition sort_write_output (e : env) (obj : sort) (fname_merged : fname)
    (w : world) : result world :=
  fmerged ← Kmerge.xfopen_tmp w fname_merged;
  '(fout, t) ←
    sort_write_output_loop e (S (length fmerged)) (buf_nmemb obj) fmerged
      EmptyString (clock w);
  Ok {| input := fout; tmp := tmp w; clock := t |}.

(** [sort_create(fpath, buf_size, thr_count)] *)
Definition sort_create (buf_size thr_count : nat) : result sort :=
  if negb (bool_decide (0 < buf_size)%nat) then Err AssertFailed
  else if negb (bool_decide (buf_size `mod` 4 = 0)%nat) then Err AssertFailed
  else if negb (bool_decide (0 < thr_count)%nat) then Err AssertFailed
  else Ok {| buf_nmemb := (buf_size / 4)%nat; thr_count := thr_count;
             fcount := 0 |}.

(** [sort_sort] *)
Definition sort_sort (e : env) (obj : sort) (w : world)
  : result (bool * world) :=
  let '(res, w) := sort_create_tmp_dir e w in
  if negb res then Ok (false, w)
  else
    '(res, obj, w) ← sort_read_chunks e obj w;
    if negb res then Ok (false, sort_remove_tmp_dir w)
    else
      '(res, fname_merged, w) ←
        Kmerge.kmerge_merge e (fcount obj) (buf_nmemb obj) w;
      if negb res then Ok (false, sort_remove_tmp_dir w)
      else
        w ← sort_write_output e obj fname_merged w;
        Ok (true, sort_remove_tmp_dir w).

End Sort.

(** ** main.c *)

Module Main.

Definition BUF_MIN : Z := 1.
Definition BUF_MAX : Z := 1024.
Definition THR_MIN : Z := 1.
Definition THR_MAX : Z := 1024.
Definition EXIT_SUCCESS : Z := 0.
Definition EXIT_FAILURE : Z := 1.

(** [struct params] as [parse_args] leaves it; [fpath] names the [input]
    file of the [world]. *)
Record params := {
  buf_size : Z;     (* buffer size, in MiB *)
  thr_count : Z;    (* thread count *)
}.

(** [validate_args], for an existing file: [inl] is the exit code of
    [exit()], [inr] the value returned. *)
Definition validate_args (p : params) (w : world) : Z + bool :=
  if bool_decide (String.length (input w) < 1)%nat then inl EXIT_SUCCESS
  else if (buf_size p <? BUF_MIN) || (BUF_MAX <? buf_size p) then inr false
  else if (thr_count p <? THR_MIN) || (THR_MAX <? thr_count p) then inr false
  else inr true.

(** [main] from the parsed arguments on: the exit code of the process. *)
Definition main (e : env) (p : params) (w : world) : result (Z * world) :=
  match validate_args p w with
  | inl code => Ok (code, w)
  | inr false => Ok (EXIT_FAILURE, w)
  | inr true =>
    s ← Sort.sort_create (Z.to_nat (Z.shiftl (buf_size p) 20))
          (Z.to_nat (thr_count p));
    '(res, w) ← Sort.sort_sort e s w;
    if negb res then Ok (EXIT_FAILURE, Sort.sort_remove_tmp_dir w)
    else Ok (EXIT_SUCCESS, Sort.sort_remove_tmp_dir w)
  end.

End Main.

(** * Specification-level definitions *)

(** ** Order *)

(** Non-decreasing order as the specification words it: for all [i] with a
    successor, [a_i <= a_(i+1)]. *)
Definition nondecreasing (l : list Z) : Prop :=
  ∀ i a b, l !! i = Some a → l !! S i = Some b → a ≤ b.

(** The same, as a test. *)
Fixpoint nondecreasingb (l : list Z) : bool :=
  match l with
  | a :: (b :: _) as l' => (a <=? b) && nondecreasingb l'
  | _ => true
  end.

(** ** Heap *)

Section heap_spec.
Import Heap.

(** Order of [a[0..n)]. *)
Definition ordered (a : list heap_el) (n : nat) : Prop :=
  ∀ j, (0 < j < n)%nat → key (a !!! heap_parent j) ≤ key (a !!! j).

(** Order of [a[0..n)] with one node [i] possibly smaller than its parent. *)
Definition ordered_up (a : list heap_el) (n i : nat) : Prop :=
  (∀ j, (0 < j < n)%nat → j ≠ i → key (a !!! heap_parent j) ≤ key (a !!! j)) ∧
  (∀ j, (0 < j < n)%nat → heap_parent j = i → (0 < i)%nat →
        key (a !!! heap_parent i) ≤ key (a !!! j)).

(** Order of [a[0..n)] with one node [i] possibly larger than its children. *)
Definition ordered_down (a : list heap_el) (n i : nat) : Prop :=
  (∀ j, (0 < j < n)%nat → heap_parent j ≠ i →
        key (a !!! heap_parent j) ≤ key (a !!! j)) ∧
  (∀ j, (0 < j < n)%nat → heap_parent j = i → (0 < i)%nat →
        key (a !!! heap_parent i) ≤ key (a !!! j)).

(** The node [heap_heapify_min] selects among [i] and its two children. *)
Definition heapify_select (obj : heap) (i : nat) : nat :=
  let l := heap_left i in
  let r := heap_right i in
  let min := i in
  let min :=
    if bool_decide (l < count obj)%nat
       && (key (arr obj !!! l) <? key (arr obj !!! min))
    then l else min in
  if bool_decide (r < count obj)%nat
     && (key (arr obj !!! r) <? key (arr obj !!! min))
  then r else min.

End heap_spec.

(** ** K-way merge of one group of files *)

Section merge_spec.
Import Kmerge.

(** The items sent to the output so far: those in the output file and those
    waiting in the output block. *)
Definition emitted (st : mstate) : list Z :=
  st_fout st ++ buf (st_blocks st !!! NMERGE).

(** The items of input [i] that were not queued yet: the unread part of its
    block, then the unread part of its file. *)
Definition rest (st : mstate) (i : nat) : list Z :=
  drop (pos (st_blocks st !!! i)) (buf (st_blocks st !!! i))
  ++ (st_fs st !!! i).

Definition rests (m : nat) (st : mstate) : list (list Z) :=
  rest st <$> seq 0 m.

Definition queued (st : mstate) : list Heap.heap_el :=
  Heap.elements (st_queue st).

(** All the items a merge state holds. *)
Definition merge_items (m : nat) (st : mstate) : list Z :=
  emitted st ++ (Heap.key <$> queued st) ++ concat (rests m st).

(** Shape of the state of a merge of [m] input files of which the first [k]
    had their first block loaded. *)
Record merge_wf (k m : nat) (st : mstate) : Prop := {
  wf_m : (k ≤ m ≤ NMERGE)%nat;
  wf_blocks : length (st_blocks st) = S NMERGE;
  wf_fs : length (st_fs st) = m;
  wf_heap : Heap.heap_inv (st_queue st);
  wf_cap : Heap.capacity (st_queue st) = NMERGE;
  wf_in : ∀ i, (i < NMERGE)%nat →
    count (st_blocks st !!! i) = length (buf (st_blocks st !!! i)) ∧
    (pos (st_blocks st !!! i) ≤ count (st_blocks st !!! i))%nat ∧
    (0 < size (st_blocks st !!! i))%nat;
  wf_out :
    pos (st_blocks st !!! NMERGE) = length (buf (st_blocks st !!! NMERGE)) ∧
    (pos (st_blocks st !!! NMERGE) < size (st_blocks st !!! NMERGE))%nat;
  wf_fresh : ∀ i, (k ≤ i < NMERGE)%nat → buf (st_blocks st !!! i) = [];
  wf_idx : NoDup (Heap.idx <$> queued st);
  wf_idx_lt : ∀ el, el ∈ queued st → (Heap.idx el < k)%nat;
  wf_loaded : ∀ el, el ∈ queued st →
    (0 < count (st_blocks st !!! Heap.idx el))%nat;
  wf_done : ∀ i, (i < k)%nat → i ∉ (Heap.idx <$> queued st) → rest st i = [];
}.

(** Order of a merge state whose input files are sorted: what was sent to
    the output is sorted and below what is queued, and the queued item of an
    input is below the rest of that input. *)
Record merge_sorted (m : nat) (st : mstate) : Prop := {
  so_emitted : StronglySorted Z.le (emitted st);
  so_below : ∀ x el, x ∈ emitted st → el ∈ queued st → x ≤ Heap.key el;
  so_rest : ∀ i, (i < m)%nat → StronglySorted Z.le (rest st i);
  so_head : ∀ el y, el ∈ queued st → y ∈ rest st (Heap.idx el) →
    Heap.key el ≤ y;
}.

(** The states a merge goes through: those reached by turns of the loop of
    [kmerge_merge_blocks]. *)
Inductive merge_reaches (e : env) (st0 : mstate) : mstate → Prop :=
  | reaches_start : merge_reaches e st0 st0
  | reaches_turn st st' :
      merge_reaches e st0 st →
      Heap.heap_empty (st_queue st) = false →
      kmerge_merge_blocks_turn e st = Ok (true, st') →
      merge_reaches e st0 st'.

(** What a turn does to the state, in terms of the items it holds: the
    popped element [el] goes to the output, and the next item of its input,
    if any, is queued. *)
Definition turn_effect (m : nat) (st st' : mstate) (el : Heap.heap_el)
    (q : Heap.heap) : Prop :=
  length (st_blocks st') = S NMERGE ∧ length (st_fs st') = m ∧
  emitted st' = emitted st ++ [Heap.key el] ∧
  pos (st_blocks st' !!! NMERGE) = length (buf (st_blocks st' !!! NMERGE)) ∧
  (pos (st_blocks st' !!! NMERGE) < size (st_blocks st' !!! NMERGE))%nat ∧
  (∀ j, j ≠ Heap.idx el → j ≠ NMERGE →
        st_blocks st' !!! j = st_blocks st !!! j) ∧
  (∀ j, j ≠ Heap.idx el → st_fs st' !!! j = st_fs st !!! j) ∧
  count (st_blocks st' !!! Heap.idx el)
    = length (buf (st_blocks st' !!! Heap.idx el)) ∧
  (pos (st_blocks st' !!! Heap.idx el)
     ≤ count (st_blocks st' !!! Heap.idx el))%nat ∧
  size (st_blocks st' !!! Heap.idx el) = size (st_blocks st !!! Heap.idx el) ∧
  ((∃ x, rest st (Heap.idx el) = x :: rest st' (Heap.idx el) ∧
         Heap.heap_insert q {| Heap.key := x; Heap.idx := Heap.idx el |}
           = Some (st_queue st') ∧
         (0 < count (st_blocks st' !!! Heap.idx el))%nat)
   ∨ (rest st (Heap.idx el) = [] ∧ rest st' (Heap.idx el) = [] ∧
      st_queue st' = q)).

(** The state [kmerge_merge_files] starts from: the queue of the merger,
    [NMERGE + 1] blocks of [bs] items with nothing loaded, the input files
    [fs] unread, and an empty output file. *)
Definition merge_start (obj : merge) (fs : list (list Z)) (bs c : nat)
  : mstate :=
  {| st_queue := queue obj;
     st_blocks := replicate (NMERGE + 1)
                    {| buf := []; size := bs; count := 0; pos := 0 |};
     st_fs := fs; st_fout := []; st_clock := c |}.

(** ** Merge stages *)

(** The files [s_0, s_1, ...] of stage [s] in the temp directory are [fl]. *)
Definition stage_files (w : world) (s : nat) (fl : list (list Z)) : Prop :=
  ∀ i, (i < length fl)%nat → tmp w !! (s, i) = fl !! i.

Definition nonempty_files (fl : list (list Z)) : Prop :=
  Forall (λ f, f ≠ []) fl.

Definition sorted_files (fl : list (list Z)) : Prop :=
  Forall (StronglySorted Z.le) fl.

(** No file of the temp directory is empty. *)
Definition tmp_nonempty (w : world) : Prop :=
  map_Forall (λ _ (f : list Z), f ≠ []) (tmp w).

(** The queue of the merger between two groups: a heap of capacity
    [NMERGE] that is empty. *)
Definition idle_queue (obj : merge) : Prop :=
  Heap.heap_inv (queue obj) ∧ Heap.capacity (queue obj) = NMERGE ∧
  Heap.count (queue obj) = 0%nat.

(** No write call is short. *)
Definition no_short_fwrite (e : env) : Prop := ∀ t, fwrite_short e t = None.
Definition no_short_fprintf (e : env) : Prop := ∀ t, fprintf_short e t = None.

End merge_spec.

(** ** The chunk sorter *)

(** Blocks of [bsz] items each, every one of them sorted: the sections of
    the array between two passes of [pmsort_merge_array_sections]. *)
Definition sorted_blocks (bsz : nat) (bl : list (list Z)) : Prop :=
  Forall (λ b, length b = bsz ∧ StronglySorted Z.le b) bl.

(** The items after the last full section are merged with it by the pass
    in which the number of sections is odd, provided there are at most as
    many of them as a section has items: [number] sections of [bsz] items
    followed by [o] more items. *)
Inductive orphan_fits : nat → nat → nat → Prop :=
  | orphan_fits_odd number bsz o :
      (number `mod` 2 = 1)%nat → (o ≤ bsz)%nat → orphan_fits number bsz o
  | orphan_fits_even number bsz o :
      (number `mod` 2 = 0)%nat → orphan_fits (number / 2) (2 * bsz) o →
      orphan_fits number bsz o.

(** ** The text file *)

Section text_spec.
Import Tools.

(** The integer a line of the input file stands for, if [str2int] accepts
    it. *)
Definition parse_line (line : string) : option Z :=
  match str2int (strip_newline (cstring line)) with
  | inr v => Some v
  | inl _ => None
  end.

(** The integers of a text file, if every line is accepted. *)
Definition parse_file (s : string) : option (list Z) :=
  mapM parse_line (getlines s).

(** The text [fprintf(fout, "%d\n", v)] writes. *)
Definition render_line (v : Z) : string :=
  (print_int v +:+ String "010"%char EmptyString)%string.

(** The text file with one line for each integer of [vs]. *)
Fixpoint render (vs : list Z) : string :=
  match vs with
  | [] => EmptyString
  | v :: vs => (render_line v +:+ render vs)%string
  end.

(** The characters of a string are all different from [c]. *)
Fixpoint free_of (c : ascii) (s : string) : Prop :=
  match s with
  | EmptyString => True
  | String c' s => c' ≠ c ∧ free_of c s
  end.

(** The character of the decimal digit [d]. *)
Definition digit_char (d : Z) : ascii := ascii_of_nat (48 + Z.to_nat d).

(** A string made of decimal digits only. *)
Fixpoint all_digits (s : string) : Prop :=
  match s with
  | EmptyString => True
  | String c s => (∃ d, 0 ≤ d < 10 ∧ c = digit_char d) ∧ all_digits s
  end.

(** The values of [int32_t]. *)
Definition int32 (v : Z) : Prop := INT_MIN ≤ v ≤ INT_MAX.

End text_spec.

(** ** The sorter *)

Section sort_spec.
Import Sort.

(** The chunk sorter, run with [T] threads, sorts every array. *)
Definition chunk_sorter_sorts (T : nat) : Prop :=
  ∀ arr arr', Pmsort.pmsort_sort arr (length arr) T = Some arr' →
              StronglySorted Z.le arr'.

(** Every file of the temp directory is sorted. *)
Definition tmp_sorted (w : world) : Prop :=
  map_Forall (λ _ (f : list Z), StronglySorted Z.le f) (tmp w).

(** A sorter as [sort_create] builds it for [main]: more than [NMERGE]
    items fit in its buffer, and it has at least one thread. *)
Definition sort_ready (obj : sort) : Prop :=
  (Kmerge.NMERGE < buf_nmemb obj)%nat ∧ (0 < thr_count obj)%nat.

End sort_spec.

(** ** Example runs *)

Section examples.

(** An environment in which every call succeeds. *)
Definition env_ideal : env :=
  {| mkdtemp_ok := true; fwrite_short := λ _, None;
     fprintf_short := λ _, None |}.

(** An environment in which the text file cannot be written to: every
    [fprintf] transfers nothing. *)
Definition env_fprintf_fails : env :=
  {| mkdtemp_ok := true; fwrite_short := λ _, None;
     fprintf_short := λ _, Some 0%nat |}.

(** An environment in which the text file takes one line and no more: the
    write calls numbered 2 and more, when they are [fprintf] calls,
    transfer nothing. *)
Definition env_fprintf_one_line : env :=
  {| mkdtemp_ok := true; fwrite_short := λ _, None;
     fprintf_short := λ t, if bool_decide (2 ≤ t)%nat then Some 0%nat
                           else None |}.

(** The world with text file [s] and no temporary file. *)
Definition world_of (s : string) : world :=
  {| input := s; tmp := ∅; clock := 0 |}.

(** A heap of capacity 4 holding three elements. *)
Definition heap_of_three : Heap.heap :=
  {| Heap.capacity := 4; Heap.count := 3;
     Heap.arr := [ {| Heap.key := 1; Heap.idx := 0 |};
                   {| Heap.key := 5; Heap.idx := 1 |};
                   {| Heap.key := 2; Heap.idx := 2 |};
                   {| Heap.key := 0; Heap.idx := 0 |} ] |}.

(** A sorter with the smallest buffer a merge accepts, and one thread. *)
Definition sort_small : Sort.sort :=
  {| Sort.buf_nmemb := 17; Sort.thr_count := 1; Sort.fcount := 0 |}.

(** A temp directory with the two chunk files [0_0] and [0_1]. *)
Definition world_two_chunks : world :=
  {| input := EmptyString;
     tmp := <[(0%nat, 0%nat) := [1; 3]]> (<[(0%nat, 1%nat) := [2]]> ∅);
     clock := 0 |}.

Definition nl : string := String "010"%char EmptyString.

(** Twenty integers, three more than the buffer of [sort_small] holds. *)
Definition twenty : list Z :=
  [20; 3; 17; -5; 8; 8; 0; 14; 2; 19; 11; -1; 6; 13; 4; 16; 9; 1; 12; 7].

End examples.

(** * Proofs *)

Section heap_facts.
Import Heap.

Lemma heap_parent_lt i : (0 < i)%nat → (heap_parent i < i)%nat.
Proof.
  unfold heap_parent. intros Hi.
  assert ((i - 1) / 2 ≤ i - 1)%nat by (apply Nat.Div0.div_le_upper_bound; lia).
  lia.
Qed.

Lemma heap_parent_children i j :
  (0 < j)%nat → heap_parent j = i ↔ j = heap_left i ∨ j = heap_right i.
Proof.
  unfold heap_parent, heap_left, heap_right. intros Hj.
  pose proof (Nat.div_mod_eq (j - 1) 2) as Hd.
  pose proof (Nat.mod_upper_bound (j - 1) 2) as Hm.
  split.
  - intros <-. lia.
  - intros [->| ->].
    + replace (i * 2 + 1 - 1)%nat with (i * 2)%nat by lia.
      by rewrite Nat.div_mul.
    + replace (i * 2 + 2 - 1)%nat with (1 + i * 2)%nat by lia.
      by rewrite Nat.div_add.
Qed.

Lemma heap_swap_length a i j : length (heap_swap a i j) = length a.
Proof. unfold heap_swap. by rewrite !length_insert. Qed.

Lemma heap_swap_lookup a i j k :
  (i < length a)%nat → (j < length a)%nat →
  heap_swap a i j !!! k =
    if decide (k = j) then a !!! i
    else if decide (k = i) then a !!! j else a !!! k.
Proof.
  intros Hi Hj. unfold heap_swap.
  rewrite !list_lookup_total_insert, !length_insert.
  repeat case_decide; try done; lia.
Qed.

Lemma heap_swap_take_perm a n i j :
  (i < n)%nat → (j < n)%nat → (n ≤ length a)%nat →
  take n (heap_swap a i j) ≡ₚ take n a.
Proof.
  intros Hi Hj Hn. unfold heap_swap.
  rewrite !take_insert_lt by done.
  apply Permutation_insert_swap.
  - rewrite lookup_take_lt by done. apply list_lookup_lookup_total_lt. lia.
  - rewrite lookup_take_lt by done. apply list_lookup_lookup_total_lt. lia.
Qed.

Lemma heap_insert_loop_length fuel a i :
  length (heap_insert_loop fuel a i) = length a.
Proof.
  revert a i. induction fuel as [|fuel IH]; intros a i; simpl; [done|].
  case_match; [|done]. by rewrite IH, heap_swap_length.
Qed.

Lemma heap_insert_loop_ordered fuel a n i :
  (i ≤ fuel)%nat → (i < n)%nat → (n ≤ length a)%nat →
  ordered_up a n i → ordered (heap_insert_loop fuel a i) n.
Proof.
  revert a i. induction fuel as [|fuel IH]; intros a i Hf Hi Hn [H1 H2]; simpl.
  { intros j Hj. apply H1; lia. }
  destruct (bool_decide (i ≠ 0%nat)
            && (key (a !!! heap_parent i) >? key (a !!! i))) eqn:Hc.
  - apply andb_true_iff in Hc as [Hi0 Hgt].
    apply bool_decide_eq_true in Hi0. apply Z.gtb_lt in Hgt.
    pose proof (heap_parent_lt i ltac:(lia)) as Hp.
    apply IH; [lia|lia|by rewrite heap_swap_length|].
    split.
    + intros j Hj Hjp.
      rewrite !heap_swap_lookup by lia.
      pose proof (heap_parent_lt j ltac:(lia)) as Hpj.
      pose proof (H1 j Hj) as F1.
      pose proof (λ E, H2 j Hj E ltac:(lia)) as F2.
      assert (j = i → heap_parent j = heap_parent i) as Hji by (by intros ->).
      remember (heap_parent i) as p eqn:Ep.
      remember (heap_parent j) as q eqn:Eq. clear Ep Eq H1 H2 IH.
      repeat case_decide; subst; try lia;
        first [by apply F2 | by apply F1 | specialize (F1 ltac:(done)); lia].
    + intros j Hj Hjp Hp0.
      rewrite !heap_swap_lookup by lia.
      pose proof (heap_parent_lt j ltac:(lia)) as Hpj.
      pose proof (heap_parent_lt (heap_parent i) ltac:(lia)) as Hpp.
      pose proof (H1 j Hj) as F1.
      pose proof (H1 (heap_parent i) ltac:(lia) ltac:(lia)) as F3.
      assert (j = i → heap_parent j = heap_parent i) as Hji by (by intros ->).
      remember (heap_parent (heap_parent i)) as r eqn:Er.
      remember (heap_parent i) as p eqn:Ep.
      remember (heap_parent j) as q eqn:Eq. clear Er Ep Eq H1 H2 IH.
      repeat case_decide; subst; try lia;
        first [by apply F1 | specialize (F1 ltac:(done)); lia].
  - intros j Hj. apply andb_false_iff in Hc as [Hc|Hc].
    + apply bool_decide_eq_false in Hc.
      apply H1; [done|lia].
    + destruct (decide (j = i)) as [->|]; [|by apply H1].
      rewrite Z.gtb_ltb in Hc. apply Z.ltb_ge in Hc. done.
Qed.

Lemma heap_insert_loop_perm fuel a n i :
  (i < n)%nat → (n ≤ length a)%nat →
  take n (heap_insert_loop fuel a i) ≡ₚ take n a.
Proof.
  revert a i. induction fuel as [|fuel IH]; intros a i Hi Hn; simpl; [done|].
  case_match eqn:Hc; [|done].
  apply andb_true_iff in Hc as [Hi0 _]. apply bool_decide_eq_true in Hi0.
  pose proof (heap_parent_lt i ltac:(lia)).
  rewrite IH by (rewrite ?heap_swap_length; lia).
  apply heap_swap_take_perm; lia.
Qed.

Lemma heap_heapify_min_rec_S fuel obj i :
  heap_heapify_min_rec (S fuel) obj i =
    let min := heapify_select obj i in
    if bool_decide (min ≠ i)
    then heap_heapify_min_rec fuel (set_arr obj (heap_swap (arr obj) i min)) min
    else obj.
Proof. reflexivity. Qed.

Lemma heapify_select_spec obj i :
  let m := heapify_select obj i in
  let a := arr obj in
  (m = i ∨ m = heap_left i ∨ m = heap_right i) ∧
  (m ≠ i → (m < count obj)%nat ∧ key (a !!! m) < key (a !!! i)) ∧
  ((heap_left i < count obj)%nat → key (a !!! m) ≤ key (a !!! heap_left i)) ∧
  ((heap_right i < count obj)%nat → key (a !!! m) ≤ key (a !!! heap_right i)).
Proof.
  unfold heapify_select, heap_left, heap_right; simpl.
  destruct (bool_decide_reflect (i * 2 + 1 < count obj)%nat);
    destruct (Z.ltb_spec (key (arr obj !!! (i * 2 + 1)%nat))
                         (key (arr obj !!! i))); simpl;
    destruct (bool_decide_reflect (i * 2 + 2 < count obj)%nat); simpl;
    try match goal with
        | |- context [(?x <? ?y)] => destruct (Z.ltb_spec x y)
        end; simpl; repeat split; intros; lia.
Qed.

Lemma heap_heapify_min_rec_shape fuel obj i :
  capacity (heap_heapify_min_rec fuel obj i) = capacity obj ∧
  count (heap_heapify_min_rec fuel obj i) = count obj ∧
  length (arr (heap_heapify_min_rec fuel obj i)) = length (arr obj).
Proof.
  revert obj i. induction fuel as [|fuel IH]; intros obj i; [done|].
  rewrite heap_heapify_min_rec_S. simpl. case_bool_decide; [|done].
  destruct (IH (set_arr obj (heap_swap (arr obj) i (heapify_select obj i)))
               (heapify_select obj i)) as (-> & -> & ->).
  simpl. by rewrite heap_swap_length.
Qed.

Lemma heap_heapify_min_rec_ordered fuel obj i :
  (count obj - i ≤ fuel)%nat → (count obj ≤ length (arr obj))%nat →
  ordered_down (arr obj) (count obj) i →
  ordered (arr (heap_heapify_min_rec fuel obj i)) (count obj).
Proof.
  revert obj i. induction fuel as [|fuel IH]; intros obj i Hf Hn [H1 H2].
  { simpl. intros j Hj. apply H1; [done|].
    pose proof (heap_parent_lt j ltac:(lia)). lia. }
  rewrite heap_heapify_min_rec_S. simpl.
  destruct (heapify_select_spec obj i) as (Hm & Hlt & Hl & Hr).
  simpl in *. set (m := heapify_select obj i) in *. clearbody m.
  case_bool_decide as Hmi.
  - destruct (Hlt Hmi) as [Hmn Hkey].
    assert (i < m)%nat as Him
      by (unfold heap_left, heap_right in Hm; lia).
    change (count obj) with
      (count (set_arr obj (heap_swap (arr obj) i m))).
    apply IH; simpl; [lia|by rewrite heap_swap_length|].
    assert (heap_parent m = i) as Hpm by (apply heap_parent_children; lia).
    split.
    + intros j Hj Hjp.
      rewrite !heap_swap_lookup by lia.
      pose proof (heap_parent_lt j ltac:(lia)) as Hpj.
      pose proof (H1 j Hj) as F1.
      pose proof (proj1 (heap_parent_children i j ltac:(lia))) as Hch.
      assert (i ≠ 0%nat → key (arr obj !!! heap_parent i)
                           ≤ key (arr obj !!! m)) as F2.
      { intros ?. apply H2; lia. }
      assert (j = i → heap_parent j = heap_parent i) as Hji by (by intros ->).
      assert (j = m → heap_parent j = i) as Hjm by (by intros ->).
      pose proof (λ E, heap_parent_lt i E) as Hpi.
      remember (heap_parent i) as p eqn:Ep.
      remember (heap_parent j) as q eqn:Eq.
      remember (heap_left i) as l eqn:El.
      remember (heap_right i) as r eqn:Er.
      clear Ep Eq El Er H1 H2 IH.
      repeat case_decide; subst; try lia;
        first [ by apply F1
              | apply F2; lia
              | rewrite (Hji eq_refl); apply F2; lia
              | destruct Hch as [->| ->]; [done|apply Hl; lia|apply Hr; lia] ].
    + intros j Hj Hjp Hm0.
      rewrite !heap_swap_lookup by lia.
      pose proof (heap_parent_lt j ltac:(lia)) as Hpj.
      pose proof (H1 j Hj) as F1.
      rewrite Hpm. rewrite Hjp in *.
      repeat case_decide; subst; try lia.
  - intros j Hj.
    destruct (decide (heap_parent j = i)) as [Hp|Hp]; [|by apply H1].
    rewrite Hp. apply heap_parent_children in Hp as [->| ->]; [| |lia].
    + assert (m = i) as Hmi' by (destruct (decide (m = i)); done).
      rewrite Hmi' in Hl. apply Hl. lia.
    + assert (m = i) as Hmi' by (destruct (decide (m = i)); done).
      rewrite Hmi' in Hr. apply Hr. lia.
Qed.

Lemma heap_heapify_min_rec_perm fuel obj i :
  (i < count obj)%nat → (count obj ≤ length (arr obj))%nat →
  take (count obj) (arr (heap_heapify_min_rec fuel obj i))
    ≡ₚ take (count obj) (arr obj).
Proof.
  revert obj i. induction fuel as [|fuel IH]; intros obj i Hi Hn; [done|].
  rewrite heap_heapify_min_rec_S. simpl.
  destruct (heapify_select_spec obj i) as (Hm & Hlt & _).
  simpl in *. set (m := heapify_select obj i) in *. clearbody m.
  case_bool_decide as Hmi; [|done].
  destruct (Hlt Hmi) as [Hmn _].
  change (count obj) with (count (set_arr obj (heap_swap (arr obj) i m))).
  rewrite IH; simpl; [|done|by rewrite heap_swap_length].
  by apply heap_swap_take_perm.
Qed.

Lemma ordered_root_min a n j :
  ordered a n → (j < n)%nat → key (a !!! 0%nat) ≤ key (a !!! j).
Proof.
  intros Ho. induction (lt_wf j) as [j _ IH]. intros Hj.
  destruct (decide (j = 0%nat)) as [->|Hj0]; [done|].
  pose proof (heap_parent_lt j ltac:(lia)).
  etrans; [apply (IH (heap_parent j)); lia|]. apply Ho. lia.
Qed.

#[local] Arguments heap_insert_loop : simpl never.
#[local] Arguments heap_heapify_min_rec : simpl never.

Lemma heap_insert_Some obj el :
  (count obj < capacity obj)%nat →
  heap_insert obj el =
    Some {| capacity := capacity obj; count := S (count obj);
            arr := heap_insert_loop (S (count obj))
                     (<[count obj := el]> (arr obj)) (count obj) |}.
Proof.
  intros Hc. unfold heap_insert. rewrite bool_decide_eq_true_2 by done.
  by replace (S (count obj) - 1)%nat with (count obj) by lia.
Qed.

Lemma heap_insert_None obj el :
  heap_insert obj el = None ↔ ¬ (count obj < capacity obj)%nat.
Proof. unfold heap_insert. case_bool_decide; naive_solver. Qed.

Lemma heap_insert_wf obj el obj' :
  heap_wf obj → heap_insert obj el = Some obj' →
  heap_wf obj' ∧ capacity obj' = capacity obj ∧ count obj' = S (count obj) ∧
  elements obj' ≡ₚ el :: elements obj.
Proof.
  intros [Hlen Hcnt] Hins.
  destruct (decide (count obj < capacity obj)%nat) as [Hc|Hc];
    [|apply heap_insert_None with (el := el) in Hc; congruence].
  rewrite heap_insert_Some in Hins by done.
  injection Hins as <-. unfold heap_wf, elements; cbn [capacity count arr].
  rewrite heap_insert_loop_length, length_insert.
  repeat split; [done|lia|].
  rewrite heap_insert_loop_perm by (rewrite ?length_insert; lia).
  rewrite (take_S_r _ _ el) by (apply list_lookup_insert_eq; lia).
  rewrite take_insert_ge by lia.
  by rewrite Permutation_app_comm.
Qed.

Lemma heap_insert_ordered obj el obj' :
  heap_inv obj → heap_insert obj el = Some obj' → heap_ordered obj'.
Proof.
  intros [[Hlen Hcnt] Hord] Hins.
  destruct (decide (count obj < capacity obj)%nat) as [Hc|Hc];
    [|apply heap_insert_None with (el := el) in Hc; congruence].
  rewrite heap_insert_Some in Hins by done.
  injection Hins as <-. unfold heap_ordered; cbn [capacity count arr].
  apply heap_insert_loop_ordered; [lia|lia|rewrite length_insert; lia|].
  split.
  - intros j Hj Hjc.
    pose proof (heap_parent_lt j ltac:(lia)).
    rewrite !list_lookup_total_insert_ne by lia. apply Hord. lia.
  - intros j Hj Hp. pose proof (heap_parent_lt j ltac:(lia)). lia.
Qed.

Lemma heap_pop_Some obj :
  (0 < count obj)%nat →
  heap_pop obj =
    Some (arr obj !!! 0%nat,
          heap_heapify_min
            {| capacity := capacity obj; count := (count obj - 1)%nat;
               arr := <[0%nat := arr obj !!! (count obj - 1)%nat]> (arr obj) |}
            0).
Proof. intros Hc. unfold heap_pop. by rewrite bool_decide_eq_true_2. Qed.

Lemma heap_pop_None obj : heap_pop obj = None ↔ count obj = 0%nat.
Proof. unfold heap_pop. case_bool_decide; [|split; [lia|done]]. split; [done|lia]. Qed.

Lemma heap_pop_wf obj el obj' :
  heap_wf obj → heap_pop obj = Some (el, obj') →
  heap_wf obj' ∧ capacity obj' = capacity obj ∧
  S (count obj') = count obj ∧
  el = arr obj !!! 0%nat ∧
  el :: elements obj' ≡ₚ elements obj.
Proof.
  intros [Hlen Hcnt] Hpop. unfold heap_pop in Hpop.
  case_bool_decide as Hc; [|done]. injection Hpop as <- <-.
  unfold heap_heapify_min; simpl.
  match goal with |- context [heap_heapify_min_rec ?f ?o ?i] =>
    destruct (heap_heapify_min_rec_shape f o i) as (Hcap & Hn & Hl);
    set (res := heap_heapify_min_rec f o i) in *;
    pose proof (heap_heapify_min_rec_perm f o i) as Hperm
  end.
  simpl in *. fold res in Hperm. unfold heap_wf, elements.
  rewrite Hcap, Hn, Hl, length_insert.
  repeat split; [done|lia|lia|].
  destruct (decide (count obj = 1%nat)) as [H1|H1].
  { rewrite H1. simpl. rewrite take_0.
    destruct (arr obj) as [|x a]; simpl in *; [lia|]. by rewrite take_0. }
  rewrite Hperm by (rewrite ?length_insert; lia).
  destruct (arr obj) as [|x a] eqn:Ha; simpl in *; [lia|].
  destruct (count obj) as [|[|n]] eqn:Hco; [lia|lia|]. simpl.
  rewrite (take_S_r a n (a !!! n)).
  2:{ apply list_lookup_lookup_total_lt. lia. }
  apply perm_skip. by rewrite Permutation_app_comm.
Qed.

Lemma heap_pop_ordered obj el obj' :
  heap_inv obj → heap_pop obj = Some (el, obj') → heap_ordered obj'.
Proof.
  intros [[Hlen Hcnt] Hord] Hpop. unfold heap_pop in Hpop.
  case_bool_decide as Hc; [|done]. injection Hpop as <- <-.
  unfold heap_heapify_min, heap_ordered; simpl.
  match goal with |- context [heap_heapify_min_rec ?f ?o ?i] =>
    destruct (heap_heapify_min_rec_shape f o i) as (Hcap & Hn & Hl);
    pose proof (heap_heapify_min_rec_ordered f o i) as Ho
  end.
  simpl in *. rewrite Hn. apply Ho; [lia|rewrite length_insert; lia|].
  split.
  - intros j Hj Hp. pose proof (heap_parent_lt j ltac:(lia)).
    rewrite !list_lookup_total_insert_ne by lia. apply Hord. lia.
  - intros j Hj Hp ?. lia.
Qed.

Lemma heap_pop_min obj el obj' :
  heap_inv obj → heap_pop obj = Some (el, obj') →
  ∀ x, x ∈ elements obj → key el ≤ key x.
Proof.
  intros [[Hlen Hcnt] Hord] Hpop x Hx.
  unfold heap_pop in Hpop. case_bool_decide; [|done].
  injection Hpop as <- _.
  apply list_elem_of_lookup in Hx as [j Hj]. unfold elements in Hj.
  apply lookup_take_Some in Hj as [Hj Hjn].
  apply list_lookup_total_correct in Hj as <-.
  by apply (ordered_root_min _ (count obj)).
Qed.

End heap_facts.

(** * Facts on lists *)

Lemma concat_insert_cons {A} (rs : list (list A)) i x r :
  rs !! i = Some (x :: r) → concat rs ≡ₚ x :: concat (<[i := r]> rs).
Proof.
  intros Hi.
  rewrite <-(take_drop_middle rs i (x :: r)) at 1 by done.
  rewrite insert_take_drop by (by eapply lookup_lt_Some).
  rewrite !concat_app. simpl.
  by rewrite <-Permutation_middle.
Qed.

Lemma NoDup_bounded_length (l : list nat) k :
  NoDup l → (∀ x, x ∈ l → (x < k)%nat) → (length l ≤ k)%nat.
Proof.
  intros Hnd Hlt.
  assert (l ⊆+ seq 0 k) as Hsub.
  { apply NoDup_submseteq; [done|]. intros x Hx.
    apply elem_of_seq. specialize (Hlt x Hx). lia. }
  apply submseteq_length in Hsub. by rewrite length_seq in Hsub.
Qed.

Lemma StronglySorted_snoc (l : list Z) x :
  StronglySorted Z.le l → (∀ y, y ∈ l → y ≤ x) →
  StronglySorted Z.le (l ++ [x]).
Proof.
  intros Hl Hx. apply StronglySorted_app_2; [|done|repeat constructor].
  intros a b Ha Hb. apply list_elem_of_singleton in Hb as ->. by apply Hx.
Qed.

Lemma sum_list_insert (l : list nat) i x y :
  l !! i = Some x →
  (sum_list (<[i := y]> l) + x = sum_list l + y)%nat.
Proof.
  revert i. induction l as [|a l IH]; intros [|i] Hi; simplify_eq/=; [lia|].
  specialize (IH _ Hi). lia.
Qed.

#[global] Arguments Heap.heap_insert_loop : simpl never.
#[global] Arguments Heap.heap_heapify_min_rec : simpl never.

Lemma heap_insert_Some_count obj el obj' :
  Heap.heap_insert obj el = Some obj' →
  Heap.count obj' = S (Heap.count obj) ∧
  Heap.capacity obj' = Heap.capacity obj ∧
  (Heap.count obj < Heap.capacity obj)%nat.
Proof.
  intros Hins.
  destruct (decide (Heap.count obj < Heap.capacity obj)%nat) as [Hc|Hc];
    [|apply heap_insert_None with (el := el) in Hc; congruence].
  rewrite heap_insert_Some in Hins by done. by injection Hins as <-.
Qed.

Section merge_facts.
Import Kmerge.

Implicit Types (st : mstate) (e : env).

(** ** Reading the state *)

Lemma rests_length m st : length (rests m st) = m.
Proof. unfold rests. by rewrite length_fmap, length_seq. Qed.

Lemma rests_lookup m st i :
  (i < m)%nat → rests m st !! i = Some (rest st i).
Proof.
  intros Hi. unfold rests. rewrite list_lookup_fmap.
  by rewrite lookup_seq_lt.
Qed.

Lemma rests_insert m st st' i :
  (i < m)%nat →
  (∀ j, (j < m)%nat → j ≠ i → rest st' j = rest st j) →
  rests m st' = <[i := rest st' i]> (rests m st).
Proof.
  intros Hi Hj. apply list_eq. intros j.
  destruct (decide (j < m)%nat) as [Hjm|Hjm].
  - destruct (decide (j = i)) as [->|Hne].
    + rewrite list_lookup_insert_eq by (by rewrite rests_length).
      by apply rests_lookup.
    + rewrite list_lookup_insert_ne by done.
      rewrite !rests_lookup by done. f_equal. by apply Hj.
  - rewrite !lookup_ge_None_2; [done|..];
      rewrite ?length_insert, rests_length; lia.
Qed.

Lemma rests_same m st st' :
  (∀ j, (j < m)%nat → rest st' j = rest st j) → rests m st' = rests m st.
Proof.
  intros Hj. apply list_eq. intros j.
  destruct (decide (j < m)%nat) as [Hjm|Hjm].
  - rewrite !rests_lookup by done. f_equal. by apply Hj.
  - rewrite !lookup_ge_None_2; [done|..]; rewrite rests_length; lia.
Qed.

Lemma rest_eq st st' i :
  st_blocks st' !!! i = st_blocks st !!! i →
  st_fs st' !!! i = st_fs st !!! i →
  rest st' i = rest st i.
Proof. unfold rest. by intros -> ->. Qed.

(** ** The output block *)

Lemma flush_out_spec e st ok st' :
  flush_out e st = (ok, st') →
  length (st_blocks st) = S NMERGE →
  pos (st_blocks st !!! NMERGE) = length (buf (st_blocks st !!! NMERGE)) →
  st_queue st' = st_queue st ∧ st_fs st' = st_fs st ∧
  st_clock st' = S (st_clock st) ∧
  length (st_blocks st') = S NMERGE ∧
  (∀ i, i ≠ NMERGE → st_blocks st' !!! i = st_blocks st !!! i) ∧
  size (st_blocks st' !!! NMERGE) = size (st_blocks st !!! NMERGE) ∧
  (fwrite_short e (st_clock st) = None → ok = true) ∧
  (ok = true →
     st_fout st' = emitted st ∧
     buf (st_blocks st' !!! NMERGE) = [] ∧
     pos (st_blocks st' !!! NMERGE) = 0%nat).
Proof.
  intros Hf Hlen Hpos. unfold flush_out, fwrite in Hf.
  set (out := st_blocks st !!! NMERGE) in *.
  set (n := match fwrite_short e (st_clock st) with
            | Some k => (k `min` length (buf out))%nat
            | None => length (buf out)
            end) in *.
  case_bool_decide as Hn; simplify_eq/=.
  - repeat split; try done.
    + intros Hnone. unfold n in Hn. rewrite Hnone in Hn. lia.
  - rewrite length_insert.
    repeat split; try done.
    + intros i Hi. by rewrite list_lookup_total_insert_ne.
    + by rewrite list_lookup_total_insert_eq by lia.
    + unfold emitted. fold out. rewrite Hn, Hpos. by rewrite take_ge by lia.
    + by rewrite list_lookup_total_insert_eq by lia.
    + by rewrite list_lookup_total_insert_eq by lia.
Qed.

Lemma emit_out_spec e st k ok st' :
  emit_out e st k = (ok, st') →
  length (st_blocks st) = S NMERGE →
  pos (st_blocks st !!! NMERGE) = length (buf (st_blocks st !!! NMERGE)) →
  (pos (st_blocks st !!! NMERGE) < size (st_blocks st !!! NMERGE))%nat →
  st_queue st' = st_queue st ∧ st_fs st' = st_fs st ∧
  (st_clock st ≤ st_clock st')%nat ∧
  length (st_blocks st') = S NMERGE ∧
  (∀ i, i ≠ NMERGE → st_blocks st' !!! i = st_blocks st !!! i) ∧
  (fwrite_short e (st_clock st) = None → ok = true) ∧
  (ok = true →
     emitted st' = emitted st ++ [k] ∧
     pos (st_blocks st' !!! NMERGE)
       = length (buf (st_blocks st' !!! NMERGE)) ∧
     (pos (st_blocks st' !!! NMERGE) < size (st_blocks st' !!! NMERGE))%nat).
Proof.
  intros He Hlen Hpos Hsz. unfold emit_out in He.
  set (out := st_blocks st !!! NMERGE) in *.
  case_bool_decide as Hfull; simpl in Hfull.
  - apply flush_out_spec in He as (Hq & Hfs & Hc & Hl & Hb & Hs & Hok & Hres);
      simpl in *; rewrite ?length_insert; try done.
    2:{ rewrite list_lookup_total_insert_eq by lia. simpl.
        rewrite length_app. simpl. lia. }
    rewrite list_lookup_total_insert_eq in Hs by lia. simpl in Hs.
    repeat split; try done.
    + lia.
    + intros i Hi. rewrite Hb by done.
      by rewrite list_lookup_total_insert_ne.
    + destruct (Hres H) as (Hfo & Hbuf & Hp). unfold emitted at 1.
      rewrite Hfo, Hbuf, app_nil_r. unfold emitted; simpl.
      rewrite list_lookup_total_insert_eq by lia. simpl.
      by rewrite app_assoc.
    + destruct (Hres H) as (Hfo & Hbuf & Hp). by rewrite Hbuf, Hp.
    + destruct (Hres H) as (Hfo & Hbuf & Hp). rewrite Hp, Hs. lia.
  - simplify_eq/=. rewrite length_insert.
    repeat split; try done.
    + intros i Hi. by rewrite list_lookup_total_insert_ne.
    + unfold emitted; simpl.
      rewrite list_lookup_total_insert_eq by lia. simpl.
      by rewrite app_assoc.
    + rewrite list_lookup_total_insert_eq by lia. simpl.
      rewrite length_app. simpl. fold out. lia.
    + rewrite list_lookup_total_insert_eq by lia. simpl. fold out. lia.
Qed.

(** ** The input blocks *)

Lemma push_next_spec st i :
  (pos (st_blocks st !!! i) < length (buf (st_blocks st !!! i)))%nat →
  (Heap.count (st_queue st) < Heap.capacity (st_queue st))%nat →
  ∃ st' k,
    push_next st i = Ok st' ∧
    buf (st_blocks st !!! i) !! pos (st_blocks st !!! i) = Some k ∧
    Heap.heap_insert (st_queue st) {| Heap.key := k; Heap.idx := i |}
      = Some (st_queue st') ∧
    st_blocks st' =
      <[i := {| buf := buf (st_blocks st !!! i);
                size := size (st_blocks st !!! i);
                count := count (st_blocks st !!! i);
                pos := S (pos (st_blocks st !!! i)) |}]> (st_blocks st) ∧
    st_fs st' = st_fs st ∧ st_fout st' = st_fout st ∧
    st_clock st' = st_clock st.
Proof.
  intros Hpos Hcap. unfold push_next.
  destruct (lookup_lt_is_Some_2 _ _ Hpos) as [k Hk]. rewrite Hk.
  rewrite heap_insert_Some by done.
  eexists _, k. split; [reflexivity|]. repeat split; try done.
  by rewrite heap_insert_Some.
Qed.

Lemma load_block_blocks st i n :
  st_blocks (load_block st i n) =
    <[i := {| buf := take n (st_fs st !!! i);
              size := size (st_blocks st !!! i);
              count := length (take n (st_fs st !!! i));
              pos := 0 |}]> (st_blocks st).
Proof. reflexivity. Qed.

Lemma load_block_fs st i n :
  st_fs (load_block st i n) = <[i := drop n (st_fs st !!! i)]> (st_fs st).
Proof. reflexivity. Qed.

Lemma pending_insert_block st st' i b :
  (i < NMERGE)%nat → (i < length (st_blocks st))%nat →
  st_blocks st' = <[i := b]> (st_blocks st) →
  (pending st' + (count (st_blocks st !!! i) - pos (st_blocks st !!! i))
   + Heap.count (st_queue st) + sum_list (length <$> st_fs st)
   = pending st + (count b - pos b)
     + Heap.count (st_queue st') + sum_list (length <$> st_fs st'))%nat.
Proof.
  intros Hi Hlen Hb. unfold pending. rewrite Hb.
  rewrite take_insert_lt by done.
  set (f := λ b : merge_block, (count b - pos b)%nat).
  change (fmap ?g (<[i:=b]> ?l)) with (f <$> <[i:=b]> l).
  change (fmap ?g (take ?n ?l)) with (f <$> take n l).
  rewrite list_fmap_insert.
  pose proof (sum_list_insert (f <$> take NMERGE (st_blocks st)) i
                (f (st_blocks st !!! i)) (f b)) as Hs.
  change (count (st_blocks st !!! i) - pos (st_blocks st !!! i))%nat
    with (f (st_blocks st !!! i)).
  change (count b - pos b)%nat with (f b).
  clearbody f. lapply Hs; [lia|].
  rewrite list_lookup_fmap, lookup_take_lt by done.
  by rewrite (list_lookup_lookup_total_lt _ _ Hlen).
Qed.

Lemma queue_next_spec m st i :
  (i < m)%nat → (m ≤ NMERGE)%nat →
  length (st_blocks st) = S NMERGE → length (st_fs st) = m →
  count (st_blocks st !!! i) = length (buf (st_blocks st !!! i)) →
  (pos (st_blocks st !!! i) ≤ count (st_blocks st !!! i))%nat →
  (0 < size (st_blocks st !!! i))%nat →
  (0 < count (st_blocks st !!! i))%nat →
  (Heap.count (st_queue st) < Heap.capacity (st_queue st))%nat →
  ∃ st',
    queue_next st i = Ok st' ∧
    st_fout st' = st_fout st ∧ st_clock st' = st_clock st ∧
    length (st_blocks st') = S NMERGE ∧ length (st_fs st') = m ∧
    (∀ j, j ≠ i → st_blocks st' !!! j = st_blocks st !!! j) ∧
    (∀ j, j ≠ i → st_fs st' !!! j = st_fs st !!! j) ∧
    count (st_blocks st' !!! i) = length (buf (st_blocks st' !!! i)) ∧
    (pos (st_blocks st' !!! i) ≤ count (st_blocks st' !!! i))%nat ∧
    size (st_blocks st' !!! i) = size (st_blocks st !!! i) ∧
    pending st' = pending st ∧
    ((∃ x, rest st i = x :: rest st' i ∧
           Heap.heap_insert (st_queue st) {| Heap.key := x; Heap.idx := i |}
             = Some (st_queue st') ∧
           (0 < count (st_blocks st' !!! i))%nat)
     ∨ (rest st i = [] ∧ rest st' i = [] ∧ st_queue st' = st_queue st)).
Proof.
  intros Hi Hm Hbl Hfl Hcnt Hpos Hsz Hc0 Hcap. unfold queue_next.
  set (b := st_blocks st !!! i) in *.
  rewrite bool_decide_eq_false_2 by lia.
  case_bool_decide as Hlt.
  - (* the block still has items *)
    destruct (push_next_spec st i)
      as (st' & k & -> & Hk & Hins & Hb' & Hfs & Hfo & Hcl);
      [fold b; lia|done|]. fold b in Hk, Hb'.
    exists st'. split; [done|].
    assert (st_blocks st' !!! i =
            {| buf := buf b; size := size b; count := count b;
               pos := S (pos b) |}) as Hbi.
    { rewrite Hb'. apply list_lookup_total_insert_eq. lia. }
    assert (pending st' = pending st) as Hp.
    { pose proof (pending_insert_block st st' i _ ltac:(lia) ltac:(lia) Hb')
        as Hp. fold b in Hp. cbn [buf size count pos] in Hp.
      rewrite Hfs in Hp. apply heap_insert_Some_count in Hins. lia. }
    rewrite Hbi. cbn [buf size count pos].
    assert (rest st i = k :: rest st' i) as Hr.
    { unfold rest. rewrite Hbi, Hfs. cbn [buf size count pos]. fold b.
      by rewrite (drop_S _ _ _ Hk). }
    split_and!; try done; try lia;
      first [ by rewrite Hb', length_insert
            | by rewrite Hfs
            | by (intros j Hj; rewrite Hb', list_lookup_total_insert_ne)
            | by (intros j Hj; rewrite Hfs)
            | left; exists k; split_and!; try done; lia ].
  - (* the block is exhausted *)
    set (f := st_fs st !!! i) in *.
    set (st1 := load_block st i (size b)).
    assert (st_blocks st1 !!! i =
            {| buf := take (size b) f; size := size b;
               count := length (take (size b) f); pos := 0 |}) as Hb1.
    { unfold st1. rewrite load_block_blocks.
      apply list_lookup_total_insert_eq. lia. }
    assert (st_fs st1 !!! i = drop (size b) f) as Hf1.
    { unfold st1. rewrite load_block_fs.
      apply list_lookup_total_insert_eq. lia. }
    assert (rest st i = f) as Hrest.
    { unfold rest. fold b f. rewrite drop_ge by lia. done. }
    assert (pending st1 = pending st) as Hp1.
    { pose proof (pending_insert_block st st1 i _ ltac:(lia) ltac:(lia)
                    (load_block_blocks st i (size b))) as Hp.
      fold b f in Hp. simpl in Hp.
      pose proof (sum_list_insert (length <$> st_fs st) i (length f)
                    (length (drop (size b) f))) as Hs.
      rewrite <-list_fmap_insert in Hs.
      change (st_fs st1) with (<[i := drop (size b) f]> (st_fs st)) in Hp.
      change (st_queue st1) with (st_queue st) in Hp.
      lapply Hs.
      2:{ rewrite list_lookup_fmap.
          unfold f. rewrite (list_lookup_lookup_total_lt (st_fs st) i) by lia.
          done. }
      rewrite length_take, length_drop in *. fold f in Hp. lia. }
    rewrite Hb1. simpl.
    case_bool_decide as Hlen.
    + destruct (push_next_spec st1 i)
        as (st' & k & -> & Hk & Hins & Hb' & Hfs & Hfo & Hcl);
        [by rewrite Hb1|done|].
      rewrite Hb1 in Hk, Hb'. cbn [buf size count pos] in Hk, Hb'.
      exists st'. split; [done|].
      assert (length (st_blocks st1) = S NMERGE) as Hl1.
      { unfold st1. by rewrite load_block_blocks, length_insert. }
      assert (st_blocks st' !!! i =
              {| buf := take (size b) f; size := size b;
                 count := length (take (size b) f); pos := 1 |}) as Hbi.
      { rewrite Hb'. apply list_lookup_total_insert_eq. lia. }
      assert (∀ j, j ≠ i → st_blocks st' !!! j = st_blocks st !!! j) as Hbj.
      { intros j Hj. rewrite Hb'. unfold st1. rewrite load_block_blocks.
        by rewrite !list_lookup_total_insert_ne. }
      assert (∀ j, j ≠ i → st_fs st' !!! j = st_fs st !!! j) as Hfj.
      { intros j Hj. rewrite Hfs. unfold st1. rewrite load_block_fs.
        by rewrite !list_lookup_total_insert_ne. }
      assert (pending st' = pending st) as Hp.
      { rewrite <-Hp1.
        pose proof (pending_insert_block st1 st' i _ ltac:(lia) ltac:(lia) Hb')
          as Hp.
        rewrite Hb1 in Hp. cbn [buf size count pos] in Hp. rewrite Hfs in Hp.
        apply heap_insert_Some_count in Hins. lia. }
      rewrite Hbi. cbn [buf size count pos].
      assert (rest st i = k :: rest st' i) as Hr.
      { rewrite Hrest. unfold rest. rewrite Hbi, Hfs, Hf1.
        cbn [buf size count pos].
        rewrite <-(take_drop (size b) f) at 1.
        destruct (take (size b) f) as [|y l]; simplify_eq/=.
        by rewrite drop_0. }
      split_and!; try done; try lia;
        first [ by rewrite Hb', length_insert
              | by (rewrite Hfs; unfold st1;
                    rewrite load_block_fs, length_insert)
              | left; exists k; split_and!; try done; lia ].
    + exists st1. split; [done|].
      assert (f = []) as Hnil.
      { destruct f as [|y f']; [done|].
        destruct (size b); [lia|]. simpl in Hlen. lia. }
      rewrite Hb1. cbn [buf size count pos].
      assert (rest st1 i = []) as Hr.
      { unfold rest. rewrite Hb1, Hf1, Hnil. cbn [buf size count pos].
        by rewrite take_nil, !drop_nil. }
      split_and!; try done; try lia;
        first [ by (unfold st1; rewrite load_block_blocks, length_insert)
              | by (unfold st1; rewrite load_block_fs, length_insert)
              | by (intros j Hj; unfold st1;
                    rewrite load_block_blocks, !list_lookup_total_insert_ne)
              | by (intros j Hj; unfold st1;
                    rewrite load_block_fs, !list_lookup_total_insert_ne)
              | right; split_and!; [by rewrite Hrest|done|done] ].
Qed.

Lemma pending_eq st st' :
  Heap.count (st_queue st') = Heap.count (st_queue st) →
  st_fs st' = st_fs st →
  length (st_blocks st') = length (st_blocks st) →
  (∀ i, i ≠ NMERGE → st_blocks st' !!! i = st_blocks st !!! i) →
  pending st' = pending st.
Proof.
  intros Hq Hfs Hlen Hb. unfold pending. rewrite Hq, Hfs.
  replace (take NMERGE (st_blocks st')) with (take NMERGE (st_blocks st));
    [done|].
  apply list_eq. intros i.
  destruct (decide (i < NMERGE)%nat) as [Hi|Hi].
  - rewrite !lookup_take_lt by done.
    destruct (decide (i < length (st_blocks st))%nat) as [Hl|Hl].
    + rewrite !list_lookup_lookup_total_lt by lia.
      f_equal. symmetry. apply Hb. lia.
    + rewrite !lookup_ge_None_2 by lia. done.
  - rewrite !lookup_take_ge by lia. done.
Qed.

Lemma emitted_eq st st' :
  st_fout st' = st_fout st →
  st_blocks st' !!! NMERGE = st_blocks st !!! NMERGE →
  emitted st' = emitted st.
Proof. unfold emitted. by intros -> ->. Qed.

(** ** One turn of the merge loop *)

Lemma turn_effect_queued m st st' el q :
  merge_wf m m st →
  Heap.heap_pop (st_queue st) = Some (el, q) →
  turn_effect m st st' el q →
  Heap.heap_inv q ∧ Heap.capacity q = NMERGE ∧
  el :: Heap.elements q ≡ₚ queued st ∧
  (∀ x, x ∈ queued st → Heap.key el ≤ Heap.key x) ∧
  (Heap.idx el ∉ (Heap.idx <$> Heap.elements q)) ∧
  NoDup (Heap.idx <$> Heap.elements q) ∧
  (Heap.idx el < m)%nat ∧
  Heap.heap_inv (st_queue st') ∧ Heap.capacity (st_queue st') = NMERGE ∧
  ((∃ x, rest st (Heap.idx el) = x :: rest st' (Heap.idx el) ∧
         queued st' ≡ₚ {| Heap.key := x; Heap.idx := Heap.idx el |}
                        :: Heap.elements q ∧
         (0 < count (st_blocks st' !!! Heap.idx el))%nat)
   ∨ (rest st (Heap.idx el) = [] ∧ rest st' (Heap.idx el) = [] ∧
      queued st' = Heap.elements q)).
Proof.
  intros Hwf Hpop (_ & _ & _ & _ & _ & _ & _ & _ & _ & _ & Hcase).
  destruct Hwf as [Hm Hbl Hfl Hheap Hcap Hin Hout Hfresh Hnd Hlt Hld Hdone].
  destruct (heap_pop_wf _ _ _ (proj1 Hheap) Hpop)
    as (Hqwf & Hqcap & Hqcnt & Hel & Hperm).
  pose proof (heap_pop_ordered _ _ _ Hheap Hpop) as Hqord.
  pose proof (heap_pop_min _ _ _ Hheap Hpop) as Hmin.
  assert (NoDup (Heap.idx el :: (Heap.idx <$> Heap.elements q))) as Hnd'.
  { change (NoDup (Heap.idx <$> el :: Heap.elements q)).
    unfold queued in Hnd. by rewrite Hperm. }
  apply NoDup_cons in Hnd' as [Hni Hnd'].
  assert (el ∈ queued st) as Helq.
  { unfold queued. rewrite <-Hperm. left. }
  split_and!; try done.
  - congruence.
  - by apply Hlt.
  - destruct Hcase as [(x & Hr & Hins & Hc)|(Hr & Hr' & ->)]; [|done].
    split; [by destruct (heap_insert_wf _ _ _ Hqwf Hins)|].
    eapply heap_insert_ordered; [|done]. by split.
  - destruct Hcase as [(x & Hr & Hins & Hc)|(Hr & Hr' & ->)]; [|congruence].
    destruct (heap_insert_wf _ _ _ Hqwf Hins) as (_ & -> & _). congruence.
  - destruct Hcase as [(x & Hr & Hins & Hc)|(Hr & Hr' & Hq)].
    + left. exists x. split_and!; try done.
      by destruct (heap_insert_wf _ _ _ Hqwf Hins) as (_ & _ & _ & ?).
    + right. split_and!; try done. unfold queued. by rewrite Hq.
Qed.

Lemma turn_effect_rest m st st' el q j :
  (m ≤ NMERGE)%nat → turn_effect m st st' el q →
  (j < m)%nat → j ≠ Heap.idx el → rest st' j = rest st j.
Proof.
  intros Hm (_ & _ & _ & _ & _ & Hb & Hf & _) Hj Hne.
  apply rest_eq; [apply Hb; lia|by apply Hf].
Qed.

Lemma turn_effect_wf m st st' el q :
  merge_wf m m st →
  Heap.heap_pop (st_queue st) = Some (el, q) →
  turn_effect m st st' el q →
  merge_wf m m st'.
Proof.
  intros Hwf Hpop Heff.
  destruct (turn_effect_queued _ _ _ _ _ Hwf Hpop Heff)
    as (Hqinv & Hqcap & Hperm & Hmin & Hni & Hnd' & Hi & Hinv' & Hcap' & Hcase).
  pose proof (λ j, turn_effect_rest m st st' el q j
                     (proj2 (wf_m _ _ _ Hwf)) Heff) as Hrest.
  destruct Heff as (Hbl' & Hfl' & Hem & Hop & Hos & Hb & Hf & Hic & Hip & His
                    & _).
  destruct Hwf as [Hm Hbl Hfl Hheap Hcap Hin Hout Hfresh Hnd Hlt Hld Hdone].
  assert (∀ x, x ∈ Heap.elements q → x ∈ queued st) as Hsub.
  { intros x Hx. rewrite <-Hperm. by right. }
  assert (∀ x, x ∈ Heap.elements q → Heap.idx x ≠ Heap.idx el) as Hneq.
  { intros x Hx Heq. apply Hni. rewrite <-Heq.
    by apply list_elem_of_fmap_2. }
  split; try done.
  - intros j Hj. destruct (decide (j = Heap.idx el)) as [->|Hne].
    + rewrite His. split_and!; try done. by apply Hin.
    + rewrite Hb by lia. by apply Hin.
  - intros j Hj. rewrite Hb by lia. by apply Hfresh.
  - destruct Hcase as [(x & Hr & Hq & Hc)|(Hr & Hr' & Hq)].
    + rewrite Hq. simpl. by apply NoDup_cons.
    + by rewrite Hq.
  - intros el' Hel'.
    destruct Hcase as [(x & Hr & Hq & Hc)|(Hr & Hr' & Hq)].
    + rewrite Hq in Hel'. apply elem_of_cons in Hel' as [->|Hel']; [done|].
      apply Hlt. by apply Hsub.
    + rewrite Hq in Hel'. apply Hlt. by apply Hsub.
  - intros el' Hel'.
    destruct Hcase as [(x & Hr & Hq & Hc)|(Hr & Hr' & Hq)].
    + rewrite Hq in Hel'. apply elem_of_cons in Hel' as [->|Hel']; [done|].
      rewrite Hb; [by apply Hld, Hsub|by apply Hneq|].
      specialize (Hlt el' (Hsub _ Hel')). lia.
    + rewrite Hq in Hel'.
      rewrite Hb; [by apply Hld, Hsub|by apply Hneq|].
      specialize (Hlt el' (Hsub _ Hel')). lia.
  - intros j Hj Hnj.
    destruct (decide (j = Heap.idx el)) as [->|Hne].
    + destruct Hcase as [(x & Hr & Hq & Hc)|(Hr & Hr' & Hq)]; [|done].
      exfalso. apply Hnj. rewrite Hq. simpl. left.
    + rewrite Hrest by done.
      apply Hdone; [done|]. intros Hjin. apply Hnj.
      unfold queued in Hjin. rewrite <-Hperm in Hjin. simpl in Hjin.
      apply elem_of_cons in Hjin as [?|Hjin]; [done|].
      destruct Hcase as [(x & Hr & Hq & Hc)|(Hr & Hr' & Hq)];
        rewrite Hq; [by right|done].
Qed.

Lemma turn_effect_rests m st st' el q :
  merge_wf m m st →
  Heap.heap_pop (st_queue st) = Some (el, q) →
  turn_effect m st st' el q →
  rests m st' = <[Heap.idx el := rest st' (Heap.idx el)]> (rests m st).
Proof.
  intros Hwf Hpop Heff.
  destruct (turn_effect_queued _ _ _ _ _ Hwf Hpop Heff)
    as (_ & _ & _ & _ & _ & _ & Hi & _).
  apply rests_insert; [done|]. intros j Hj Hne.
  eapply turn_effect_rest; [|done..]. by destruct Hwf as [[] ].
Qed.

Lemma turn_effect_items m st st' el q :
  merge_wf m m st →
  Heap.heap_pop (st_queue st) = Some (el, q) →
  turn_effect m st st' el q →
  merge_items m st' ≡ₚ merge_items m st.
Proof.
  intros Hwf Hpop Heff.
  destruct (turn_effect_queued _ _ _ _ _ Hwf Hpop Heff)
    as (_ & _ & Hperm & _ & _ & _ & Hi & _ & _ & Hcase).
  pose proof (turn_effect_rests _ _ _ _ _ Hwf Hpop Heff) as Hrs.
  destruct Heff as (_ & _ & Hem & _).
  unfold merge_items. rewrite Hem, Hrs, <-Hperm. simpl.
  destruct Hcase as [(x & Hr & Hq & Hc)|(Hr & Hr' & Hq)].
  - rewrite Hq. simpl.
    rewrite (concat_insert_cons (rests m st) (Heap.idx el) x
               (rest st' (Heap.idx el))).
    2:{ rewrite rests_lookup by done. by rewrite Hr. }
    rewrite <-!app_assoc. simpl.
    apply Permutation_app_head.
    rewrite <-!Permutation_middle. done.
  - rewrite Hq.
    rewrite list_insert_id by (rewrite rests_lookup by done; congruence).
    rewrite <-!app_assoc. done.
Qed.

Lemma turn_effect_sorted m st st' el q :
  merge_wf m m st →
  Heap.heap_pop (st_queue st) = Some (el, q) →
  turn_effect m st st' el q →
  merge_sorted m st → merge_sorted m st'.
Proof.
  intros Hwf Hpop Heff [Hse Hsb Hsr Hsh].
  destruct (turn_effect_queued _ _ _ _ _ Hwf Hpop Heff)
    as (_ & _ & Hperm & Hmin & Hni & _ & Hi & _ & _ & Hcase).
  pose proof (λ j, turn_effect_rest m st st' el q j
                     (proj2 (wf_m _ _ _ Hwf)) Heff) as Hrest.
  destruct Heff as (_ & _ & Hem & _).
  assert (el ∈ queued st) as Hel by (rewrite <-Hperm; left).
  assert (∀ x, x ∈ Heap.elements q → x ∈ queued st) as Hsub.
  { intros x Hx. rewrite <-Hperm. by right. }
  assert (∀ x, x ∈ Heap.elements q → Heap.idx x ≠ Heap.idx el) as Hneq.
  { intros x Hx Heq. apply Hni. rewrite <-Heq.
    by apply list_elem_of_fmap_2. }
  assert (∀ y, y ∈ rest st (Heap.idx el) → Heap.key el ≤ y) as Hhd.
  { intros y Hy. by apply Hsh. }
  assert (∀ el', el' ∈ queued st' → Heap.key el ≤ Heap.key el') as Hnew.
  { intros el' Hel'.
    destruct Hcase as [(x & Hr & Hq & Hc)|(Hr & Hr' & Hq)]; rewrite Hq in Hel'.
    - apply elem_of_cons in Hel' as [->|Hel']; simpl.
      + apply Hhd. rewrite Hr. left.
      + by apply Hmin, Hsub.
    - by apply Hmin, Hsub. }
  split.
  - rewrite Hem. apply StronglySorted_snoc; [done|].
    intros y Hy. by apply Hsb.
  - intros x el' Hx Hel'. rewrite Hem in Hx.
    apply elem_of_app in Hx as [Hx|Hx].
    + etrans; [by apply (Hsb x el)|by apply Hnew].
    + apply list_elem_of_singleton in Hx as ->. by apply Hnew.
  - intros j Hj. destruct (decide (j = Heap.idx el)) as [->|Hne].
    + destruct Hcase as [(x & Hr & Hq & Hc)|(Hr & Hr' & Hq)].
      * specialize (Hsr _ Hi). rewrite Hr in Hsr.
        by apply StronglySorted_inv in Hsr as [? _].
      * rewrite Hr'. constructor.
    + rewrite Hrest by done. by apply Hsr.
  - intros el' y Hel' Hy.
    destruct Hcase as [(x & Hr & Hq & Hc)|(Hr & Hr' & Hq)]; rewrite Hq in Hel'.
    + apply elem_of_cons in Hel' as [->|Hel']; simpl in *.
      * specialize (Hsr _ Hi). rewrite Hr in Hsr.
        apply StronglySorted_inv in Hsr as [_ Hall].
        rewrite Forall_forall in Hall. by apply Hall.
      * rewrite Hrest in Hy; [by apply Hsh; [apply Hsub|]| |by apply Hneq].
        pose proof (wf_idx_lt _ _ _ Hwf _ (Hsub _ Hel')). lia.
    + rewrite Hrest in Hy; [by apply Hsh; [apply Hsub|]| |by apply Hneq].
      pose proof (wf_idx_lt _ _ _ Hwf _ (Hsub _ Hel')). lia.
Qed.

Lemma heap_empty_false obj :
  Heap.heap_empty obj = false ↔ (0 < Heap.count obj)%nat.
Proof.
  unfold Heap.heap_empty. rewrite bool_decide_eq_false. lia.
Qed.

Lemma heap_empty_true obj :
  Heap.heap_empty obj = true ↔ Heap.count obj = 0%nat.
Proof. unfold Heap.heap_empty. by rewrite bool_decide_eq_true. Qed.

Lemma turn_spec e m st :
  merge_wf m m st → Heap.heap_empty (st_queue st) = false →
  ∃ el q ok st',
    Heap.heap_pop (st_queue st) = Some (el, q) ∧
    kmerge_merge_blocks_turn e st = Ok (ok, st') ∧
    (fwrite_short e (st_clock st) = None → ok = true) ∧
    (st_clock st ≤ st_clock st')%nat ∧
    (ok = true → turn_effect m st st' el q ∧ S (pending st') = pending st).
Proof.
  intros Hwf Hne. apply heap_empty_false in Hne.
  pose proof (heap_pop_Some _ Hne) as Hpop.
  set (el := Heap.arr (st_queue st) !!! 0%nat) in *.
  set (q := Heap.heap_heapify_min _ _) in *.
  exists el, q.
  destruct (heap_pop_wf _ _ _ (proj1 (wf_heap _ _ _ Hwf)) Hpop)
    as (Hqwf & Hqcap & Hqcnt & _ & Hperm).
  assert (el ∈ queued st) as Hel by (unfold queued; rewrite <-Hperm; left).
  pose proof (wf_idx_lt _ _ _ Hwf _ Hel) as Hi.
  pose proof (wf_loaded _ _ _ Hwf _ Hel) as Hld.
  destruct Hwf as [Hm Hbl Hfl Hheap Hcap Hin Hout Hfresh Hnd Hlt _ Hdone].
  unfold kmerge_merge_blocks_turn. rewrite Hpop. cbn [asserted mbind result_bind].
  set (st0 := {| st_queue := q; st_blocks := st_blocks st;
                 st_fs := st_fs st; st_fout := st_fout st;
                 st_clock := st_clock st |}).
  destruct (emit_out e st0 (Heap.key el)) as [ok st1] eqn:He.
  apply emit_out_spec in He as (Hq1 & Hfs1 & Hc1 & Hbl1 & Hb1 & Hok & Hres);
    [|done|apply Hout|apply Hout].
  cbn [st_queue st_blocks st_fs st_fout st_clock st0] in *.
  destruct ok; cbn [negb].
  2:{ eexists _, _. split_and!; try done. }
  destruct (Hres eq_refl) as (Hem1 & Hop1 & Hos1).
  destruct (Hin (Heap.idx el) ltac:(lia)) as (Hic & Hip & His).
  assert (Heap.count (st_queue st1) < Heap.capacity (st_queue st1))%nat
    as Hcapq.
  { rewrite Hq1, Hqcap. destruct Hheap as [[_ ?] _]. lia. }
  assert (length (st_fs st1) = m) as Hfl1 by (by rewrite Hfs1).
  destruct (queue_next_spec m st1 (Heap.idx el))
    as (st' & -> & Hfo' & Hcl' & Hbl' & Hfl' & Hb' & Hf' & Hic' & Hip' & His'
        & Hpe & Hcase); rewrite ?Hb1 by lia; try done; try lia.
  cbn [mbind result_bind].
  eexists _, _. split_and!; try done; try lia.
  intros _.
  assert (rest st1 (Heap.idx el) = rest st (Heap.idx el)) as Hr1.
  { apply rest_eq; [rewrite Hb1 by lia; done|by rewrite Hfs1]. }
  split.
  - unfold turn_effect.
    split_and!; try done.
    + rewrite (emitted_eq st1 st'); [|done|apply Hb'; lia].
      rewrite Hem1. unfold emitted. done.
    + rewrite Hb' by lia. done.
    + rewrite Hb' by lia. done.
    + intros j Hj1 Hj2. rewrite Hb', Hb1 by done. done.
    + intros j Hj. rewrite Hf', Hfs1 by done. done.
    + rewrite His', Hb1 by lia. done.
    + rewrite <-Hr1, <-Hq1. done.
  - rewrite Hpe.
    assert (pending st1 = pending st0) as ->.
    { apply pending_eq; try done. by rewrite Hq1. by rewrite Hbl1. }
    unfold pending. cbn [st_queue st_blocks st_fs st0]. lia.
Qed.

(** ** The merge loop *)

Lemma merge_reaches_trans e st0 st1 st2 :
  merge_reaches e st0 st1 → merge_reaches e st1 st2 → merge_reaches e st0 st2.
Proof.
  intros H01 H12. induction H12; [done|]. by eapply reaches_turn.
Qed.

Lemma loop_spec e m fuel st :
  merge_wf m m st → (pending st < fuel)%nat →
  ∃ ok st',
    kmerge_merge_blocks_loop e fuel st = Ok (ok, st') ∧
    ((∀ t, fwrite_short e t = None) → ok = true) ∧
    (st_clock st ≤ st_clock st')%nat ∧
    (ok = true →
       merge_wf m m st' ∧ Heap.count (st_queue st') = 0%nat ∧
       merge_items m st' ≡ₚ merge_items m st ∧
       (merge_sorted m st → merge_sorted m st') ∧
       merge_reaches e st st').
Proof.
  revert st. induction fuel as [|fuel IH]; intros st Hwf Hfuel; [lia|].
  cbn [kmerge_merge_blocks_loop].
  destruct (Heap.heap_empty (st_queue st)) eqn:Hemp.
  { apply heap_empty_true in Hemp. eexists _, _. split_and!; try done.
    intros _. split_and!; try done. constructor. }
  destruct (turn_spec e m st Hwf Hemp)
    as (el & q & ok & st1 & Hpop & Hturn & Hok & Hcl & Hres).
  rewrite Hturn. cbn [mbind result_bind].
  destruct ok; cbn [negb].
  2:{ eexists _, _. split_and!; try done.
      intros Hnf. by apply Hok. }
  destruct (Hres eq_refl) as [Heff Hpe].
  pose proof (turn_effect_wf _ _ _ _ _ Hwf Hpop Heff) as Hwf1.
  destruct (IH st1 Hwf1 ltac:(lia)) as (ok & st' & -> & Hok' & Hcl' & Hres').
  eexists _, _. split_and!; try done; [lia|].
  intros ->. destruct (Hres' eq_refl) as (Hwf' & Hcnt & Hit & Hso & Hre).
  split_and!; try done.
  - rewrite Hit. by apply (turn_effect_items m st st1 el q).
  - intros Hs. apply Hso. by apply (turn_effect_sorted m st st1 el q).
  - eapply merge_reaches_trans; [|done].
    eapply reaches_turn; [constructor|done|done].
Qed.

Lemma merge_items_done m st :
  merge_wf m m st → Heap.count (st_queue st) = 0%nat →
  merge_items m st = emitted st.
Proof.
  intros Hwf Hcnt. unfold merge_items.
  assert (queued st = []) as Hq.
  { unfold queued, Heap.elements. by rewrite Hcnt, take_0. }
  rewrite Hq. simpl.
  assert (concat (rests m st) = []) as ->; [|by rewrite app_nil_r].
  assert (Forall (λ r, r = []) (rests m st)) as Hall.
  { apply Forall_lookup. intros i r Hi.
    assert (i < m)%nat as Him.
    { apply lookup_lt_Some in Hi. by rewrite rests_length in Hi. }
    rewrite rests_lookup in Hi by done. injection Hi as <-.
    apply (wf_done _ _ _ Hwf); [done|]. rewrite Hq. set_solver. }
  induction Hall as [|r rs -> _ IH]; [done|]. done.
Qed.

Lemma merge_blocks_spec e m st :
  merge_wf m m st →
  ∃ ok st',
    kmerge_merge_blocks e st = Ok (ok, st') ∧
    ((∀ t, fwrite_short e t = None) → ok = true) ∧
    (st_clock st ≤ st_clock st')%nat ∧
    (ok = true →
       st_fout st' ≡ₚ merge_items m st ∧
       (merge_sorted m st → StronglySorted Z.le (st_fout st')) ∧
       Heap.heap_inv (st_queue st') ∧
       Heap.capacity (st_queue st') = NMERGE ∧
       Heap.count (st_queue st') = 0%nat).
Proof.
  intros Hwf. unfold kmerge_merge_blocks.
  destruct (loop_spec e m (S (pending st)) st Hwf ltac:(lia))
    as (ok & st1 & -> & Hok & Hcl & Hres).
  cbn [mbind result_bind]. destruct ok; cbn [negb].
  2:{ eexists _, _. split_and!; try done. }
  destruct (Hres eq_refl) as (Hwf1 & Hcnt & Hit & Hso & _).
  pose proof (merge_items_done _ _ Hwf1 Hcnt) as Hdone.
  destruct (wf_out _ _ _ Hwf1) as [Hop Hos].
  case_bool_decide as Hpos.
  - destruct (flush_out e st1) as [ok st2] eqn:Hfl.
    apply flush_out_spec in Hfl
      as (Hq & Hfs & Hc2 & Hl2 & Hb2 & Hs2 & Hok2 & Hres2);
      [|by destruct Hwf1|done].
    eexists _, _. split_and!; try done.
    + intros Hnf. by apply Hok2.
    + lia.
    + intros ->. destruct (Hres2 eq_refl) as (Hfo & _).
      rewrite Hfo, Hq, <-Hdone.
      split_and!; try done.
      * intros Hs. rewrite Hdone. by apply Hso.
      * by destruct Hwf1.
      * by destruct Hwf1.
  - eexists _, _. split_and!; try done.
    intros _.
    assert (st_fout st1 = emitted st1) as Hfo.
    { unfold emitted.
      destruct (buf (st_blocks st1 !!! NMERGE)); [by rewrite app_nil_r|].
      simpl in Hop. lia. }
    rewrite Hfo, <-Hdone.
    split_and!; try done.
    * intros Hs. rewrite Hdone. by apply Hso.
    * by destruct Hwf1.
    * by destruct Hwf1.
Qed.

(** ** Priming the queue *)

Lemma queued_count st :
  Heap.heap_wf (st_queue st) → length (queued st) = Heap.count (st_queue st).
Proof.
  intros [Hlen Hcnt]. unfold queued, Heap.elements.
  rewrite length_take. lia.
Qed.

Lemma merge_wf_count k m st :
  merge_wf k m st → (Heap.count (st_queue st) ≤ k)%nat.
Proof.
  intros Hwf. rewrite <-queued_count by apply Hwf.
  rewrite <-(length_fmap Heap.idx).
  apply NoDup_bounded_length; [apply Hwf|].
  intros i Hi. apply list_elem_of_fmap in Hi as (el & -> & Hel).
  by apply (wf_idx_lt _ _ _ Hwf).
Qed.

Lemma prime_step_spec k m st bs :
  merge_wf k m st → (k < m)%nat → st_fs st !!! k ≠ [] → (0 < bs)%nat →
  emitted st = [] →
  ∃ st',
    push_next (load_block st k bs) k = Ok st' ∧
    merge_wf (S k) m st' ∧
    merge_items m st' ≡ₚ merge_items m st ∧
    (merge_sorted m st → merge_sorted m st') ∧
    emitted st' = [] ∧
    st_fout st' = st_fout st ∧ st_clock st' = st_clock st ∧
    (∀ j, j ≠ k → st_fs st' !!! j = st_fs st !!! j).
Proof.
  intros Hwf Hk Hne Hbs Hnil.
  pose proof (merge_wf_count _ _ _ Hwf) as Hcount.
  destruct Hwf as [Hm Hbl Hfl Hheap Hcap Hin Hout Hfresh Hnd Hlt Hld Hdone].
  set (f := st_fs st !!! k) in *.
  set (st1 := load_block st k bs).
  set (b := st_blocks st !!! k).
  assert (st_blocks st1 !!! k =
          {| buf := take bs f; size := size b;
             count := length (take bs f); pos := 0 |}) as Hb1.
  { unfold st1. rewrite load_block_blocks.
    apply list_lookup_total_insert_eq. lia. }
  assert (st_fs st1 !!! k = drop bs f) as Hf1.
  { unfold st1. rewrite load_block_fs.
    apply list_lookup_total_insert_eq. lia. }
  assert (length (st_blocks st1) = S NMERGE) as Hl1.
  { unfold st1. by rewrite load_block_blocks, length_insert. }
  assert (0 < length (take bs f))%nat as Hlen.
  { destruct f; [done|]. destruct bs; [lia|]. simpl. lia. }
  destruct (push_next_spec st1 k)
    as (st' & x & -> & Hx & Hins & Hb' & Hfs & Hfo & Hcl);
    [by rewrite Hb1|change (st_queue st1) with (st_queue st); lia|].
  rewrite Hb1 in Hx, Hb'. cbn [buf size count pos] in Hx, Hb'.
  change (st_queue st1) with (st_queue st) in Hins.
  exists st'. split; [done|].
  assert (st_blocks st' !!! k =
          {| buf := take bs f; size := size b;
             count := length (take bs f); pos := 1 |}) as Hbk.
  { rewrite Hb'. apply list_lookup_total_insert_eq. lia. }
  assert (∀ j, j ≠ k → st_blocks st' !!! j = st_blocks st !!! j) as Hbj.
  { intros j Hj. rewrite Hb'. unfold st1. rewrite load_block_blocks.
    by rewrite !list_lookup_total_insert_ne. }
  assert (∀ j, j ≠ k → st_fs st' !!! j = st_fs st !!! j) as Hfj.
  { intros j Hj. rewrite Hfs. unfold st1. rewrite load_block_fs.
    by rewrite !list_lookup_total_insert_ne. }
  assert (∀ j, j ≠ k → rest st' j = rest st j) as Hrj.
  { intros j Hj. apply rest_eq; [by apply Hbj|by apply Hfj]. }
  assert (rest st k = x :: rest st' k) as Hrk.
  { unfold rest. rewrite (Hfresh k) by lia. fold f.
    rewrite drop_nil. simpl. rewrite Hbk, Hfs, Hf1.
    cbn [buf size count pos].
    rewrite <-(take_drop bs f) at 1.
    destruct (take bs f) as [|y l]; simplify_eq/=. by rewrite drop_0. }
  destruct (heap_insert_wf _ _ _ (proj1 Hheap) Hins)
    as (Hwf' & Hcap' & Hcnt' & Hperm).
  pose proof (heap_insert_ordered _ _ _ Hheap Hins) as Hord'.
  assert (emitted st' = emitted st) as Hem.
  { apply emitted_eq; [by rewrite Hfo|apply Hbj; lia]. }
  assert (rests m st' = <[k := rest st' k]> (rests m st)) as Hrs.
  { apply rests_insert; [done|]. intros j _ Hj. by apply Hrj. }
  assert (k ∉ (Heap.idx <$> queued st)) as Hkq.
  { intros Hin'. apply list_elem_of_fmap in Hin' as (el & Heq & Hel).
    specialize (Hlt _ Hel). lia. }
  split_and!; try done; [| | |congruence].
  - split; try done.
    + lia.
    + by rewrite Hb', length_insert.
    + rewrite Hfs. unfold st1. by rewrite load_block_fs, length_insert.
    + congruence.
    + intros j Hj. destruct (decide (j = k)) as [->|Hjk].
      * rewrite Hbk. cbn [buf size count pos].
        split_and!; [done|lia|]. by apply (Hin k).
      * rewrite Hbj by done. by apply Hin.
    + rewrite Hbj by lia. done.
    + intros j Hj. rewrite Hbj by lia. apply Hfresh. lia.
    + unfold queued. rewrite Hperm. simpl. by apply NoDup_cons.
    + intros el Hel. unfold queued in Hel. rewrite Hperm in Hel.
      apply elem_of_cons in Hel as [->|Hel]; simpl; [lia|].
      specialize (Hlt _ Hel). lia.
    + intros el Hel. unfold queued in Hel. rewrite Hperm in Hel.
      apply elem_of_cons in Hel as [->|Hel]; simpl.
      * rewrite Hbk. cbn [buf size count pos]. done.
      * specialize (Hlt _ Hel). rewrite Hbj by lia. by apply Hld.
    + intros j Hj Hnj. unfold queued in Hnj. rewrite Hperm in Hnj.
      simpl in Hnj. apply not_elem_of_cons in Hnj as [Hjk Hnj].
      rewrite Hrj by done. apply Hdone; [lia|done].
  - unfold merge_items. rewrite Hem, Hrs. unfold queued at 1.
    rewrite Hperm. simpl.
    rewrite (concat_insert_cons (rests m st) k x (rest st' k)).
    2:{ rewrite rests_lookup by done. by rewrite Hrk. }
    apply Permutation_app_head. fold (queued st).
    by rewrite <-Permutation_middle.
  - intros [Hse Hsb Hsr Hsh]. split.
    + by rewrite Hem.
    + intros y el Hy Hel. rewrite Hem in Hy.
      unfold queued in Hel. rewrite Hperm in Hel.
      apply elem_of_cons in Hel as [->|Hel]; simpl.
      * rewrite Hnil in Hy. by apply elem_of_nil in Hy.
      * by apply Hsb.
    + intros j Hj. destruct (decide (j = k)) as [->|Hjk].
      * specialize (Hsr k Hk). rewrite Hrk in Hsr.
        by apply StronglySorted_inv in Hsr as [? _].
      * rewrite Hrj by done. by apply Hsr.
    + intros el y Hel Hy. unfold queued in Hel. rewrite Hperm in Hel.
      apply elem_of_cons in Hel as [->|Hel]; simpl in *.
      * specialize (Hsr k Hk). rewrite Hrk in Hsr.
        apply StronglySorted_inv in Hsr as [_ Hall].
        rewrite Forall_forall in Hall. by apply Hall.
      * specialize (Hlt _ Hel). rewrite Hrj in Hy by lia. by apply Hsh.
Qed.

Lemma prime_spec n k m st bs :
  merge_wf k m st → (k + n = m)%nat →
  (∀ j, (k ≤ j < m)%nat → st_fs st !!! j ≠ []) → (0 < bs)%nat →
  emitted st = [] →
  ∃ st',
    prime_blocks n st bs k = Ok st' ∧
    merge_wf m m st' ∧
    merge_items m st' ≡ₚ merge_items m st ∧
    (merge_sorted m st → merge_sorted m st') ∧
    emitted st' = [] ∧
    st_fout st' = st_fout st ∧ st_clock st' = st_clock st.
Proof.
  revert k st. induction n as [|n IH]; intros k st Hwf Hkn Hne Hbs Hnil.
  { assert (m = k) as -> by lia. exists st. by split_and!. }
  cbn [prime_blocks].
  destruct (prime_step_spec k m st bs Hwf ltac:(lia) (Hne k ltac:(lia)) Hbs Hnil)
    as (st1 & -> & Hwf1 & Hit1 & Hso1 & Hnil1 & Hfo1 & Hcl1 & Hfs1).
  cbn [mbind result_bind].
  destruct (IH (S k) st1 Hwf1 ltac:(lia)) as
    (st' & -> & Hwf' & Hit' & Hso' & Hnil' & Hfo' & Hcl'); try done.
  { intros j Hj. rewrite Hfs1 by lia. apply Hne. lia. }
  exists st'. split_and!; try done; try congruence.
  - by rewrite Hit'.
  - intros Hs. by apply Hso', Hso1.
Qed.

(** ** Merging one group of files *)

Lemma merge_start_wf q fs bs c :
  (length fs ≤ NMERGE)%nat → (0 < bs)%nat →
  Heap.heap_inv q → Heap.capacity q = NMERGE → Heap.count q = 0%nat →
  let st := {| st_queue := q;
               st_blocks := replicate (NMERGE + 1)
                 {| buf := []; size := bs; count := 0; pos := 0 |};
               st_fs := fs; st_fout := []; st_clock := c |} in
  merge_wf 0 (length fs) st ∧ emitted st = [] ∧
  merge_items (length fs) st = concat fs ∧
  (Forall (StronglySorted Z.le) fs → merge_sorted (length fs) st).
Proof.
  intros Hm Hbs Hinv Hcap Hcnt st.
  assert (∀ i, (i < S NMERGE)%nat →
            st_blocks st !!! i
            = {| buf := []; size := bs; count := 0; pos := 0 |}) as Hb.
  { intros i Hi. unfold st; cbn [st_blocks].
    apply list_lookup_total_correct, lookup_replicate_2. lia. }
  assert (queued st = []) as Hq.
  { unfold queued, Heap.elements. cbn [st_queue st]. by rewrite Hcnt. }
  assert (emitted st = []) as Hem.
  { unfold emitted. rewrite Hb by lia. done. }
  assert (∀ i, (i < length fs)%nat → rest st i = fs !!! i) as Hr.
  { intros i Hi. unfold rest. rewrite Hb by lia. done. }
  assert (rests (length fs) st = fs) as Hrs.
  { apply list_eq. intros i.
    destruct (decide (i < length fs)%nat) as [Hi|Hi].
    - rewrite rests_lookup, Hr by done.
      by rewrite list_lookup_lookup_total_lt.
    - rewrite !lookup_ge_None_2; [done|lia|rewrite rests_length; lia]. }
  split_and!; try done.
  - split; try done.
    + lia.
    + intros i Hi. rewrite Hb by lia. cbn [buf size count pos].
      by split_and!.
    + intros i Hi. rewrite Hb by lia. done.
    + rewrite Hq. constructor.
    + intros el Hel. rewrite Hq in Hel. by apply elem_of_nil in Hel.
    + intros el Hel. rewrite Hq in Hel. by apply elem_of_nil in Hel.
    + intros i Hi. lia.
  - unfold merge_items. by rewrite Hem, Hq, Hrs.
  - intros Hs. split.
    + rewrite Hem. constructor.
    + intros x el Hx. rewrite Hem in Hx. by apply elem_of_nil in Hx.
    + intros i Hi. rewrite Hr by done.
      rewrite Forall_lookup in Hs. apply (Hs i).
      by apply list_lookup_lookup_total_lt.
    + intros el y Hel. rewrite Hq in Hel. by apply elem_of_nil in Hel.
Qed.

Lemma merge_files_spec e obj fs stage outn w :
  (length fs ≤ NMERGE)%nat → Forall (λ f, f ≠ []) fs →
  (NMERGE < buf_nmemb obj)%nat →
  Heap.heap_inv (queue obj) → Heap.capacity (queue obj) = NMERGE →
  Heap.count (queue obj) = 0%nat →
  ∃ ret obj' out w',
    kmerge_merge_files e obj fs stage outn w = Ok (ret, obj', w') ∧
    ((∀ t, fwrite_short e t = None) → ret = true) ∧
    input w' = input w ∧ (clock w ≤ clock w')%nat ∧
    tmp w' = <[(S stage, outn) := out]> (tmp w) ∧
    fcount obj' = fcount obj ∧ buf_nmemb obj' = buf_nmemb obj ∧
    (ret = true →
       out ≡ₚ concat fs ∧
       (Forall (StronglySorted Z.le) fs → StronglySorted Z.le out) ∧
       Heap.heap_inv (queue obj') ∧ Heap.capacity (queue obj') = NMERGE ∧
       Heap.count (queue obj') = 0%nat).
Proof.
  intros Hm Hne Hbuf Hinv Hcap Hcnt. unfold kmerge_merge_files.
  set (bs := (buf_nmemb obj / (NMERGE + 1))%nat).
  assert (0 < bs)%nat as Hbs.
  { unfold bs. apply Nat.div_str_pos. unfold NMERGE in *. lia. }
  destruct (merge_start_wf (queue obj) fs bs (clock w) Hm Hbs Hinv Hcap Hcnt)
    as (Hwf0 & Hem0 & Hit0 & Hso0).
  set (st0 := {| st_queue := queue obj |}) in *.
  destruct (prime_spec (length fs) 0 (length fs) st0 bs Hwf0)
    as (st1 & -> & Hwf1 & Hit1 & Hso1 & Hem1 & Hfo1 & Hcl1); try done.
  { intros j Hj. cbn [st_fs st0]. rewrite Forall_lookup in Hne.
    apply (Hne j). apply list_lookup_lookup_total_lt. lia. }
  cbn [mbind result_bind].
  destruct (merge_blocks_spec e (length fs) st1 Hwf1)
    as (ret & st2 & -> & Hok & Hcl2 & Hres).
  cbn [mbind result_bind].
  eexists _, _, _, _. split; [done|].
  cbn [input tmp clock fcount buf_nmemb queue set_queue].
  split_and!; try done.
  - rewrite Hcl1 in Hcl2. done.
  - intros ->. destruct (Hres eq_refl) as (Hperm & Hsorted & Hq).
    split_and!; try done.
    + by rewrite Hperm, Hit1, Hit0.
    + intros Hs. by apply Hsorted, Hso1, Hso0.
    + apply Hq.
    + apply Hq.
    + apply Hq.
Qed.

End merge_facts.

Section stage_facts.
Import Kmerge.

Implicit Types (e : env) (w : world) (obj : merge).

(** ** Copying one file *)

Lemma copy_loop_spec e n fuel from to t :
  (length from < fuel)%nat → (0 < n)%nat →
  ∃ ret to' t',
    kmerge_copy_loop e fuel n from to t = Ok (ret, to', t') ∧
    (no_short_fwrite e → ret = true) ∧
    (ret = true → to' = to ++ from) ∧ (t ≤ t')%nat.
Proof.
  intros Hfuel Hn. revert from to t Hfuel.
  induction fuel as [|fuel IH]; intros from to t Hfuel; [lia|].
  cbn [kmerge_copy_loop]. unfold fread.
  case_bool_decide as Hlen.
  { assert (from = []) as ->.
    { destruct from; [done|]. destruct n; [lia|]. simpl in Hlen. lia. }
    eexists _, _, _. split_and!; try done. intros _. by rewrite app_nil_r. }
  unfold fwrite.
  set (k := match fwrite_short e t with
            | Some k => (k `min` length (take n from))%nat
            | None => length (take n from)
            end).
  case_bool_decide as Hk.
  { eexists _, _, _. split_and!; try done; [|lia].
    intros Hnf. unfold k in Hk. rewrite Hnf in Hk. done. }
  destruct (IH (drop n from) (to ++ take k (take n from)) (S t))
    as (ret & to' & t' & -> & Hok & Hres & Ht).
  { rewrite length_drop.
    destruct from; [by rewrite take_nil in Hlen|]. simpl in Hfuel. simpl. lia. }
  eexists _, _, _. split_and!; try done; [|lia].
  intros ->. rewrite (Hres eq_refl), Hk.
  rewrite take_ge by lia. by rewrite <-app_assoc, take_drop.
Qed.

Lemma kmerge_copy_spec e obj from t :
  (0 < buf_nmemb obj)%nat →
  ∃ ret to' t',
    kmerge_copy e obj from [] t = Ok (ret, to', t') ∧
    (no_short_fwrite e → ret = true) ∧
    (ret = true → to' = from) ∧ (t ≤ t')%nat.
Proof.
  intros Hn. unfold kmerge_copy.
  destruct (copy_loop_spec e (buf_nmemb obj) (S (length from)) from [] t)
    as (ret & to' & t' & -> & Hok & Hres & Ht); [lia|done|].
  by eexists _, _, _.
Qed.

(** ** One merge stage *)

Lemma nonempty_concat (fl : list (list Z)) (out : list Z) :
  nonempty_files fl → fl ≠ [] → out ≡ₚ concat fl → out ≠ [].
Proof.
  intros Hne Hfl Hperm ->. apply Permutation_nil_l in Hperm.
  destruct fl as [|f fl]; [done|].
  apply Forall_cons in Hne as [Hf _]. simpl in Hperm.
  by destruct f.
Qed.

Lemma stage_loop_spec e s rem : ∀ i fs obj w outs,
  (∀ k f, rem !! k = Some f → tmp w !! (s, i + k)%nat = Some f) →
  (length fs < NMERGE)%nat → i = (NMERGE * length outs + length fs)%nat →
  stage_files w (S s) outs →
  nonempty_files rem → nonempty_files fs →
  idle_queue obj → (NMERGE < buf_nmemb obj)%nat →
  ∃ ret fs' obj' w',
    kmerge_merge_stage_loop e (length rem) obj s i fs w
      = Ok (ret, fs', obj', w') ∧
    (no_short_fwrite e → ret = true) ∧
    input w' = input w ∧ (clock w ≤ clock w')%nat ∧
    fcount obj' = fcount obj ∧ buf_nmemb obj' = buf_nmemb obj ∧
    (∀ s' k, s' ≠ S s → tmp w' !! (s', k) = tmp w !! (s', k)) ∧
    (ret = true → ∃ outs',
       stage_files w' (S s) (outs ++ outs') ∧
       (∀ k, (length (outs ++ outs') ≤ k)%nat →
             tmp w' !! (S s, k) = tmp w !! (S s, k)) ∧
       (length fs' < NMERGE)%nat ∧
       (i + length rem = NMERGE * length (outs ++ outs') + length fs')%nat ∧
       concat outs' ++ concat fs' ≡ₚ concat fs ++ concat rem ∧
       nonempty_files outs' ∧ nonempty_files fs' ∧
       (sorted_files fs → sorted_files rem →
        sorted_files outs' ∧ sorted_files fs') ∧
       idle_queue obj').
Proof.
  induction rem as [|f rem IH];
    intros i fs obj w outs Hopen Hfs Hi Houts Hrem Hne Hidle Hbuf.
  { cbn [length kmerge_merge_stage_loop].
    eexists _, _, _, _. split_and!; try done.
    intros _. exists []. rewrite !app_nil_r.
    split_and!; try done; try lia; try constructor. }
  cbn [length kmerge_merge_stage_loop]. unfold xfopen_tmp.
  pose proof (Hopen 0%nat f eq_refl) as Hf0.
  rewrite Nat.add_0_r in Hf0. rewrite Hf0.
  cbn [mbind result_bind].
  apply Forall_cons in Hrem as [Hf Hrem].
  case_bool_decide as Hfull.
  - (* the group is complete: merge it *)
    rewrite length_app in Hfull. cbn [length] in Hfull.
    assert ((i / NMERGE)%nat = length outs) as Hout.
    { subst i. replace (length fs) with (NMERGE - 1)%nat by lia.
      unfold NMERGE. rewrite Nat.mul_comm, Nat.div_add_l by lia.
      simpl. lia. }
    rewrite Hout.
    destruct Hidle as (Hqi & Hqc & Hqn).
    destruct (merge_files_spec e obj (fs ++ [f]) s (length outs) w)
      as (ret & obj1 & out & w1 & -> & Hok & Hin1 & Hcl1 & Htmp1 & Hfc1 & Hbn1
          & Hres1); try done.
    { rewrite length_app. simpl. lia. }
    { apply Forall_app. split; [done|]. by constructor. }
    cbn [mbind result_bind]. destruct ret; cbn [negb].
    2:{ eexists _, _, _, _. split_and!; try done.
        intros s' k Hs'. rewrite Htmp1. apply lookup_insert_ne. intros [=]; lia. }
    destruct (Hres1 eq_refl) as (Hperm & Hsorted & Hq1).
    assert (out ≠ []) as Hout_ne.
    { eapply (nonempty_concat (fs ++ [f])); [|by destruct fs|done].
      apply Forall_app. split; [done|]. by constructor. }
    destruct (IH (S i) [] obj1 w1 (outs ++ [out]))
      as (ret & fs' & obj' & w' & -> & Hok' & Hin' & Hcl' & Hfc' & Hbn' & Hlow'
          & Hres'); try done.
    { intros k g Hk. rewrite Htmp1.
      rewrite lookup_insert_ne by (intros [=]; lia).
      replace (S i + k)%nat with (i + S k)%nat by lia. by apply Hopen. }
    { simpl. unfold NMERGE. lia. }
    { rewrite length_app. simpl. unfold NMERGE in *. lia. }
    { intros k Hk. rewrite length_app in Hk. simpl in Hk. rewrite Htmp1.
      destruct (decide (k = length outs)) as [->|Hne'].
      - rewrite lookup_insert_eq.
        by rewrite lookup_app_r, Nat.sub_diag by lia.
      - rewrite lookup_insert_ne by (intros [=]; lia).
        rewrite lookup_app_l by lia. apply Houts. lia. }
    { constructor. }
    { congruence. }
    eexists _, _, _, _. split_and!; try done; try congruence; try lia.
    + intros s' k Hs'. rewrite Hlow' by done. rewrite Htmp1.
      apply lookup_insert_ne. intros [=]; lia.
    + intros ->. destruct (Hres' eq_refl)
        as (outs' & Hst & Hhigh & Hfs' & Hcnt & Hperm' & Hne1 & Hne2 & Hso
            & Hidle').
      exists (out :: outs'). rewrite <-app_assoc in Hst, Hhigh, Hcnt.
      cbn [app] in Hst, Hhigh, Hcnt. split_and!; try done.
      * intros k Hk. rewrite Hhigh by done. rewrite Htmp1.
        apply lookup_insert_ne. rewrite length_app in Hk. cbn [length] in Hk.
        intros [= ?]. lia.
      * lia.
      * simpl in *. rewrite <-app_assoc, Hperm', Hperm.
        by rewrite concat_app, <-!app_assoc; simpl; rewrite app_nil_r.
      * by constructor.
      * intros Hs1 Hs2. apply Forall_cons in Hs2 as [Hsf Hs2].
        destruct (Hso ltac:(constructor) Hs2) as [Ho1 Ho2].
        split; [|done]. constructor; [|done].
        apply Hsorted. apply Forall_app. split; [done|]. by constructor.
  - (* the group is not complete yet *)
    rewrite length_app in Hfull. cbn [length] in Hfull.
    destruct (IH (S i) (fs ++ [f]) obj w outs)
      as (ret & fs' & obj' & w' & -> & Hok' & Hin' & Hcl' & Hfc' & Hbn' & Hlow'
          & Hres'); try done.
    { intros k g Hk.
      replace (S i + k)%nat with (i + S k)%nat by lia. by apply Hopen. }
    { rewrite length_app. cbn [length]. lia. }
    { rewrite length_app. cbn [length]. lia. }
    { apply Forall_app. split; [done|]. by constructor. }
    eexists _, _, _, _. split_and!; try done.
    intros ->. destruct (Hres' eq_refl)
      as (outs' & Hst & Hhigh & Hfs' & Hcnt & Hperm' & Hne1 & Hne2 & Hso
          & Hidle').
    exists outs'. split_and!; try done.
    + lia.
    + rewrite Hperm', concat_app. simpl.
      by rewrite app_nil_r, <-app_assoc.
    + intros Hs1 Hs2. apply Forall_cons in Hs2 as [Hsf Hs2].
      apply Hso; [|done]. apply Forall_app. split; [done|]. by constructor.
Qed.

Lemma ceil_div_groups a r :
  (r < NMERGE)%nat →
  ceil_div (NMERGE * a + r) NMERGE
  = (a + if bool_decide (r = 0)%nat then 0 else 1)%nat.
Proof.
  intros Hr. unfold ceil_div, NMERGE in *.
  case_bool_decide as Hr0.
  - subst r. symmetry. apply (Nat.div_unique _ _ _ 15); lia.
  - symmetry. apply (Nat.div_unique _ _ _ (r - 1)); lia.
Qed.

Lemma merge_stage_spec e obj s fl w :
  stage_files w s fl → nonempty_files fl →
  idle_queue obj → (NMERGE < buf_nmemb obj)%nat →
  ∃ ret obj' w',
    kmerge_merge_stage e obj s (length fl) w = Ok (ret, obj', w') ∧
    (no_short_fwrite e → ret = true) ∧
    input w' = input w ∧ (clock w ≤ clock w')%nat ∧
    fcount obj' = fcount obj ∧ buf_nmemb obj' = buf_nmemb obj ∧
    (∀ s' k, s' ≠ S s → tmp w' !! (s', k) = tmp w !! (s', k)) ∧
    (ret = true → ∃ fl',
       stage_files w' (S s) fl' ∧
       length fl' = ceil_div (length fl) NMERGE ∧
       (∀ k, (length fl' ≤ k)%nat →
             tmp w' !! (S s, k) = tmp w !! (S s, k)) ∧
       concat fl' ≡ₚ concat fl ∧ nonempty_files fl' ∧
       (sorted_files fl → sorted_files fl') ∧
       idle_queue obj').
Proof.
  intros Hst Hne Hidle Hbuf. unfold kmerge_merge_stage.
  destruct (stage_loop_spec e s fl 0 [] obj w [])
    as (ret & fs & obj1 & w1 & -> & Hok & Hin1 & Hcl1 & Hfc1 & Hbn1 & Hlow1
        & Hres1); try done.
  { intros k f Hk. simpl. rewrite Hst by (by eapply lookup_lt_Some). done. }
  { unfold NMERGE. simpl. lia. }
  { intros k Hk. simpl in Hk. lia. }
  { constructor. }
  cbn [mbind result_bind]. destruct ret; cbn [negb].
  2:{ eexists _, _, _. split_and!; try done. }
  destruct (Hres1 eq_refl)
    as (outs & Hst1 & Hhigh1 & Hfs & Hcnt & Hperm & Hne1 & Hne2 & Hso & Hidle1).
  cbn [app] in *. rewrite Nat.add_0_l in Hcnt.
  assert ((length fl / NMERGE)%nat = length outs) as Hdiv.
  { rewrite Hcnt. unfold NMERGE in *.
    rewrite Nat.mul_comm, Nat.div_add_l by lia.
    rewrite Nat.div_small by lia. lia. }
  rewrite Hdiv.
  case_bool_decide as Hone.
  - (* a single file is left: copy it *)
    destruct fs as [|f [|? ?]]; cbn [length] in Hone; try lia.
    cbn [lookup_total list_lookup_total].
    destruct (kmerge_copy_spec e obj1 f (clock w1))
      as (ret & fout & t & -> & Hok2 & Hres2 & Ht); [lia|].
    cbn [mbind result_bind].
    eexists _, _, _. split_and!; try done; cbn [input tmp clock]; try lia.
    + intros s' k Hs'. rewrite lookup_insert_ne by (intros [=]; lia).
      by apply Hlow1.
    + intros ->. rewrite (Hres2 eq_refl). exists (outs ++ [f]).
      apply Forall_cons in Hne2 as [Hf _].
      split_and!; try done.
      * intros k Hk. rewrite length_app in Hk. cbn [length] in Hk.
        cbn [tmp].
        destruct (decide (k = length outs)) as [->|Hk'].
        -- rewrite lookup_insert_eq.
           by rewrite lookup_app_r, Nat.sub_diag by lia.
        -- rewrite lookup_insert_ne by (intros [=]; lia).
           rewrite lookup_app_l by lia. apply Hst1. lia.
      * rewrite Hcnt, ceil_div_groups by (cbn [length]; unfold NMERGE; lia).
        rewrite length_app. cbn [length]. done.
      * intros k Hk. rewrite length_app in Hk. cbn [length] in Hk.
        cbn [tmp]. rewrite lookup_insert_ne by (intros [=]; lia).
        apply Hhigh1. lia.
      * rewrite concat_app, <-Hperm. simpl. done.
      * apply Forall_app. split; [done|]. by constructor.
      * intros Hs. destruct (Hso ltac:(constructor) Hs) as [Ho1 Ho2].
        apply Forall_app. split; [done|]. done.
  - case_bool_decide as Hzero.
    + (* several files are left: merge them *)
      destruct Hidle1 as (Hqi & Hqc & Hqn).
      destruct (merge_files_spec e obj1 fs s (length outs) w1)
        as (ret & obj2 & out & w2 & -> & Hok2 & Hin2 & Hcl2 & Htmp2 & Hfc2
            & Hbn2 & Hres2); try done; [lia|congruence|].
      eexists _, _, _. split_and!; try done; try congruence; try lia.
      * intros s' k Hs'. rewrite Htmp2.
        rewrite lookup_insert_ne by (intros [=]; lia). by apply Hlow1.
      * intros ->. destruct (Hres2 eq_refl) as (Hperm2 & Hsorted2 & Hq2).
        exists (outs ++ [out]). split_and!; try done.
        -- intros k Hk. rewrite length_app in Hk. cbn [length] in Hk.
           rewrite Htmp2.
           destruct (decide (k = length outs)) as [->|Hk'].
           ++ rewrite lookup_insert_eq.
              by rewrite lookup_app_r, Nat.sub_diag by lia.
           ++ rewrite lookup_insert_ne by (intros [=]; lia).
              rewrite lookup_app_l by lia. apply Hst1. lia.
        -- rewrite Hcnt, ceil_div_groups by lia.
           rewrite bool_decide_eq_false_2 by done.
           rewrite length_app. cbn [length]. done.
        -- intros k Hk. rewrite length_app in Hk. cbn [length] in Hk.
           rewrite Htmp2. rewrite lookup_insert_ne by (intros [=]; lia).
           apply Hhigh1. lia.
        -- rewrite concat_app, <-Hperm. simpl.
           by rewrite app_nil_r, Hperm2.
        -- apply Forall_app. split; [done|]. constructor; [|done].
           eapply nonempty_concat; [done| |done]. by destruct fs.
        -- intros Hs. destruct (Hso ltac:(constructor) Hs) as [Ho1 Ho2].
           apply Forall_app. split; [done|]. constructor; [|done].
           by apply Hsorted2.
    + (* no file is left *)
      destruct fs; [|done].
      eexists _, _, _. split_and!; try done.
      intros _. exists outs. split_and!; try done.
      * rewrite Hcnt, ceil_div_groups by (unfold NMERGE; simpl; lia).
        simpl. lia.
      * simpl in Hperm. by rewrite app_nil_r in Hperm.
      * intros Hs. by destruct (Hso ltac:(constructor) Hs).
Qed.

(** ** Stage arithmetic *)

Lemma ceil_div_spec x y q :
  (0 < y)%nat →
  ceil_div x y = q ↔ (x ≤ q * y ∧ (q = 0 ∨ (q - 1) * y < x))%nat.
Proof.
  intros Hy. unfold ceil_div.
  pose proof (Nat.div_mod_eq (x + y - 1) y) as Hd.
  pose proof (Nat.mod_upper_bound (x + y - 1) y ltac:(lia)) as Hm.
  set (d := ((x + y - 1) / y)%nat) in *.
  set (r := ((x + y - 1) `mod` y)%nat) in *.
  split.
  - intros <-. split; [nia|]. destruct d; [by left|right]. nia.
  - intros [H1 H2].
    destruct (Nat.lt_trichotomy d q) as [Hlt|[Heq|Hgt]]; [|done|].
    + exfalso. destruct H2 as [->|H2]; [lia|]. nia.
    + exfalso. nia.
Qed.

Lemma ceil_div_ceil_div x a b :
  (0 < a)%nat → (0 < b)%nat →
  ceil_div (ceil_div x a) b = ceil_div x (a * b).
Proof.
  intros Ha Hb. symmetry.
  apply ceil_div_spec; [nia|].
  pose proof (proj1 (ceil_div_spec x a _ Ha) eq_refl) as [H1 H2].
  pose proof (proj1 (ceil_div_spec (ceil_div x a) b _ Hb) eq_refl) as [H3 H4].
  set (q1 := ceil_div x a) in *. set (q2 := ceil_div q1 b) in *.
  clearbody q1 q2.
  split; [nia|].
  destruct H4 as [H4|H4]; [by left|right].
  destruct H2 as [H2|H2]; [subst q1; by apply Nat.nlt_0_r in H4|].
  assert ((q2 - 1) * b ≤ q1 - 1)%nat as H5 by lia.
  apply (Nat.mul_le_mono_r _ _ a) in H5. nia.
Qed.

Lemma ceil_div_1 x : ceil_div x 1 = x.
Proof. apply ceil_div_spec; lia. Qed.

Lemma ceil_logn_from_spec base fuel x s p :
  (2 ≤ base)%nat → p = (base ^ s)%nat → (x < fuel + p)%nat →
  (s = 0 ∨ base ^ (s - 1) < x)%nat →
  let r := ceil_logn_from fuel x base s p in
  (x ≤ base ^ r ∧ (r = 0 ∨ base ^ (r - 1) < x))%nat.
Proof.
  intros Hb. revert s p.
  induction fuel as [|fuel IH]; intros s p Hp Hfuel Hmin; simpl.
  { split; [lia|done]. }
  case_bool_decide as Hx.
  { split; [lia|done]. }
  apply IH.
  - rewrite Nat.pow_succ_r'. lia.
  - assert (1 ≤ p)%nat.
    { subst p. pose proof (Nat.pow_nonzero base s). lia. }
    nia.
  - right. replace (S s - 1)%nat with s by lia. lia.
Qed.

Lemma ceil_logn_spec x base :
  (2 ≤ base)%nat →
  (x ≤ base ^ ceil_logn x base ∧
   (ceil_logn x base = 0 ∨ base ^ (ceil_logn x base - 1) < x))%nat.
Proof.
  intros Hb. apply ceil_logn_from_spec; try done; [lia|by left].
Qed.

Lemma calc_stage_files_S obj stage :
  kmerge_calc_stage_files obj (S stage)
  = ceil_div (kmerge_calc_stage_files obj stage) NMERGE.
Proof.
  unfold kmerge_calc_stage_files.
  rewrite bool_decide_eq_false_2 by done.
  case_bool_decide as Hs.
  - subst stage. done.
  - rewrite ceil_div_ceil_div.
    + by rewrite Nat.pow_succ_r', Nat.mul_comm.
    + pose proof (Nat.pow_nonzero NMERGE stage). unfold NMERGE in *. lia.
    + unfold NMERGE. lia.
Qed.

Lemma calc_stage_files_last obj :
  (0 < fcount obj)%nat →
  kmerge_calc_stage_files obj (kmerge_calc_stages obj) = 1%nat.
Proof.
  intros Hf. unfold kmerge_calc_stage_files, kmerge_calc_stages.
  destruct (ceil_logn_spec (fcount obj) NMERGE) as [H1 H2];
    [unfold NMERGE; lia|].
  case_bool_decide as Hs.
  - rewrite Hs in H1. simpl in H1. lia.
  - apply ceil_div_spec.
    + pose proof (Nat.pow_nonzero NMERGE (ceil_logn (fcount obj) NMERGE)).
      unfold NMERGE in *. lia.
    + split; [lia|]. right. simpl. lia.
Qed.

(** ** All the stages *)

Lemma merge_stage_nonempty w w' s fl' :
  tmp_nonempty w →
  (∀ s' k, s' ≠ S s → tmp w' !! (s', k) = tmp w !! (s', k)) →
  stage_files w' (S s) fl' →
  (∀ k, (length fl' ≤ k)%nat → tmp w' !! (S s, k) = tmp w !! (S s, k)) →
  nonempty_files fl' →
  tmp_nonempty w'.
Proof.
  intros Hw Hlow Hst Hhigh Hne [s' k] f Hf.
  destruct (decide (s' = S s)) as [->|Hs'].
  - destruct (decide (k < length fl')%nat) as [Hk|Hk].
    + rewrite Hst in Hf by done. unfold nonempty_files in Hne.
      rewrite Forall_lookup in Hne. by apply (Hne k).
    + rewrite Hhigh in Hf by lia. by apply (Hw _ _ Hf).
  - rewrite Hlow in Hf by done. by apply (Hw _ _ Hf).
Qed.

Lemma merge_all_loop_spec e n : ∀ i obj w fl,
  stage_files w i fl → length fl = kmerge_calc_stage_files obj i →
  nonempty_files fl → idle_queue obj → (NMERGE < buf_nmemb obj)%nat →
  ∃ ret obj' w',
    kmerge_merge_all_loop e n obj i w = Ok (ret, obj', w') ∧
    (no_short_fwrite e → ret = true) ∧
    input w' = input w ∧ (clock w ≤ clock w')%nat ∧
    (ret = true → ∃ fl',
       stage_files w' (i + n) fl' ∧
       length fl' = kmerge_calc_stage_files obj (i + n) ∧
       concat fl' ≡ₚ concat fl ∧ nonempty_files fl' ∧
       (sorted_files fl → sorted_files fl') ∧
       (tmp_nonempty w → tmp_nonempty w')).
Proof.
  induction n as [|n IH]; intros i obj w fl Hst Hlen Hne Hidle Hbuf.
  { cbn [kmerge_merge_all_loop]. eexists _, _, _. split_and!; try done.
    intros _. exists fl. rewrite Nat.add_0_r. by split_and!. }
  cbn [kmerge_merge_all_loop]. rewrite <-Hlen.
  destruct (merge_stage_spec e obj i fl w Hst Hne Hidle Hbuf)
    as (ret & obj1 & w1 & -> & Hok & Hin1 & Hcl1 & Hfc1 & Hbn1 & Hlow1 & Hres1).
  cbn [mbind result_bind]. destruct ret; cbn [negb].
  2:{ eexists _, _, _. split_and!; try done. }
  destruct (Hres1 eq_refl)
    as (fl1 & Hst1 & Hlen1 & Hhigh1 & Hperm1 & Hne1 & Hso1 & Hidle1).
  assert (∀ k, kmerge_calc_stage_files obj1 k = kmerge_calc_stage_files obj k)
    as Hcalc.
  { intros k. unfold kmerge_calc_stage_files. by rewrite Hfc1. }
  destruct (IH (S i) obj1 w1 fl1)
    as (ret & obj' & w' & -> & Hok' & Hin' & Hcl' & Hres'); try done.
  { rewrite Hcalc, calc_stage_files_S, <-Hlen. done. }
  { congruence. }
  eexists _, _, _. split_and!; try done; try congruence; try lia.
  intros ->. destruct (Hres' eq_refl)
    as (fl' & Hst' & Hlen' & Hperm' & Hne' & Hso' & Hnon').
  exists fl'. replace (i + S n)%nat with (S i + n)%nat by lia.
  split_and!; try done.
  - by rewrite Hlen', Hcalc.
  - by rewrite Hperm'.
  - intros Hs. by apply Hso', Hso1.
  - intros Hw. apply Hnon'. by eapply merge_stage_nonempty.
Qed.

Lemma heap_new_idle :
  Heap.heap_inv (Heap.heap_new NMERGE) ∧
  Heap.capacity (Heap.heap_new NMERGE) = NMERGE ∧
  Heap.count (Heap.heap_new NMERGE) = 0%nat.
Proof.
  split_and!; try done. split.
  - split; [apply length_replicate|simpl; lia].
  - intros i Hi. simpl in Hi. lia.
Qed.

Lemma kmerge_merge_spec e fcount buf_nmemb w fl :
  stage_files w 0 fl → length fl = fcount → (0 < fcount)%nat →
  nonempty_files fl → (NMERGE < buf_nmemb)%nat →
  ∃ ret out w',
    kmerge_merge e fcount buf_nmemb w = Ok (ret, out, w') ∧
    (no_short_fwrite e → ret = true) ∧
    input w' = input w ∧ (clock w ≤ clock w')%nat ∧
    (ret = true → ∃ merged,
       tmp w' !! out = Some merged ∧
       merged ≡ₚ concat fl ∧
       (sorted_files fl → StronglySorted Z.le merged) ∧
       (tmp_nonempty w → tmp_nonempty w')).
Proof.
  intros Hst Hlen Hf Hne Hbuf. unfold kmerge_merge.
  rewrite !bool_decide_eq_true_2 by done. cbn [negb].
  change (Heap.heap_create NMERGE) with (Some (Heap.heap_new NMERGE)).
  cbn [asserted mbind result_bind]. unfold kmerge_merge_all.
  set (obj := {| Kmerge.fcount := fcount; Kmerge.buf_nmemb := buf_nmemb;
                 queue := Heap.heap_new NMERGE |}).
  destruct (merge_all_loop_spec e (kmerge_calc_stages obj) 0 obj w fl)
    as (ret & obj' & w' & -> & Hok & Hin & Hcl & Hres); try done.
  { apply heap_new_idle. }
  cbn [mbind result_bind].
  eexists _, _, _. split_and!; try done.
  intros ->. destruct (Hres eq_refl)
    as (fl' & Hst' & Hlen' & Hperm' & Hne' & Hso' & Hnon').
  rewrite Nat.add_0_l in *.
  rewrite calc_stage_files_last in Hlen' by done.
  destruct fl' as [|merged [|? ?]]; try done.
  exists merged. split_and!; try done.
  - rewrite (Hst' 0%nat) by (simpl; lia). done.
  - rewrite <-Hperm'. simpl. by rewrite app_nil_r.
  - intros Hs. specialize (Hso' Hs). by apply Forall_cons in Hso' as [? _].
Qed.

End stage_facts.

Section pmsort_facts.
Import Pmsort.

Implicit Types (arr : list Z) (obj : pmsort).

(** ** Merging two neighbouring sections *)

Lemma pmsort_merge_loop_nil_r la : pmsort_merge_loop la [] = la.
Proof. by destruct la. Qed.

Lemma pmsort_merge_loop_nil_l ra : pmsort_merge_loop [] ra = ra.
Proof. by destruct ra. Qed.

Lemma pmsort_merge_loop_perm la ra : pmsort_merge_loop la ra ≡ₚ la ++ ra.
Proof.
  revert ra. induction la as [|x la IH]; intros ra;
    [by rewrite pmsort_merge_loop_nil_l|].
  induction ra as [|y ra IHr]; [by rewrite app_nil_r|].
  cbn [pmsort_merge_loop]. destruct (x <=? y).
  - by rewrite IH.
  - change (y :: pmsort_merge_loop (x :: la) ra ≡ₚ (x :: la) ++ y :: ra).
    rewrite IHr. by rewrite Permutation_middle.
Qed.

Lemma pmsort_merge_loop_sorted la ra :
  StronglySorted Z.le (la ++ ra) → pmsort_merge_loop la ra = la ++ ra.
Proof.
  revert ra. induction la as [|x la IH]; intros ra Hs;
    [by rewrite pmsort_merge_loop_nil_l|].
  destruct ra as [|y ra]; [by rewrite app_nil_r|].
  cbn [pmsort_merge_loop].
  simpl in Hs. apply StronglySorted_inv in Hs as [Hs Hall].
  rewrite Forall_forall in Hall.
  assert (x ≤ y) as Hxy by (apply Hall; set_solver).
  apply Z.leb_le in Hxy. rewrite Hxy. by rewrite IH.
Qed.

Lemma list_inserts_middle {A} (l k : list A) i :
  (i + length k ≤ length l)%nat →
  list_inserts i k l = take i l ++ k ++ drop (i + length k) l.
Proof.
  intros Hlen.
  rewrite <-(take_drop i l) at 1.
  rewrite <-(take_drop (length k) (drop i l)) at 1.
  replace i with (length (take i l) + 0)%nat at 1
    by (rewrite length_take; lia).
  rewrite list_inserts_app_r.
  rewrite list_inserts_0_r by (rewrite length_take, length_drop; lia).
  by rewrite drop_drop.
Qed.

Lemma take_drop_length {A} (l : list A) n :
  take n l ++ drop (length (take n l)) l = l.
Proof.
  rewrite length_take. destruct (decide (n ≤ length l)%nat).
  - rewrite Nat.min_l by lia. apply take_drop.
  - rewrite Nat.min_r by lia. rewrite take_ge, drop_all by lia.
    apply app_nil_r.
Qed.

Lemma take_drop_segment {A} (l : list A) i n :
  (i ≤ length l)%nat →
  take i l ++ take n (drop i l)
  ++ drop (i + length (take n (drop i l))) l = l.
Proof.
  intros Hi.
  rewrite <-drop_drop, take_drop_length. apply take_drop.
Qed.

Lemma list_inserts_segment {A} (l k : list A) i n :
  k ≡ₚ take n (drop i l) → list_inserts i k l ≡ₚ l.
Proof.
  intros Hk.
  assert (length k = length (take n (drop i l))) as Hlen by (by rewrite Hk).
  destruct (decide (i ≤ length l)%nat) as [Hi|Hi].
  - rewrite list_inserts_middle
      by (rewrite Hlen, length_take, length_drop; lia).
    rewrite Hlen.
    rewrite <-(take_drop_segment l i n Hi) at 4.
    by apply Permutation_app_head, Permutation_app_tail.
  - assert (k = []) as ->; [|done].
    apply length_zero_iff_nil.
    rewrite Hlen, length_take, length_drop. lia.
Qed.

Lemma list_inserts_id {A} (l : list A) i n :
  list_inserts i (take n (drop i l)) l = l.
Proof.
  destruct (decide (i ≤ length l)%nat) as [Hi|Hi].
  - rewrite list_inserts_middle
      by (rewrite length_take, length_drop; lia).
    by apply take_drop_segment.
  - rewrite drop_ge by lia. by rewrite take_nil.
Qed.

(** The two sections [pmsort_merge] copies are one segment of the array. *)
Lemma pmsort_merge_segment arr left middle right :
  (left ≤ middle)%nat →
  take (middle - left + 1) (drop left arr)
  ++ take (right - middle) (drop (middle + 1) arr)
  = take ((middle - left + 1) + (right - middle)) (drop left arr).
Proof.
  intros Hlm.
  replace (middle + 1)%nat with (left + (middle - left + 1))%nat by lia.
  rewrite <-drop_drop. by rewrite take_take_drop.
Qed.

Lemma pmsort_merge_perm arr left middle right :
  (left ≤ middle)%nat → pmsort_merge arr left middle right ≡ₚ arr.
Proof.
  intros Hlm. unfold pmsort_merge.
  eapply list_inserts_segment.
  rewrite pmsort_merge_loop_perm. by rewrite pmsort_merge_segment.
Qed.

Lemma StronglySorted_take_drop arr i n :
  StronglySorted Z.le arr → StronglySorted Z.le (take n (drop i arr)).
Proof.
  intros Hs. rewrite <-(take_drop i arr) in Hs.
  apply StronglySorted_app_1_r in Hs.
  rewrite <-(take_drop n (drop i arr)) in Hs.
  by apply StronglySorted_app_1_l in Hs.
Qed.

Lemma pmsort_merge_sorted arr left middle right :
  (left ≤ middle)%nat → StronglySorted Z.le arr →
  pmsort_merge arr left middle right = arr.
Proof.
  intros Hlm Hs. unfold pmsort_merge.
  rewrite pmsort_merge_loop_sorted; rewrite pmsort_merge_segment by done.
  - apply list_inserts_id.
  - by apply StronglySorted_take_drop.
Qed.

(** ** Sorting one range *)

Lemma pmsort_merge_sort_rec_perm fuel arr left right :
  pmsort_merge_sort_rec fuel arr left right ≡ₚ arr.
Proof.
  revert arr left right. induction fuel as [|fuel IH]; intros arr l r; [done|].
  cbn [pmsort_merge_sort_rec]. case_bool_decide; [|done].
  rewrite pmsort_merge_perm by lia. by rewrite !IH.
Qed.

Lemma pmsort_merge_sort_rec_sorted fuel arr left right :
  StronglySorted Z.le arr → pmsort_merge_sort_rec fuel arr left right = arr.
Proof.
  revert arr left right.
  induction fuel as [|fuel IH]; intros arr l r Hs; [done|].
  cbn [pmsort_merge_sort_rec]. case_bool_decide; [|done].
  rewrite (IH arr), (IH arr) by done. by apply pmsort_merge_sorted; [lia|].
Qed.

Lemma pmsort_thread_merge_sort_perm obj arr i :
  pmsort_thread_merge_sort obj arr i ≡ₚ arr.
Proof.
  unfold pmsort_thread_merge_sort, pmsort_merge_sort.
  case_bool_decide; [|done].
  rewrite pmsort_merge_perm by lia.
  by rewrite !pmsort_merge_sort_rec_perm.
Qed.

Lemma pmsort_thread_merge_sort_sorted obj arr i :
  StronglySorted Z.le arr → pmsort_thread_merge_sort obj arr i = arr.
Proof.
  intros Hs. unfold pmsort_thread_merge_sort, pmsort_merge_sort.
  case_bool_decide; [|done].
  rewrite (pmsort_merge_sort_rec_sorted _ arr),
    (pmsort_merge_sort_rec_sorted _ arr) by done.
  by apply pmsort_merge_sorted; [lia|].
Qed.

Lemma pmsort_run_threads_perm obj arr : pmsort_run_threads obj arr ≡ₚ arr.
Proof.
  unfold pmsort_run_threads. generalize (seq 0 (num_threads obj)).
  intros l. revert arr. induction l as [|i l IH]; intros arr; [done|].
  simpl. by rewrite IH, pmsort_thread_merge_sort_perm.
Qed.

Lemma pmsort_run_threads_sorted obj arr :
  StronglySorted Z.le arr → pmsort_run_threads obj arr = arr.
Proof.
  unfold pmsort_run_threads. generalize (seq 0 (num_threads obj)).
  intros l Hs. induction l as [|i l IH]; [done|].
  simpl. by rewrite pmsort_thread_merge_sort_sorted.
Qed.

(** ** Merging the sections *)

Lemma pmsort_sections_loop_perm fuel obj arr number aggregation i :
  (0 < npt obj * aggregation)%nat →
  pmsort_sections_loop fuel obj arr number aggregation i ≡ₚ arr.
Proof.
  intros Hpos. revert arr i.
  induction fuel as [|fuel IH]; intros arr i; [done|].
  cbn [pmsort_sections_loop]. case_bool_decide; [|done].
  rewrite IH. apply pmsort_merge_perm. lia.
Qed.

Lemma pmsort_sections_loop_sorted fuel obj arr number aggregation i :
  (0 < npt obj * aggregation)%nat → StronglySorted Z.le arr →
  pmsort_sections_loop fuel obj arr number aggregation i = arr.
Proof.
  intros Hpos. revert arr i.
  induction fuel as [|fuel IH]; intros arr i Hs; [done|].
  cbn [pmsort_sections_loop]. case_bool_decide; [|done].
  rewrite pmsort_merge_sorted by (done || lia). by apply IH.
Qed.

Lemma pmsort_merge_array_sections_rec_perm fuel obj arr number aggregation :
  (0 < npt obj)%nat → (0 < aggregation)%nat →
  pmsort_merge_array_sections_rec fuel obj arr number aggregation ≡ₚ arr.
Proof.
  intros Hn. revert arr number aggregation.
  induction fuel as [|fuel IH]; intros arr number agg Ha; [done|].
  cbn [pmsort_merge_array_sections_rec]. case_bool_decide.
  - rewrite IH by lia. apply pmsort_sections_loop_perm. nia.
  - apply pmsort_sections_loop_perm. nia.
Qed.

Lemma pmsort_merge_array_sections_rec_sorted fuel obj arr number aggregation :
  (0 < npt obj)%nat → (0 < aggregation)%nat → StronglySorted Z.le arr →
  pmsort_merge_array_sections_rec fuel obj arr number aggregation = arr.
Proof.
  intros Hn. revert arr number aggregation.
  induction fuel as [|fuel IH]; intros arr number agg Ha Hs; [done|].
  cbn [pmsort_merge_array_sections_rec].
  rewrite pmsort_sections_loop_sorted by (done || nia).
  case_bool_decide; [|done]. apply IH; [lia|done].
Qed.

(** ** The sorter of one chunk *)

Lemma pmsort_sort_Some arr len num_threads :
  (0 < len)%nat → (0 < num_threads)%nat →
  ∃ arr', pmsort_sort arr len num_threads = Some arr' ∧ arr' ≡ₚ arr ∧
          (StronglySorted Z.le arr → arr' = arr).
Proof.
  intros Hlen Hthr. unfold pmsort_sort.
  rewrite !bool_decide_eq_false_2 by lia.
  case_bool_decide as Hone; [by exists arr|].
  set (T := if bool_decide (len < num_threads)%nat then len else num_threads).
  assert (0 < T ≤ len)%nat as HT by (unfold T; case_bool_decide; lia).
  assert (0 < len / T)%nat as Hnpt by (apply Nat.div_str_pos; lia).
  eexists. split; [done|]. split.
  - unfold pmsort_merge_array_sections.
    rewrite pmsort_merge_array_sections_rec_perm by (simpl; lia).
    case_bool_decide.
    + apply pmsort_thread_merge_sort_perm.
    + apply pmsort_run_threads_perm.
  - intros Hs.
    rewrite pmsort_thread_merge_sort_sorted, pmsort_run_threads_sorted by done.
    unfold pmsort_merge_array_sections.
    rewrite pmsort_merge_array_sections_rec_sorted; try done.
    + by destruct (bool_decide (T = 1%nat)).
    + simpl. lia.
    + by destruct (bool_decide (T = 1%nat)).
Qed.

Lemma pmsort_sort_None arr len num_threads :
  pmsort_sort arr len num_threads = None ↔ (len = 0 ∨ num_threads = 0)%nat.
Proof.
  unfold pmsort_sort. repeat case_bool_decide; try done; split; (done || lia).
Qed.

End pmsort_facts.

Section text_facts.
Import Tools.

Implicit Types (s : string) (c : ascii).

#[local] Arguments String.append : simpl nomatch.

(** ** Strings *)

Lemma string_app_nil_r s : (s +:+ EmptyString)%string = s.
Proof. induction s as [|c s IH]; [done|]. simpl. by rewrite IH. Qed.

Lemma string_app_assoc s1 s2 s3 :
  ((s1 +:+ s2) +:+ s3)%string = (s1 +:+ (s2 +:+ s3))%string.
Proof. induction s1 as [|c s1 IH]; [done|]. simpl. by rewrite IH. Qed.

Lemma getlines_line s rest :
  free_of "010" s →
  getlines (s +:+ String "010" rest)
  = (s +:+ String "010" EmptyString)%string :: getlines rest.
Proof.
  induction s as [|c s IH]; intros Hfree.
  { done. }
  destruct Hfree as [Hc Hfree]. simpl.
  rewrite bool_decide_eq_false_2 by done. by rewrite IH.
Qed.

Lemma cstring_free s : free_of "000" s → cstring s = s.
Proof.
  induction s as [|c s IH]; [done|]. intros [Hc Hfree]. simpl.
  rewrite bool_decide_eq_false_2 by done. by rewrite IH.
Qed.

Lemma strip_newline_line s :
  free_of "010" s → strip_newline (s +:+ String "010" EmptyString) = s.
Proof.
  induction s as [|c s IH]; intros Hfree.
  { done. }
  destruct Hfree as [Hc Hfree]. simpl.
  rewrite bool_decide_eq_false_2 by done. by rewrite IH.
Qed.

Lemma free_of_app c s1 s2 :
  free_of c s1 → free_of c s2 → free_of c (s1 +:+ s2).
Proof. induction s1 as [|c' s1 IH]; [done|]. intros [??] ?. simpl. eauto. Qed.

Lemma getlines_nonempty s : s ≠ EmptyString → getlines s ≠ [].
Proof.
  destruct s as [|c s]; [done|]. intros _. simpl.
  case_bool_decide; [done|]. by destruct (getlines s).
Qed.

(** ** Decimal digits *)

#[local] Arguments digit_char : simpl never.

Lemma digit_char_spec d :
  0 ≤ d < 10 →
  isdigit (digit_char d) = true ∧ digit_value (digit_char d) = d ∧
  isspace (digit_char d) = false ∧
  digit_char d ≠ "-"%char ∧ digit_char d ≠ "+"%char ∧
  digit_char d ≠ "010"%char ∧ digit_char d ≠ "000"%char.
Proof.
  intros Hd.
  assert (d = 0 ∨ d = 1 ∨ d = 2 ∨ d = 3 ∨ d = 4 ∨ d = 5 ∨ d = 6 ∨ d = 7
          ∨ d = 8 ∨ d = 9) as Hcases by lia.
  repeat (destruct Hcases as [->|Hcases]); try subst d;
    by vm_compute.
Qed.

Lemma print_digits_S fuel n acc :
  print_digits (S fuel) n acc
  = if n <? 10 then String (digit_char (n `mod` 10)) acc
    else print_digits fuel (n / 10) (String (digit_char (n `mod` 10)) acc).
Proof. done. Qed.

Lemma strtol_digits_digit d s a :
  0 ≤ d < 10 →
  strtol_digits (String (digit_char d) s) a = strtol_digits s (a * 10 + d).
Proof.
  intros Hd. destruct (digit_char_spec d Hd) as (Hdig & Hval & _).
  cbn [strtol_digits]. by rewrite Hdig, Hval.
Qed.

Lemma string_app_cons c s1 s2 :
  (String c s1 +:+ s2)%string = String c (s1 +:+ s2).
Proof. done. Qed.

Lemma print_digits_spec fuel : ∀ n acc,
  0 ≤ n < 10 ^ Z.of_nat (S fuel) →
  ∃ ds k,
    0 ≤ k ∧
    print_digits (S fuel) n acc = (ds +:+ acc)%string ∧
    ds ≠ EmptyString ∧ all_digits ds ∧
    ∀ a rest, strtol_digits (ds +:+ rest) a
              = strtol_digits rest (a * 10 ^ k + n).
Proof.
  induction fuel as [|fuel IH]; intros n acc Hn;
    rewrite print_digits_S;
    pose proof (Z.mod_pos_bound n 10 ltac:(lia)) as Hmod;
    destruct (Z.ltb_spec n 10) as [Hlt|Hge].
  1,3: exists (String (digit_char (n `mod` 10)) EmptyString), 1;
    (split_and!; [lia|done|done|split; [eauto|done]|]);
    intros a rest; rewrite string_app_cons, strtol_digits_digit by done;
    rewrite Z.mod_small by lia; change (10 ^ 1) with 10; done.
  { change (10 ^ Z.of_nat 1) with 10 in Hn. lia. }
  destruct (IH (n / 10) (String (digit_char (n `mod` 10)) acc))
    as (ds & k & Hk & -> & Hne & Hall & Hparse).
  { split; [apply Z.div_pos; lia|].
    apply Z.div_lt_upper_bound; [lia|].
    rewrite (Nat2Z.inj_succ (S fuel)), Z.pow_succ_r in Hn by lia. lia. }
  exists (ds +:+ String (digit_char (n `mod` 10)) EmptyString)%string,
         (k + 1).
  split_and!.
  - lia.
  - by rewrite string_app_assoc.
  - by destruct ds.
  - clear -Hall Hmod. induction ds as [|c ds IHd].
    + split; [|done]. eauto.
    + destruct Hall as [Hc Hall]. rewrite string_app_cons.
      split; [done|]. by apply IHd.
  - intros a rest. rewrite string_app_assoc, Hparse.
    rewrite string_app_cons, strtol_digits_digit by done.
    f_equal. rewrite Z.pow_add_r by lia.
    pose proof (Z.div_mod n 10 ltac:(lia)). change (10 ^ 1) with 10. lia.
Qed.

Lemma all_digits_free c ds :
  (∀ d, 0 ≤ d < 10 → digit_char d ≠ c) → all_digits ds → free_of c ds.
Proof.
  intros Hc. induction ds as [|c' ds IH]; [done|].
  intros [(d & Hd & ->) Hall]. split; [by apply Hc|by apply IH].
Qed.

Lemma strtol_digit_head d s :
  0 ≤ d < 10 →
  strtol (String (digit_char d) s)
  = (let '(v, e) := strtol_digits (String (digit_char d) s) 0 in
     if LONG_MAX <? v then (LONG_MAX, true, e)
     else if v <? LONG_MIN then (LONG_MIN, true, e)
     else (v, false, e)) ∧
  strtol (String "-" (String (digit_char d) s))
  = (let '(v, e) := strtol_digits (String (digit_char d) s) 0 in
     if LONG_MAX <? - v then (LONG_MAX, true, e)
     else if - v <? LONG_MIN then (LONG_MIN, true, e)
     else (- v, false, e)).
Proof.
  intros Hd.
  assert (d = 0 ∨ d = 1 ∨ d = 2 ∨ d = 3 ∨ d = 4 ∨ d = 5 ∨ d = 6 ∨ d = 7
          ∨ d = 8 ∨ d = 9) as Hcases by lia.
  repeat (destruct Hcases as [->|Hcases]); try subst d; by split.
Qed.

Lemma pow10_log2 n : 0 ≤ n → n < 10 ^ Z.of_nat (S (Z.to_nat (Z.log2 n))).
Proof.
  intros Hn. rewrite Nat2Z.inj_succ, Z2Nat.id by apply Z.log2_nonneg.
  destruct (decide (n = 0)) as [->|Hnz].
  { change (Z.log2 0) with 0. change (10 ^ Z.succ 0) with 10. lia. }
  pose proof (Z.log2_spec n ltac:(lia)) as [_ Hlt].
  pose proof (Z.log2_nonneg n).
  pose proof (Z.pow_le_mono_l 2 10 (Z.succ (Z.log2 n)) ltac:(lia)). lia.
Qed.

(** [str2int] reads back what [%d] prints. *)
Lemma str2int_print_int v : int32 v → str2int (print_int v) = inr v.
Proof.
  unfold int32, INT_MIN, INT_MAX. intros Hv. unfold print_int.
  destruct (Z.ltb_spec v 0) as [Hneg|Hpos].
  - destruct (print_digits_spec (Z.to_nat (Z.log2 (Z.abs v))) (- v) EmptyString)
      as (ds & k & Hk & -> & Hne & Hall & Hparse).
    { split; [lia|]. replace (Z.abs v) with (- v) by lia.
      apply pow10_log2. lia. }
    rewrite string_app_nil_r. specialize (Hparse 0 EmptyString).
    rewrite string_app_nil_r in Hparse.
    destruct ds as [|c ds]; [done|]. destruct Hall as [(d & Hd & ->) Hall].
    unfold str2int. change (isspace "-") with false. cbv iota.
    destruct (strtol_digit_head d ds Hd) as [_ ->]. rewrite Hparse.
    cbn [strtol_digits]. replace (0 * 10 ^ k + - v) with (- v) by lia.
    rewrite Z.opp_involutive. unfold LONG_MAX, LONG_MIN, INT_MAX, INT_MIN.
    rewrite (proj2 (Z.ltb_ge _ _)) by lia.
    rewrite (proj2 (Z.ltb_ge _ _)) by lia.
    rewrite (proj2 (Z.ltb_ge _ _)) by lia.
    rewrite (proj2 (Z.ltb_ge _ _)) by lia. done.
  - destruct (print_digits_spec (Z.to_nat (Z.log2 (Z.abs v))) v EmptyString)
      as (ds & k & Hk & -> & Hne & Hall & Hparse).
    { split; [lia|]. replace (Z.abs v) with v by lia.
      apply pow10_log2. lia. }
    rewrite string_app_nil_r. specialize (Hparse 0 EmptyString).
    rewrite string_app_nil_r in Hparse.
    destruct ds as [|c ds]; [done|]. destruct Hall as [(d & Hd & ->) Hall].
    unfold str2int.
    destruct (digit_char_spec d Hd) as (_ & _ & -> & _).
    destruct (strtol_digit_head d ds Hd) as [-> _]. rewrite Hparse.
    cbn [strtol_digits]. replace (0 * 10 ^ k + v) with v by lia.
    unfold LONG_MAX, LONG_MIN, INT_MAX, INT_MIN.
    rewrite (proj2 (Z.ltb_ge _ _)) by lia.
    rewrite (proj2 (Z.ltb_ge _ _)) by lia.
    rewrite (proj2 (Z.ltb_ge _ _)) by lia.
    rewrite (proj2 (Z.ltb_ge _ _)) by lia. done.
Qed.

(** What [%d] prints has no newline and no NUL in it. *)
Lemma print_int_free v :
  free_of "010" (print_int v) ∧ free_of "000" (print_int v).
Proof.
  assert (∀ n, 0 ≤ n →
    let ds := print_digits (S (Z.to_nat (Z.log2 n))) n EmptyString in
    free_of "010" ds ∧ free_of "000" ds) as Hdigits.
  { intros n Hn.
    destruct (print_digits_spec (Z.to_nat (Z.log2 n)) n EmptyString)
      as (ds & k & Hk & Heq & Hne & Hall & _); [by split; [|apply pow10_log2]|].
    cbv zeta. rewrite Heq, string_app_nil_r.
    split; (apply all_digits_free; [|done]); intros d Hd;
      by destruct (digit_char_spec d Hd) as (_ & _ & _ & _ & _ & ? & ?). }
  unfold print_int. destruct (Z.ltb_spec v 0) as [Hneg|Hpos].
  - replace (Z.abs v) with (- v) by lia.
    destruct (Hdigits (- v)) as [??]; [lia|]. by repeat split.
  - replace (Z.abs v) with v by lia. by apply Hdigits.
Qed.

Lemma parse_line_render_line v :
  int32 v → parse_line (render_line v) = Some v.
Proof.
  intros Hv. destruct (print_int_free v) as [Hnl Hnul].
  unfold parse_line, render_line.
  rewrite cstring_free by (by apply free_of_app).
  by rewrite strip_newline_line, str2int_print_int.
Qed.

Lemma getlines_render v vs :
  getlines (render (v :: vs)) = render_line v :: getlines (render vs).
Proof.
  cbn [render]. unfold render_line at 1. rewrite string_app_assoc.
  rewrite string_app_cons. change (EmptyString +:+ ?s)%string with s.
  rewrite getlines_line by apply print_int_free. done.
Qed.

(** A file printed from [int32] values reads back as these values. *)
Lemma parse_file_render vs :
  Forall int32 vs → parse_file (render vs) = Some vs.
Proof.
  unfold parse_file. induction 1 as [|v vs Hv Hvs IH]; [done|].
  rewrite getlines_render.
  change (mapM parse_line (?l :: ?ls))
    with (x ← parse_line l; k ← mapM parse_line ls; mret (x :: k)).
  by rewrite parse_line_render_line, IH.
Qed.

(** [str2int] only accepts values of [int]. *)
Lemma str2int_int32 s v : str2int s = inr v → int32 v.
Proof.
  unfold str2int, int32. destruct s as [|c s]; [done|].
  destruct (isspace c); [done|].
  destruct (strtol (String c s)) as [[l er] e].
  destruct (Z.ltb_spec INT_MAX l) as [?|Hmax]; [done|].
  destruct (Z.ltb_spec l INT_MIN) as [?|Hmin].
  { cbn [orb]. by destruct (er && (l =? LONG_MAX)). }
  cbn [orb]. repeat case_match; try done. by intros [= <-].
Qed.

Lemma parse_file_int32 s vs : parse_file s = Some vs → Forall int32 vs.
Proof.
  unfold parse_file. intros Hm. apply mapM_Some in Hm.
  induction Hm as [|l v ls vs Hl _ IH]; constructor; [|done].
  unfold parse_line in Hl.
  destruct (str2int _) as [|v'] eqn:Hs; [done|].
  injection Hl as <-. by apply str2int_int32 in Hs.
Qed.

Lemma render_nonempty v vs : render (v :: vs) ≠ EmptyString.
Proof.
  cbn [render]. unfold render_line. by destruct (print_int v).
Qed.

Lemma getlines_render_length vs : length (getlines (render vs)) = length vs.
Proof.
  induction vs as [|v vs IH]; [done|].
  rewrite getlines_render. cbn [length]. by rewrite IH.
Qed.

End text_facts.

Section sort_facts.
Import Sort.

Implicit Types (e : env) (w : world) (obj : sort).

(** ** Ingest *)

Lemma sort_handle_buf_spec e obj buf bufn w :
  buf ≠ [] → (0 < thr_count obj)%nat →
  ∃ ret out,
    sort_handle_buf e obj buf bufn w
      = Ok (ret, {| input := input w; tmp := <[(0%nat, bufn) := out]> (tmp w);
                    clock := S (clock w) |}) ∧
    (no_short_fwrite e → ret = true) ∧
    (ret = true → out ≡ₚ buf ∧ (StronglySorted Z.le buf → out = buf)).
Proof.
  intros Hne Hthr. unfold sort_handle_buf.
  destruct (pmsort_sort_Some buf (length buf) (thr_count obj))
    as (buf' & -> & Hperm & Hsorted);
    [destruct buf; [done|simpl; lia]|done|].
  cbn [asserted mbind result_bind]. unfold fwrite.
  cbn [app].
  set (n := match fwrite_short e (clock w) with
            | Some k => (k `min` length buf')%nat
            | None => length buf'
            end).
  eexists _, _. split; [done|]. split.
  - intros Hnf. apply bool_decide_eq_true. unfold n. rewrite Hnf.
    by rewrite Hperm.
  - intros Hret. apply bool_decide_eq_true in Hret.
    rewrite take_ge by (rewrite Hret, Hperm; done).
    done.
Qed.

Lemma sort_read_chunks_loop_spec e obj lines : ∀ buf bufn w fl,
  (0 < thr_count obj)%nat → (0 < buf_nmemb obj)%nat →
  (length buf < buf_nmemb obj)%nat →
  stage_files w 0 fl → length fl = bufn →
  ∃ ret buf' bufn' w',
    sort_read_chunks_loop e obj lines buf bufn w = Ok (ret, buf', bufn', w') ∧
    (no_short_fwrite e → mapM parse_line lines ≠ None → ret = true) ∧
    input w' = input w ∧ (clock w ≤ clock w')%nat ∧
    (∀ s k, s ≠ 0%nat → tmp w' !! (s, k) = tmp w !! (s, k)) ∧
    (ret = true → ∃ vs fl',
       mapM parse_line lines = Some vs ∧
       stage_files w' 0 (fl ++ fl') ∧ bufn' = length (fl ++ fl') ∧
       (∀ k, (bufn' ≤ k)%nat → tmp w' !! (0%nat, k) = tmp w !! (0%nat, k)) ∧
       (length buf' < buf_nmemb obj)%nat ∧
       concat fl' ++ buf' ≡ₚ buf ++ vs ∧
       nonempty_files fl' ∧
       (StronglySorted Z.le (buf ++ vs) →
        sorted_files fl' ∧ StronglySorted Z.le buf')).
Proof.
  induction lines as [|line lines IH];
    intros buf bufn w fl Hthr HB Hbuf Hst Hlen.
  { cbn [sort_read_chunks_loop]. eexists _, _, _, _. split_and!; try done.
    intros _. exists [], []. rewrite !app_nil_r.
    split_and!; try done; [apply Forall_nil_2|].
    intros Hs. split; [apply Forall_nil_2|done]. }
  cbn [sort_read_chunks_loop].
  assert (mapM parse_line (line :: lines)
          = y ← parse_line line; k ← mapM parse_line lines; mret (y :: k))
    as Hm by reflexivity.
  rewrite Hm. clear Hm.
  destruct (Tools.str2int _) as [err|val] eqn:Hparse.
  { assert (parse_line line = None) as ->
      by (unfold parse_line; by rewrite Hparse).
    eexists _, _, _, _. split_and!; try done. }
  assert (parse_line line = Some val) as ->
    by (unfold parse_line; by rewrite Hparse).
  cbn [mbind option_bind].
  case_bool_decide as Hfull.
  - (* the buffer is full *)
    destruct (sort_handle_buf_spec e obj (buf ++ [val]) bufn w)
      as (ret & out & -> & Hok & Hres); [by destruct buf|done|].
    cbn [mbind result_bind]. destruct ret; cbn [negb].
    2:{ eexists _, _, _, _. split_and!; try done; cbn [input tmp clock].
        - intros Hnf _. by apply Hok.
        - lia.
        - intros s k Hs. rewrite lookup_insert_ne by (intros [=]; lia). done. }
    destruct (Hres eq_refl) as [Hperm Hsorted].
    set (w1 := {| input := input w |}).
    destruct (IH [] (S bufn) w1 (fl ++ [out]))
      as (ret & buf' & bufn' & w' & -> & Hok' & Hin' & Hcl' & Hlow' & Hres');
      try done.
    { intros k Hk. rewrite length_app in Hk. cbn [length] in Hk.
      unfold w1; cbn [tmp].
      destruct (decide (k = bufn)) as [->|Hk'].
      - rewrite lookup_insert_eq.
        by rewrite lookup_app_r, Hlen, Nat.sub_diag by lia.
      - rewrite lookup_insert_ne by (intros [=]; lia).
        rewrite lookup_app_l by lia. apply Hst. lia. }
    { rewrite length_app. cbn [length]. lia. }
    eexists _, _, _, _. split_and!; try done.
    + intros Hnf Hp. apply Hok'; [done|].
      destruct (mapM parse_line lines); [done|]. by destruct Hp.
    + unfold w1 in Hcl'; cbn [clock] in Hcl'. lia.
    + intros s k Hs. rewrite Hlow' by done. unfold w1; cbn [tmp].
      by rewrite lookup_insert_ne by (intros [=]; lia).
    + intros ->. destruct (Hres' eq_refl)
        as (vs & fl' & Hvs & Hst' & Hbn' & Hhigh' & Hbuf' & Hperm' & Hne'
            & Hso').
      exists (val :: vs), (out :: fl'). rewrite Hvs.
      rewrite <-app_assoc in Hst', Hbn'. cbn [app] in Hst', Hbn'.
      split_and!; try done.
      * intros k Hk. rewrite Hhigh' by done. unfold w1; cbn [tmp].
        rewrite lookup_insert_ne; [done|].
        rewrite Hbn', length_app in Hk. cbn [length] in Hk.
        intros [=]. lia.
      * cbn [concat]. rewrite <-app_assoc, Hperm', Hperm.
        by rewrite <-app_assoc.
      * constructor; [|done]. intros ->.
        apply Permutation_nil_l in Hperm. by destruct buf.
      * intros Hs.
        assert (StronglySorted Z.le (buf ++ [val]) ∧ StronglySorted Z.le vs)
          as [Hs1 Hs2].
        { change (val :: vs) with ([val] ++ vs) in Hs.
          rewrite app_assoc in Hs.
          split; [by apply StronglySorted_app_1_l in Hs
                 |by apply StronglySorted_app_1_r in Hs]. }
        destruct (Hso' Hs2) as [Ho1 Ho2]. split; [|done].
        constructor; [|done]. by rewrite Hsorted.
  - (* the buffer is not full yet *)
    destruct (IH (buf ++ [val]) bufn w fl)
      as (ret & buf' & bufn' & w' & -> & Hok' & Hin' & Hcl' & Hlow' & Hres');
      try done.
    { rewrite length_app in *. cbn [length] in *. lia. }
    eexists _, _, _, _. split_and!; try done.
    + intros Hnf Hp. apply Hok'; [done|].
      destruct (mapM parse_line lines); [done|]. by destruct Hp.
    + intros ->. destruct (Hres' eq_refl)
        as (vs & fl' & Hvs & Hst' & Hbn' & Hhigh' & Hbuf' & Hperm' & Hne'
            & Hso').
      exists (val :: vs), fl'. rewrite Hvs.
      split_and!; try done.
      * by rewrite Hperm', <-app_assoc.
      * intros Hs. apply Hso'. by rewrite <-app_assoc.
Qed.

Lemma sort_read_chunks_spec e obj w :
  sort_ready obj → tmp w = ∅ →
  ∃ ret obj' w',
    sort_read_chunks e obj w = Ok (ret, obj', w') ∧
    buf_nmemb obj' = buf_nmemb obj ∧ thr_count obj' = thr_count obj ∧
    (no_short_fwrite e → parse_file (input w) ≠ None → ret = true) ∧
    input w' = input w ∧ (clock w ≤ clock w')%nat ∧
    (ret = true → ∃ vs fl,
       parse_file (input w) = Some vs ∧
       stage_files w' 0 fl ∧ length fl = fcount obj' ∧
       concat fl ≡ₚ vs ∧ nonempty_files fl ∧
       (StronglySorted Z.le vs → sorted_files fl) ∧
       tmp_nonempty w').
Proof.
  intros [HB Hthr] Hempty. unfold sort_read_chunks, parse_file.
  assert (0 < buf_nmemb obj)%nat as HB' by (unfold Kmerge.NMERGE in HB; lia).
  destruct (sort_read_chunks_loop_spec e obj (Tools.getlines (input w))
              [] 0 w [])
    as (ret & buf & bufn & w1 & -> & Hok & Hin & Hcl & Hlow & Hres);
    try done.
  { intros k Hk. simpl in Hk. lia. }
  cbn [mbind result_bind]. destruct ret; cbn [negb].
  2:{ eexists _, _, _. split_and!; try done. }
  destruct (Hres eq_refl)
    as (vs & fl & Hvs & Hst & Hbn & Hhigh & Hbuf & Hperm & Hne & Hso).
  cbn [app] in *.
  assert (∀ fl' w', stage_files w' 0 fl' → nonempty_files fl' →
            (∀ s k, s ≠ 0%nat → tmp w' !! (s, k) = None) →
            (∀ k, (length fl' ≤ k)%nat → tmp w' !! (0%nat, k) = None) →
            tmp_nonempty w') as Hnonempty.
  { intros fl' w' Hst' Hne' Hlow' Hhigh' [s k] f Hf.
    destruct (decide (s = 0%nat)) as [->|Hs].
    - destruct (decide (k < length fl')%nat) as [Hk|Hk].
      + rewrite Hst' in Hf by done. unfold nonempty_files in Hne'.
        rewrite Forall_lookup in Hne'. by apply (Hne' k).
      + rewrite Hhigh' in Hf by lia. done.
    - by rewrite Hlow' in Hf. }
  case_bool_decide as Hrem.
  - (* the last, partial buffer *)
    destruct (sort_handle_buf_spec e obj buf bufn w1)
      as (ret & out & -> & Hok2 & Hres2); [by destruct buf|done|].
    cbn [mbind result_bind]. destruct ret; cbn [negb].
    2:{ eexists _, _, _. split_and!; try done; cbn [input clock].
        - intros Hnf _. by apply Hok2.
        - lia. }
    destruct (Hres2 eq_refl) as [Hperm2 Hsorted2].
    eexists _, _, _. split_and!; try done; cbn [input clock]; try lia.
    intros _. exists vs, (fl ++ [out]).
    assert (stage_files
              {| input := input w1;
                 tmp := <[(0%nat, bufn) := out]> (tmp w1);
                 clock := S (clock w1) |} 0 (fl ++ [out])) as Hst'.
    { intros k Hk. rewrite length_app in Hk. cbn [length] in Hk.
      cbn [tmp].
      destruct (decide (k = bufn)) as [->|Hk'].
      - rewrite lookup_insert_eq.
        by rewrite lookup_app_r, Hbn, Nat.sub_diag by lia.
      - rewrite lookup_insert_ne by (intros [=]; lia).
        rewrite lookup_app_l by lia. apply Hst. lia. }
    assert (nonempty_files (fl ++ [out])) as Hne'.
    { apply Forall_app. split; [done|]. constructor; [|done].
      intros ->. apply Permutation_nil_l in Hperm2. by destruct buf. }
    split_and!; try done.
    + rewrite length_app. cbn [length fcount set_fcount]. lia.
    + rewrite concat_app. simpl. by rewrite app_nil_r, Hperm2.
    + intros Hs. destruct (Hso Hs) as [Ho1 Ho2].
      apply Forall_app. split; [done|]. constructor; [|done].
      by rewrite Hsorted2.
    + apply (Hnonempty (fl ++ [out])); try done; cbn [tmp].
      * intros s k Hs. rewrite lookup_insert_ne by (intros [=]; lia).
        by rewrite Hlow, Hempty.
      * intros k Hk. rewrite length_app in Hk. cbn [length] in Hk.
        rewrite lookup_insert_ne by (intros [=]; lia).
        by rewrite Hhigh, Hempty by lia.
  - eexists _, _, _. split_and!; try done.
    intros _. exists vs, fl.
    assert (buf = []) as -> by (by destruct buf).
    rewrite app_nil_r in Hperm.
    split_and!; try done.
    + intros Hs. by destruct (Hso Hs).
    + apply (Hnonempty fl); try done.
      * intros s k Hs. by rewrite Hlow, Hempty.
      * intros k Hk. by rewrite Hhigh, Hempty by lia.
Qed.

(** With a chunk sorter that sorts, every chunk file is sorted. *)
Lemma sort_handle_buf_sorted e obj buf bufn w w' :
  chunk_sorter_sorts (thr_count obj) → tmp_sorted w →
  sort_handle_buf e obj buf bufn w = Ok (true, w') → tmp_sorted w'.
Proof.
  intros Hsorts Htmp. unfold sort_handle_buf.
  destruct (Pmsort.pmsort_sort buf (length buf) (thr_count obj))
    as [buf'|] eqn:Hsort; [|done].
  cbn [asserted mbind result_bind]. unfold fwrite. cbn [app].
  intros [= Hret <-].
  unfold tmp_sorted. cbn [tmp]. apply map_Forall_insert_2; [|done].
  apply Hsorts in Hsort. by apply (StronglySorted_take_drop buf' 0).
Qed.

Lemma sort_read_chunks_loop_sorted e obj lines : ∀ buf bufn w buf' bufn' w',
  chunk_sorter_sorts (thr_count obj) → tmp_sorted w →
  sort_read_chunks_loop e obj lines buf bufn w = Ok (true, buf', bufn', w') →
  tmp_sorted w'.
Proof.
  induction lines as [|line lines IH]; intros buf bufn w buf' bufn' w' Hs Htmp.
  { cbn [sort_read_chunks_loop]. by intros [= _ _ <-]. }
  cbn [sort_read_chunks_loop].
  destruct (Tools.str2int _) as [err|val]; [done|].
  case_bool_decide; [|by apply IH].
  destruct (sort_handle_buf e obj (buf ++ [val]) bufn w)
    as [[[] w1]|] eqn:Hbuf; cbn [mbind result_bind negb]; [|done|done].
  apply IH; [done|]. by eapply sort_handle_buf_sorted.
Qed.

Lemma sort_read_chunks_sorted e obj w obj' w' :
  chunk_sorter_sorts (thr_count obj) → tmp_sorted w →
  sort_read_chunks e obj w = Ok (true, obj', w') → tmp_sorted w'.
Proof.
  intros Hs Htmp. unfold sort_read_chunks.
  destruct (sort_read_chunks_loop e obj _ [] 0 w)
    as [[[[[] buf] bufn] w1]|] eqn:Hloop; cbn [mbind result_bind negb];
    [|done|done].
  apply sort_read_chunks_loop_sorted in Hloop; [|done|done].
  case_bool_decide.
  - destruct (sort_handle_buf e obj buf bufn w1)
      as [[[] w2]|] eqn:Hbuf; cbn [mbind result_bind negb]; [|done|done].
    intros [= _ <-]. by eapply sort_handle_buf_sorted.
  - by intros [= _ <-].
Qed.

Lemma stage_files_sorted w s fl :
  tmp_sorted w → stage_files w s fl → sorted_files fl.
Proof.
  intros Htmp Hst. apply Forall_lookup. intros i f Hf.
  apply (Htmp (s, i)). rewrite Hst; [done|]. by eapply lookup_lt_Some.
Qed.

(** ** Write-back *)

Lemma sort_write_items_spec e items fout t :
  no_short_fprintf e →
  sort_write_items e items fout t
  = ((fout +:+ render items)%string, (t + length items)%nat).
Proof.
  intros Hnf. revert fout t.
  induction items as [|v items IH]; intros fout t.
  { simpl. by rewrite string_app_nil_r, Nat.add_0_r. }
  cbn [sort_write_items]. rewrite IH. unfold Tools.fprintf_int.
  rewrite Hnf. cbn [render length]. fold (render_line v).
  rewrite string_app_assoc. f_equal. lia.
Qed.

Lemma sort_write_items_clock e items fout t :
  (sort_write_items e items fout t).2 = (t + length items)%nat.
Proof.
  revert fout t. induction items as [|v items IH]; intros fout t.
  { simpl. lia. }
  cbn [sort_write_items]. rewrite IH. simpl. lia.
Qed.

Lemma render_app vs1 vs2 :
  render (vs1 ++ vs2) = (render vs1 +:+ render vs2)%string.
Proof.
  induction vs1 as [|v vs1 IH]; [done|].
  simpl. by rewrite IH, string_app_assoc.
Qed.

Lemma sort_write_output_loop_spec e fuel n fmerged fout t :
  (length fmerged < fuel)%nat → (0 < n)%nat →
  ∃ text t',
    sort_write_output_loop e fuel n fmerged fout t = Ok (text, t') ∧
    (no_short_fprintf e → text = (fout +:+ render fmerged)%string).
Proof.
  intros Hfuel Hn. revert fmerged fout t Hfuel.
  induction fuel as [|fuel IH]; intros fmerged fout t Hfuel; [lia|].
  cbn [sort_write_output_loop]. unfold fread.
  destruct (sort_write_items e (take n fmerged) fout t) as [fout1 t1] eqn:Hw.
  case_bool_decide as Hlen.
  - destruct (IH (drop n fmerged) fout1 t1) as (text & t' & -> & Hres).
    { rewrite length_drop.
      destruct fmerged; [by rewrite take_nil in Hlen|]. simpl in *. lia. }
    eexists _, _. split; [done|]. intros Hnf.
    rewrite (Hres Hnf). rewrite sort_write_items_spec in Hw by done.
    injection Hw as <- _.
    rewrite <-(take_drop n fmerged) at 3.
    by rewrite render_app, string_app_assoc.
  - eexists _, _. split; [done|]. intros Hnf.
    rewrite sort_write_items_spec in Hw by done. injection Hw as <- _.
    assert (fmerged = []) as ->.
    { destruct fmerged; [done|]. destruct n; [lia|]. simpl in Hlen. lia. }
    by rewrite take_nil.
Qed.

Lemma sort_write_output_spec e obj name w merged :
  (0 < buf_nmemb obj)%nat → tmp w !! name = Some merged →
  ∃ w',
    sort_write_output e obj name w = Ok w' ∧
    (no_short_fprintf e → input w' = render merged).
Proof.
  intros HB Hname. unfold sort_write_output, Kmerge.xfopen_tmp.
  rewrite Hname. cbn [mbind result_bind].
  destruct (sort_write_output_loop_spec e (S (length merged)) (buf_nmemb obj)
              merged EmptyString (clock w))
    as (text & t' & -> & Hres); [lia|done|].
  cbn [mbind result_bind]. eexists. split; [done|].
  intros Hnf. cbn [input]. by rewrite (Hres Hnf).
Qed.

(** ** The whole sort *)

Lemma sort_sort_spec e obj w :
  sort_ready obj → input w ≠ EmptyString →
  ∃ ret w',
    sort_sort e obj w = Ok (ret, w') ∧
    (mkdtemp_ok e = true → no_short_fwrite e →
     parse_file (input w) ≠ None → ret = true) ∧
    (ret = false → input w' = input w) ∧
    (ret = true → ∃ vs out,
       parse_file (input w) = Some vs ∧ out ≡ₚ vs ∧
       (StronglySorted Z.le vs → out = vs) ∧
       (no_short_fprintf e → input w' = render out) ∧
       (chunk_sorter_sorts (thr_count obj) → StronglySorted Z.le out)) ∧
    (mkdtemp_ok e = true → tmp w' = ∅).
Proof.
  intros Hready Hin. unfold sort_sort, sort_create_tmp_dir.
  destruct (mkdtemp_ok e) eqn:Hmk; cbn [negb].
  2:{ eexists _, _. split_and!; done. }
  destruct (sort_read_chunks_spec e obj (set_tmp w ∅))
    as (ret & obj1 & w1 & Hread & HB1 & Hthr1 & Hok1 & Hin1 & Hcl1 & Hres1);
    [done|done|].
  rewrite Hread.
  cbn [mbind result_bind]. destruct ret; cbn [negb].
  2:{ eexists _, _. split_and!; first [done|by intros _ Hnf Hp; apply Hok1]. }
  destruct (Hres1 eq_refl)
    as (vs & fl & Hvs & Hst & Hlen & Hperm & Hne & Hso & Htmp).
  cbn [input set_tmp] in Hvs, Hin1.
  assert (vs ≠ []) as Hvs_ne.
  { intros ->. unfold parse_file in Hvs.
    pose proof (getlines_nonempty (input w) Hin) as Hl.
    destruct (Tools.getlines (input w)) as [|l ls]; [done|].
    change (mapM parse_line (l :: ls))
      with (x ← parse_line l; k ← mapM parse_line ls; mret (x :: k)) in Hvs.
    destruct (parse_line l); [|done].
    cbn [mbind option_bind] in Hvs. by destruct (mapM parse_line ls). }
  assert (0 < fcount obj1)%nat as Hfc.
  { rewrite <-Hlen. destruct fl; [|simpl; lia].
    simpl in Hperm. apply Permutation_nil_l in Hperm. done. }
  destruct Hready as [HB Hthr].
  destruct (kmerge_merge_spec e (fcount obj1) (buf_nmemb obj1) w1 fl)
    as (ret & name & w2 & -> & Hok2 & Hin2 & Hcl2 & Hres2); try done.
  { by rewrite HB1. }
  cbn [mbind result_bind]. destruct ret; cbn [negb].
  2:{ eexists _, _. split_and!;
        first [done|by intros _ Hnf _; apply Hok2
              |intros _; cbn [sort_remove_tmp_dir set_tmp input]; congruence]. }
  destruct (Hres2 eq_refl) as (merged & Hname & Hperm2 & Hso2 & _).
  destruct (sort_write_output_spec e obj1 name w2 merged)
    as (w3 & -> & Hout); [rewrite HB1; unfold Kmerge.NMERGE in HB; lia|done|].
  cbn [mbind result_bind]. eexists _, _. split_and!; try done.
  intros _. exists vs, merged.
  split_and!; [done|by rewrite Hperm2| |done|].
  - intros Hs. apply (StronglySorted_unique Z.le); [by apply Hso2, Hso|done|].
    by rewrite Hperm2.
  - intros Hsorts. apply Hso2. apply (stage_files_sorted w1 0); [|done].
    eapply sort_read_chunks_sorted; [done| |done].
    intros k f Hf. cbn [tmp set_tmp] in Hf. by rewrite lookup_empty in Hf.
Qed.

(** On an empty file [sort_sort] runs into [assert(fcount > 0)] of
    [kmerge_merge]. *)
Lemma sort_sort_empty e obj w :
  mkdtemp_ok e = true → input w = EmptyString →
  sort_sort e obj w = Err AssertFailed.
Proof.
  intros Hmk Hin. unfold sort_sort, sort_create_tmp_dir. rewrite Hmk.
  cbn [negb]. unfold sort_read_chunks. cbn [input set_tmp]. rewrite Hin.
  done.
Qed.

End sort_facts.

(** * The claims of the specification *)

(** ** C5: the heap *)

Section heap_claims.
Import Heap.

(** C5: [heap_insert], when [count < capacity], and [heap_pop], when
    [count > 0], succeed and keep the min-heap invariant
    [arr[parent(i)].key <= arr[i].key] for all [0 < i < count]; the insert
    adds exactly the new element, the pop removes exactly the element it
    returns, and the key of that element is minimal among the keys stored. *)
Theorem heap_insert_pop_keep_min_heap obj :
  heap_inv obj →
  (∀ el, (count obj < capacity obj)%nat →
     ∃ obj', heap_insert obj el = Some obj' ∧ heap_inv obj' ∧
             count obj' = S (count obj) ∧
             elements obj' ≡ₚ el :: elements obj) ∧
  ((0 < count obj)%nat →
     ∃ el obj', heap_pop obj = Some (el, obj') ∧ heap_inv obj' ∧
                S (count obj') = count obj ∧
                el :: elements obj' ≡ₚ elements obj ∧
                ∀ x, x ∈ elements obj → key el ≤ key x).
Proof.
  intros Hinv. split.
  - intros el Hc. eexists. split; [by apply heap_insert_Some|].
    pose proof (heap_insert_Some obj el Hc) as Hins.
    destruct (heap_insert_wf _ _ _ (proj1 Hinv) Hins) as (Hwf & _ & Hcnt & Hp).
    split_and!; [split; [done|]|done|done].
    by eapply heap_insert_ordered.
  - intros Hc. pose proof (heap_pop_Some obj Hc) as Hpop.
    eexists _, _. split; [done|].
    destruct (heap_pop_wf _ _ _ (proj1 Hinv) Hpop) as (Hwf & _ & Hcnt & _ & Hp).
    split_and!; [split; [done|]|done|done|].
    + by eapply heap_pop_ordered.
    + by eapply heap_pop_min.
Qed.

Lemma heap_insert_pop_keep_min_heap_example :
  (∀ el, (count heap_of_three < capacity heap_of_three)%nat →
     ∃ obj', heap_insert heap_of_three el = Some obj' ∧ heap_inv obj' ∧
             count obj' = S (count heap_of_three) ∧
             elements obj' ≡ₚ el :: elements heap_of_three) ∧
  ((0 < count heap_of_three)%nat →
     ∃ el obj', heap_pop heap_of_three = Some (el, obj') ∧ heap_inv obj' ∧
                S (count obj') = count heap_of_three ∧
                el :: elements obj' ≡ₚ elements heap_of_three ∧
                ∀ x, x ∈ elements heap_of_three → key el ≤ key x).
Proof.
  apply heap_insert_pop_keep_min_heap.
  split; [split; [reflexivity|simpl; lia]|].
  intros i Hi. simpl in Hi.
  assert (i = 1 ∨ i = 2)%nat as [->| ->] by lia; vm_compute; discriminate.
Defined.

End heap_claims.

(** ** C4, C7: the merge of one group of files *)

Section merge_claims.
Import Kmerge.

Lemma merge_reaches_wf e m st0 st :
  merge_wf m m st0 → merge_reaches e st0 st → merge_wf m m st.
Proof.
  intros Hwf. induction 1 as [|st st' _ IH Hne Hturn]; [done|].
  destruct (turn_spec e m st IH Hne)
    as (el & q & ok & st1 & Hpop & Hturn' & _ & _ & Hres).
  rewrite Hturn in Hturn'. injection Hturn' as <- <-.
  destruct (Hres eq_refl) as [Heff _]. by eapply turn_effect_wf.
Qed.

(** C4: when no [fwrite] is short, the merge of a group of at most 16
    sorted non-empty files returns [true] and writes the one file
    [stage + 1, outn]; this file is in non-decreasing order, holds exactly
    the items of the input files, and its length is the sum of their
    lengths. *)
Theorem kmerge_merge_files_sorted_output e obj fs stage outn w :
  no_short_fwrite e →
  (length fs ≤ NMERGE)%nat → nonempty_files fs → sorted_files fs →
  idle_queue obj → (NMERGE < buf_nmemb obj)%nat →
  ∃ obj' out w',
    kmerge_merge_files e obj fs stage outn w = Ok (true, obj', w') ∧
    tmp w' = <[(S stage, outn) := out]> (tmp w) ∧
    StronglySorted Z.le out ∧ out ≡ₚ concat fs ∧
    length out = sum_list (length <$> fs).
Proof.
  intros Hnf Hm Hne Hso (Hinv & Hcap & Hcnt) Hbuf.
  destruct (merge_files_spec e obj fs stage outn w Hm Hne Hbuf Hinv Hcap Hcnt)
    as (ret & obj' & out & w' & Heq & Hok & _ & _ & Htmp & _ & _ & Hres).
  assert (ret = true) as -> by (by apply Hok).
  exists obj', out, w'. destruct (Hres eq_refl) as (Hperm & Hsorted & _).
  split_and!; [done|done|by apply Hsorted|done|].
  rewrite Hperm. clear. induction fs as [|f fs IH]; [done|].
  simpl. by rewrite length_app, IH.
Qed.

Lemma kmerge_merge_files_sorted_output_example :
  ∃ obj' out w',
    kmerge_merge_files env_ideal
      {| fcount := 3; buf_nmemb := 34; queue := Heap.heap_new NMERGE |}
      [[1; 4; 7]; [2; 5]; [0; 9]] 0 0 (world_of EmptyString)
      = Ok (true, obj', w') ∧
    tmp w' = <[(1%nat, 0%nat) := out]> (tmp (world_of EmptyString)) ∧
    StronglySorted Z.le out ∧
    out ≡ₚ concat [[1; 4; 7]; [2; 5]; [0; 9]] ∧
    length out = sum_list (length <$> [[1; 4; 7]; [2; 5]; [0; 9]]).
Proof.
  apply kmerge_merge_files_sorted_output.
  - intros t. reflexivity.
  - vm_compute. lia.
  - repeat constructor; discriminate.
  - repeat constructor; vm_compute; discriminate.
  - apply heap_new_idle.
  - vm_compute. lia.
Defined.

(** C7: in the merge of a group of [m <= 16] non-empty files, priming the
    queue succeeds, and in every state the loop of [kmerge_merge_blocks]
    reaches, the queue holds at most one element per input file, hence at
    most [m] elements, and the next turn of the loop returns: neither the
    overflow assertion of [heap_insert] nor any other one fails. *)
Theorem merge_queue_holds_one_per_input e obj fs c :
  (length fs ≤ NMERGE)%nat → nonempty_files fs →
  idle_queue obj → (NMERGE < buf_nmemb obj)%nat →
  ∃ st0,
    prime_blocks (length fs)
      (merge_start obj fs (buf_nmemb obj / (NMERGE + 1)) c)
      (buf_nmemb obj / (NMERGE + 1)) 0 = Ok st0 ∧
    ∀ st, merge_reaches e st0 st →
      NoDup (Heap.idx <$> queued st) ∧
      (∀ el, el ∈ queued st → (Heap.idx el < length fs)%nat) ∧
      (Heap.count (st_queue st) ≤ length fs)%nat ∧
      (Heap.count (st_queue st) ≤ Heap.capacity (st_queue st))%nat ∧
      (Heap.heap_empty (st_queue st) = false →
       ∃ ok st', kmerge_merge_blocks_turn e st = Ok (ok, st')).
Proof.
  intros Hm Hne (Hinv & Hcap & Hcnt) Hbuf.
  assert (0 < buf_nmemb obj / (NMERGE + 1))%nat as Hbs.
  { apply Nat.div_str_pos. unfold NMERGE in *. lia. }
  destruct (merge_start_wf (queue obj) fs (buf_nmemb obj / (NMERGE + 1)) c
              Hm Hbs Hinv Hcap Hcnt) as (Hwf & Hem & _ & _).
  destruct (prime_spec (length fs) 0 (length fs) _
              (buf_nmemb obj / (NMERGE + 1)) Hwf eq_refl)
    as (st0 & Hprime & Hwf0 & _); [|done|done|].
  { intros j Hj. cbn [st_fs]. unfold nonempty_files in Hne.
    rewrite Forall_lookup in Hne. apply (Hne j).
    apply list_lookup_lookup_total_lt. lia. }
  exists st0. split; [done|]. intros st Hreach.
  pose proof (merge_reaches_wf e _ _ _ Hwf0 Hreach) as Hwf1.
  pose proof (merge_wf_count _ _ _ Hwf1) as Hc.
  split_and!.
  - apply Hwf1.
  - apply Hwf1.
  - done.
  - rewrite (wf_cap _ _ _ Hwf1). lia.
  - intros Hq. destruct (turn_spec e _ st Hwf1 Hq)
      as (el & q & ok & st' & _ & Hturn & _). eauto.
Qed.

Lemma merge_queue_holds_one_per_input_example :
  ∃ st0,
    prime_blocks 3
      (merge_start
         {| fcount := 3; buf_nmemb := 34; queue := Heap.heap_new NMERGE |}
         [[1; 4; 7]; [2; 5]; [0; 9]] (34 / (NMERGE + 1)) 0)
      (34 / (NMERGE + 1)) 0 = Ok st0 ∧
    ∀ st, merge_reaches env_ideal st0 st →
      NoDup (Heap.idx <$> queued st) ∧
      (∀ el, el ∈ queued st → (Heap.idx el < 3)%nat) ∧
      (Heap.count (st_queue st) ≤ 3)%nat ∧
      (Heap.count (st_queue st) ≤ Heap.capacity (st_queue st))%nat ∧
      (Heap.heap_empty (st_queue st) = false →
       ∃ ok st', kmerge_merge_blocks_turn env_ideal st = Ok (ok, st')).
Proof.
  apply (merge_queue_holds_one_per_input env_ideal
           {| fcount := 3; buf_nmemb := 34;
              queue := Heap.heap_new NMERGE |}
           [[1; 4; 7]; [2; 5]; [0; 9]] 0).
  - vm_compute. lia.
  - repeat constructor; discriminate.
  - apply heap_new_idle.
  - vm_compute. lia.
Defined.

End merge_claims.

(** ** C3: the sort of one chunk *)

Section pmsort_claims.
Import Pmsort.

(** C3 (what the code does instead): with 5 items and 3 threads, [npt = 1]
    and [offset = 2]; the last thread sorts [arr[2..4]], but the cascade of
    [pmsort_merge_array_sections] only merges [arr[0..3]]: the right bound
    [3] of its last section is below [len], so it is not clamped to
    [len - 1], and [arr[4]] stays where the last thread left it. *)
Theorem pmsort_sort_leaves_tail_unmerged :
  pmsort_sort [10; 11; 1; 2; 3] 5 3 = Some [1; 2; 10; 11; 3] ∧
  nondecreasingb [1; 2; 10; 11; 3] = false.
Proof. by vm_compute. Qed.

End pmsort_claims.

(** ** C1, C2, C8, C9, C10: the sorter *)

Section sort_claims.
Import Sort.

(** C1 (what the code does instead): a run with a buffer of 1 MiB and 3
    threads on the file with the lines 10, 11, 1, 2, 3 returns [true] and
    leaves the file with the lines 1, 2, 10, 11, 3, which are not in
    non-decreasing order. *)
Theorem sort_sort_output_not_sorted :
  ∃ w',
    sort_sort env_ideal
      {| buf_nmemb := 2 ^ 18; thr_count := 3; fcount := 0 |}
      (world_of (render [10; 11; 1; 2; 3])) = Ok (true, w') ∧
    input w' = render [1; 2; 10; 11; 3] ∧
    parse_file (input w') = Some [1; 2; 10; 11; 3] ∧
    nondecreasingb [1; 2; 10; 11; 3] = false.
Proof.
  exists {| input := render [1; 2; 10; 11; 3]; tmp := ∅; clock := 6 |}.
  vm_compute. done.
Qed.

(** C2 (what the code does instead): [sort_write_output] prints the merged
    file with [fprintf] and does not look at what the calls return. Here
    the file holds the lines 25, 13 and 7, the buffer is of 1 MiB, and the
    text file takes the first line of the write-back only: the run returns
    [true] and leaves a file with the single line 7, one line where there
    were three, and not the integers of the input. *)
Theorem sort_sort_short_fprintf_loses_items :
  ∃ w',
    sort_sort env_fprintf_one_line
      {| buf_nmemb := 2 ^ 18; thr_count := 1; fcount := 0 |}
      (world_of (render [25; 13; 7])) = Ok (true, w') ∧
    parse_file (render [25; 13; 7]) = Some [25; 13; 7] ∧
    input w' = render [7] ∧ parse_file (input w') = Some [7] ∧
    ¬ [7] ≡ₚ [25; 13; 7] ∧
    length (Tools.getlines (input w')) = 1%nat ∧
    length (Tools.getlines (render [25; 13; 7])) = 3%nat.
Proof.
  exists {| input := render [7]; tmp := ∅; clock := 4 |}.
  split_and!; try (vm_compute; reflexivity).
  intros Hperm. apply Permutation_length in Hperm. discriminate.
Qed.

(** C8 (what the code does instead): [sort_write_output] returns nothing and
    does not look at what [fprintf] returns. Here no [fprintf] of the
    write-back transfers a byte: [sort_sort] returns [true], [main] exits
    with code 0, and the input file ends up empty. *)
Theorem write_back_failure_not_reported :
  ∃ w',
    sort_sort env_fprintf_fails
      {| buf_nmemb := 2 ^ 18; thr_count := 1; fcount := 0 |}
      (world_of (render [2; 1])) = Ok (true, w') ∧
    Main.main env_fprintf_fails
      {| Main.buf_size := 1; Main.thr_count := 1 |}
      (world_of (render [2; 1])) = Ok (Main.EXIT_SUCCESS, w') ∧
    parse_file (render [2; 1]) = Some [2; 1] ∧
    input w' = EmptyString.
Proof.
  exists {| input := EmptyString; tmp := ∅; clock := 3 |}.
  vm_compute. done.
Qed.

(** C9 (what the code does instead): the file with the two lines [1] and
    [2], the second one without a newline at its end, is sorted; the run
    succeeds and adds the missing newline, so the bytes of the file
    change. *)
Lemma sorted_file_bytes_change :
  ∃ w',
    sort_sort env_ideal sort_small
      (world_of ("1" +:+ nl +:+ "2")) = Ok (true, w') ∧
    parse_file ("1" +:+ nl +:+ "2") = Some [1; 2] ∧
    input w' = ("1" +:+ nl +:+ "2" +:+ nl)%string ∧
    input w' ≠ input (world_of ("1" +:+ nl +:+ "2")).
Proof.
  exists {| input := render [1; 2]; tmp := ∅; clock := 3 |}.
  vm_compute. done.
Qed.

(** C9, amended: a non-empty file is left byte for byte as it was when its
    lines are in non-decreasing order and it is written the way the sorter
    writes it: every line is what [%d] prints for an [int] value, followed
    by a newline. For such a file, if the temp directory can be created and
    no write is short, the run succeeds and the file has the same bytes
    after it. *)
Theorem sort_sort_sorted_canonical_file_unchanged e obj w vs :
  sort_ready obj → mkdtemp_ok e = true →
  no_short_fwrite e → no_short_fprintf e →
  vs ≠ [] → Forall int32 vs → StronglySorted Z.le vs →
  input w = render vs →
  ∃ w', sort_sort e obj w = Ok (true, w') ∧ input w' = input w.
Proof.
  intros Hready Hmk Hnw Hnp Hne H32 Hsorted Hin.
  assert (input w ≠ EmptyString) as Hin'.
  { rewrite Hin. destruct vs as [|v vs]; [done|]. apply render_nonempty. }
  pose proof (parse_file_render vs H32) as Hparse. rewrite <-Hin in Hparse.
  destruct (sort_sort_spec e obj w Hready Hin')
    as (ret & w' & Heq & Hok & _ & Hres & _).
  assert (ret = true) as -> by (apply Hok; [done|done|by rewrite Hparse]).
  exists w'. split; [done|].
  destruct (Hres eq_refl) as (vs' & out & Hvs' & _ & Hid & Hout & _).
  rewrite Hparse in Hvs'. injection Hvs' as <-.
  by rewrite (Hout Hnp), (Hid Hsorted).
Qed.

Lemma sort_sort_sorted_canonical_file_unchanged_example :
  ∃ w',
    sort_sort env_ideal {| buf_nmemb := 17; thr_count := 2; fcount := 0 |}
      (world_of (render [-3; 0; 0; 12])) = Ok (true, w') ∧
    input w' = input (world_of (render [-3; 0; 0; 12])).
Proof.
  apply (sort_sort_sorted_canonical_file_unchanged env_ideal
           {| buf_nmemb := 17; thr_count := 2; fcount := 0 |}
           (world_of (render [-3; 0; 0; 12])) [-3; 0; 0; 12]).
  - split; vm_compute; lia.
  - reflexivity.
  - intros t. reflexivity.
  - intros t. reflexivity.
  - discriminate.
  - repeat constructor; vm_compute; discriminate.
  - repeat constructor; vm_compute; discriminate.
  - reflexivity.
Defined.

(** C10: on a non-empty input file, when no [fwrite] is short, [sort_sort]
    returns to its caller: no assertion fails and no block is read beyond
    what was loaded into it, in particular not when the queue of a group
    merge is primed. [sort_read_chunks] returns, with [true] when every line
    is an integer; when it returns [true] it has written at least one file
    and none of the files of the temp directory is empty; the merge then
    returns [true], and again no file of the temp directory is empty,
    whatever the stage that wrote it. *)
Theorem temp_files_are_never_empty e obj w :
  sort_ready obj → input w ≠ EmptyString → no_short_fwrite e →
  (∃ ret w', sort_sort e obj w = Ok (ret, w')) ∧
  ∃ ret obj1 w1,
    sort_read_chunks e obj (set_tmp w ∅) = Ok (ret, obj1, w1) ∧
    (parse_file (input w) ≠ None → ret = true) ∧
    (ret = true →
       (0 < fcount obj1)%nat ∧ tmp_nonempty w1 ∧
       ∃ name w2 merged,
         Kmerge.kmerge_merge e (fcount obj1) (buf_nmemb obj1) w1
           = Ok (true, name, w2) ∧
         tmp_nonempty w2 ∧ tmp w2 !! name = Some merged).
Proof.
  intros Hready Hin Hnf. split.
  { destruct (sort_sort_spec e obj w Hready Hin) as (ret & w' & Heq & _).
    eauto. }
  destruct (sort_read_chunks_spec e obj (set_tmp w ∅) Hready eq_refl)
    as (ret & obj1 & w1 & Heq & HB1 & _ & Hok & _ & _ & Hres).
  exists ret, obj1, w1. split; [done|]. split; [by apply Hok|]. intros Hret.
  destruct (Hres Hret) as (vs & fl & Hvs & Hst & Hlen & Hperm & Hne & _ & Htmp).
  cbn [input set_tmp] in Hvs.
  assert (0 < fcount obj1)%nat as Hfc.
  { rewrite <-Hlen. apply length_mapM in Hvs.
    pose proof (getlines_nonempty (input w) Hin) as Hl.
    destruct fl as [|f fl]; [|simpl; lia].
    simpl in Hperm. apply Permutation_nil_l in Hperm. subst vs.
    by destruct (Tools.getlines (input w)). }
  destruct Hready as [HB _].
  destruct (kmerge_merge_spec e (fcount obj1) (buf_nmemb obj1) w1 fl)
    as (ret2 & name & w2 & Heq2 & Hok2 & _ & _ & Hres2); try done.
  { by rewrite HB1. }
  assert (ret2 = true) as -> by (by apply Hok2).
  split_and!; [done|done|].
  destruct (Hres2 eq_refl) as (merged & Hname & _ & _ & Hne2).
  exists name, w2, merged. split_and!; [done|by apply Hne2|done].
Qed.

Lemma temp_files_are_never_empty_example :
  (∃ ret w',
     sort_sort env_ideal sort_small
       (world_of (render twenty)) = Ok (ret, w')) ∧
  ∃ ret obj1 w1,
    sort_read_chunks env_ideal
      sort_small
      (set_tmp (world_of (render twenty)) ∅) = Ok (ret, obj1, w1) ∧
    (parse_file (input (world_of (render twenty))) ≠ None → ret = true) ∧
    (ret = true →
       (0 < fcount obj1)%nat ∧ tmp_nonempty w1 ∧
       ∃ name w2 merged,
         Kmerge.kmerge_merge env_ideal (fcount obj1) (buf_nmemb obj1) w1
           = Ok (true, name, w2) ∧
         tmp_nonempty w2 ∧ tmp w2 !! name = Some merged).
Proof.
  apply temp_files_are_never_empty.
  - split; vm_compute; lia.
  - vm_compute. discriminate.
  - intros t. reflexivity.
Defined.

End sort_claims.

(** * Further properties of the code *)

(** ** algo/pmsort.c *)

Section pmsort_more.
Import Pmsort.

Lemma pmsort_merge_loop_StronglySorted la ra :
  StronglySorted Z.le la → StronglySorted Z.le ra →
  StronglySorted Z.le (pmsort_merge_loop la ra).
Proof.
  revert ra. induction la as [|x la IH]; intros ra Hla Hra;
    [by rewrite pmsort_merge_loop_nil_l|].
  induction ra as [|y ra IHr]; [done|].
  apply StronglySorted_inv in Hla as [Hla Hx].
  apply StronglySorted_inv in Hra as [Hra Hy].
  cbn [pmsort_merge_loop]. destruct (Z.leb_spec x y) as [Hxy|Hxy].
  - constructor; [apply IH; [done|by constructor]|].
    rewrite pmsort_merge_loop_perm. apply Forall_app. split; [done|].
    constructor; [done|]. eapply Forall_impl; [exact Hy|].
    intros z Hz. simpl in Hz. lia.
  - change (StronglySorted Z.le (y :: pmsort_merge_loop (x :: la) ra)).
    constructor; [apply IHr; done|].
    rewrite pmsort_merge_loop_perm. apply Forall_app. split; [|done].
    constructor; [lia|]. eapply Forall_impl; [exact Hx|].
    intros z Hz. simpl in Hz. lia.
Qed.

(** [pmsort_merge] on an array seen as four parts: the two sections are
    replaced by their merge, the rest of the array is not touched. *)
Lemma pmsort_merge_app pre s1 s2 post :
  s1 ≠ [] →
  pmsort_merge (pre ++ s1 ++ s2 ++ post) (length pre)
    (length pre + length s1 - 1) (length pre + length s1 + length s2 - 1)
  = pre ++ pmsort_merge_loop s1 s2 ++ post.
Proof.
  intros Hne. assert (0 < length s1)%nat by (destruct s1; [done|simpl; lia]).
  unfold pmsort_merge.
  replace (length pre + length s1 - 1 - length pre + 1)%nat
    with (length s1) by lia.
  replace (length pre + length s1 + length s2 - 1
           - (length pre + length s1 - 1))%nat with (length s2) by lia.
  replace (length pre + length s1 - 1 + 1)%nat
    with (length pre + length s1)%nat by lia.
  rewrite drop_app_length, take_app_length.
  rewrite <-drop_drop, drop_app_length, drop_app_length, take_app_length.
  rewrite list_inserts_middle.
  - rewrite take_app_length. do 2 f_equal.
    rewrite pmsort_merge_loop_perm, length_app.
    rewrite <-drop_drop, drop_app_length.
    rewrite (app_assoc s1 s2 post), <-(length_app s1 s2).
    by rewrite drop_app_length.
  - rewrite pmsort_merge_loop_perm, !length_app. lia.
Qed.

(** [pmsort_merge_sort] sorts the range it is given and leaves the rest of
    the array as it is; the fuel of the embedding is enough for it. *)
Lemma pmsort_merge_sort_rec_app fuel : ∀ pre seg post,
  seg ≠ [] → (length seg ≤ fuel)%nat →
  ∃ seg',
    pmsort_merge_sort_rec fuel (pre ++ seg ++ post) (length pre)
      (length pre + length seg - 1) = pre ++ seg' ++ post ∧
    seg' ≡ₚ seg ∧ StronglySorted Z.le seg'.
Proof.
  induction fuel as [|fuel IH]; intros pre seg post Hne Hfuel.
  { destruct seg; [done|simpl in Hfuel; lia]. }
  cbn [pmsort_merge_sort_rec].
  assert (0 < length seg)%nat as Hlen by (destruct seg; [done|simpl; lia]).
  case_bool_decide as Hlt.
  2:{ exists seg. split_and!; [done|done|].
      destruct seg as [|x [|y seg]]; [done| |simpl in Hlt; lia].
      repeat constructor. }
  set (k := S ((length seg - 1) / 2)).
  assert (k < length seg)%nat as Hk.
  { unfold k. pose proof (Nat.Div0.div_le_upper_bound (length seg - 1) 2
      (length seg - 1)). assert ((length seg - 1) / 2 < length seg - 1)%nat;
      [apply Nat.div_lt; lia|lia]. }
  assert (length (take k seg) = k) as Hl1 by (rewrite length_take; lia).
  assert (length (drop k seg) = (length seg - k)%nat) as Hl2
    by (by rewrite length_drop).
  assert (take k seg ≠ []) as Hne1
    by (intros Heq; rewrite Heq in Hl1; simpl in Hl1; lia).
  assert (drop k seg ≠ []) as Hne2
    by (intros Heq; rewrite Heq in Hl2; simpl in Hl2; lia).
  replace (pre ++ seg ++ post)
    with (pre ++ take k seg ++ drop k seg ++ post)
    by (by rewrite (app_assoc (take k seg)), take_drop).
  replace (length pre + (length pre + length seg - 1 - length pre) / 2)%nat
    with (length pre + length (take k seg) - 1)%nat
    by (rewrite Hl1; unfold k;
        replace (length pre + length seg - 1 - length pre)%nat
          with (length seg - 1)%nat by lia; lia).
  destruct (IH pre (take k seg) (drop k seg ++ post) Hne1 ltac:(lia))
    as (s1 & -> & Hp1 & Hs1).
  assert (length s1 = k) as Hl1' by (by rewrite Hp1).
  replace (length pre + length (take k seg) - 1 + 1)%nat
    with (length (pre ++ s1)) by (rewrite length_app; lia).
  replace (length pre + length seg - 1)%nat
    with (length (pre ++ s1) + length (drop k seg) - 1)%nat
    by (rewrite length_app; lia).
  rewrite (app_assoc pre s1).
  destruct (IH (pre ++ s1) (drop k seg) post Hne2 ltac:(lia))
    as (s2 & -> & Hp2 & Hs2).
  assert (length s2 = (length seg - k)%nat) as Hl2' by (by rewrite Hp2).
  rewrite <-(app_assoc pre s1).
  replace (length (pre ++ s1)) with (length pre + length s1)%nat
    by (by rewrite length_app).
  replace (length pre + length (take k seg) - 1)%nat
    with (length pre + length s1 - 1)%nat by lia.
  replace (length pre + length s1 + length (drop k seg) - 1)%nat
    with (length pre + length s1 + length s2 - 1)%nat by lia.
  rewrite pmsort_merge_app by (intros ->; simpl in Hl1'; lia).
  eexists. split; [done|]. split.
  - by rewrite pmsort_merge_loop_perm, Hp1, Hp2, take_drop.
  - by apply pmsort_merge_loop_StronglySorted.
Qed.

(** *** Sorted ranges are left as they are *)

Lemma pmsort_merge_sort_rec_sorted_range fuel pre seg post :
  seg ≠ [] → (length seg ≤ fuel)%nat → StronglySorted Z.le seg →
  pmsort_merge_sort_rec fuel (pre ++ seg ++ post) (length pre)
    (length pre + length seg - 1) = pre ++ seg ++ post.
Proof.
  intros Hne Hfuel Hs.
  destruct (pmsort_merge_sort_rec_app fuel pre seg post Hne Hfuel)
    as (seg' & -> & Hperm & Hs').
  by rewrite (StronglySorted_unique Z.le seg' seg).
Qed.

Lemma pmsort_merge_sorted_range pre seg post k :
  (0 < k ≤ length seg)%nat → StronglySorted Z.le seg →
  pmsort_merge (pre ++ seg ++ post) (length pre) (length pre + k - 1)
    (length pre + length seg - 1) = pre ++ seg ++ post.
Proof.
  intros Hk Hs.
  transitivity (pmsort_merge (pre ++ take k seg ++ drop k seg ++ post)
                  (length pre) (length pre + length (take k seg) - 1)
                  (length pre + length (take k seg) + length (drop k seg) - 1)).
  { rewrite length_take, length_drop. f_equal; [|lia|lia].
    by rewrite (app_assoc (take k seg)), take_drop. }
  rewrite pmsort_merge_app
    by (intros Heq; apply (f_equal length) in Heq;
        rewrite length_take in Heq; simpl in Heq; lia).
  rewrite pmsort_merge_loop_sorted by (by rewrite take_drop).
  by rewrite take_drop.
Qed.

(** *** The threads *)

Lemma pmsort_thread_merge_sort_range obj pre seg post id :
  (0 < npt obj)%nat → seg ≠ [] → length pre = (id * npt obj)%nat →
  length seg = (if bool_decide (id = num_threads obj - 1)%nat
                then npt obj + offset obj else npt obj)%nat →
  ∃ seg',
    pmsort_thread_merge_sort obj (pre ++ seg ++ post) id = pre ++ seg' ++ post ∧
    seg' ≡ₚ seg ∧ StronglySorted Z.le seg'.
Proof.
  intros Hnpt Hne Hpre Hseg.
  assert (0 < length seg)%nat as Hlen by (destruct seg; [done|simpl; lia]).
  unfold pmsort_thread_merge_sort.
  set (right := if bool_decide (id = num_threads obj - 1)%nat
                then ((id + 1) * npt obj - 1 + offset obj)%nat
                else ((id + 1) * npt obj - 1)%nat).
  assert (right = length pre + length seg - 1)%nat as Hright.
  { unfold right. rewrite Hseg, Hpre. case_bool_decide; lia. }
  clearbody right. subst right. rewrite <-Hpre. clear Hseg.
  destruct (decide (length pre < length pre + length seg - 1)%nat)
    as [Hlt|Hlt].
  2:{ rewrite bool_decide_eq_false_2 by done.
      exists seg. split_and!; [done|done|].
      destruct seg as [|x [|y seg]]; [done| |simpl in Hlt; lia].
      repeat constructor. }
  rewrite bool_decide_eq_true_2 by done.
  unfold pmsort_merge_sort.
  destruct (pmsort_merge_sort_rec_app
              (S (length pre + length seg - 1 - length pre)) pre seg post
              Hne ltac:(lia)) as (seg' & -> & Hperm & Hs).
  assert (length seg' = length seg) as Hlen' by (by rewrite Hperm).
  exists seg'. split_and!; [|done|done].
  destruct seg' as [|x seg'']; [cbn [length] in Hlen'; lia|].
  assert (seg'' ≠ []) as Hne''
    by (intros ->; cbn [length] in Hlen'; lia).
  transitivity (pmsort_merge (pre ++ (x :: seg'') ++ post) (length pre)
                  (length pre + S ((length pre + length seg - 1
                                    - length pre) / 2) - 1)
                  (length pre + length (x :: seg'') - 1)).
  { f_equal; [|lia|cbn [length] in *; lia].
    transitivity (pmsort_merge_sort_rec
                    (S (length pre + length seg - 1 - (length pre + 1)))
                    ((pre ++ [x]) ++ seg'' ++ post) (length (pre ++ [x]))
                    (length (pre ++ [x]) + length seg'' - 1)).
    { f_equal; [by rewrite <-app_assoc|by rewrite length_app
               |rewrite length_app; cbn [length] in *; lia]. }
    rewrite pmsort_merge_sort_rec_sorted_range;
      [by rewrite <-app_assoc|done|cbn [length] in *; lia|].
    by apply StronglySorted_inv in Hs as [? _]. }
  apply pmsort_merge_sorted_range; [|done].
  split; [lia|]. cbn [length] in *.
  assert ((length pre + length seg - 1 - length pre) / 2
          ≤ length pre + length seg - 1 - length pre)%nat
    by (apply Nat.Div0.div_le_upper_bound; lia).
  lia.
Qed.

Lemma sorted_blocks_length bsz bl :
  sorted_blocks bsz bl → length (concat bl) = (length bl * bsz)%nat.
Proof.
  induction 1 as [|b bl [Hb _] _ IH]; [done|].
  simpl. rewrite length_app, IH, Hb. lia.
Qed.

Lemma sorted_blocks_snoc bsz bl b :
  sorted_blocks bsz bl → length b = bsz → StronglySorted Z.le b →
  sorted_blocks bsz (bl ++ [b]).
Proof. intros. apply Forall_app. split; [done|]. by constructor. Qed.

Lemma pmsort_run_threads_blocks obj n : ∀ j done raw,
  (0 < npt obj)%nat → (j + S n = num_threads obj)%nat →
  sorted_blocks (npt obj) done → length done = j →
  length raw = (S n * npt obj + offset obj)%nat →
  ∃ bl O,
    foldl (pmsort_thread_merge_sort obj) (concat done ++ raw) (seq j (S n))
    = concat bl ++ O ∧
    sorted_blocks (npt obj) bl ∧ length bl = num_threads obj ∧
    StronglySorted Z.le O ∧ length O = offset obj.
Proof.
  induction n as [|n IH]; intros j done raw Hnpt Hj Hdone Hlen Hraw.
  - cbn [seq foldl].
    destruct (pmsort_thread_merge_sort_range obj (concat done) raw [] j)
      as (seg' & Heq & Hperm & Hs); [done| | | |].
    { intros ->. simpl in Hraw. lia. }
    { rewrite (sorted_blocks_length _ _ Hdone). by rewrite Hlen. }
    { rewrite bool_decide_eq_true_2 by lia. lia. }
    rewrite !app_nil_r in Heq. rewrite Heq.
    assert (length seg' = (npt obj + offset obj)%nat) as Hlen'
      by (rewrite Hperm; lia).
    exists (done ++ [take (npt obj) seg']), (drop (npt obj) seg').
    rewrite <-(take_drop (npt obj) seg') in Hs.
    split_and!.
    + rewrite concat_app. simpl. rewrite app_nil_r, <-app_assoc.
      by rewrite take_drop.
    + apply sorted_blocks_snoc; [done|rewrite length_take; lia|].
      by apply StronglySorted_app_1_l in Hs.
    + rewrite length_app. simpl. lia.
    + by apply StronglySorted_app_1_r in Hs.
    + rewrite length_drop. lia.
  - change (seq j (S (S n))) with (j :: seq (S j) (S n)). cbn [foldl].
    destruct (pmsort_thread_merge_sort_range obj (concat done)
                (take (npt obj) raw) (drop (npt obj) raw) j)
      as (seg' & Heq & Hperm & Hs); [done| | | |].
    { intros Hnil. apply (f_equal length) in Hnil.
      rewrite length_take in Hnil. simpl in Hnil. lia. }
    { rewrite (sorted_blocks_length _ _ Hdone). by rewrite Hlen. }
    { rewrite bool_decide_eq_false_2 by lia. rewrite length_take. lia. }
    rewrite take_drop in Heq. rewrite Heq.
    assert (length seg' = npt obj) as Hlen'
      by (rewrite Hperm, length_take; lia).
    destruct (IH (S j) (done ++ [seg']) (drop (npt obj) raw))
      as (bl & O & Heq2 & Hbl & Hlbl & HO & HlO); try done.
    + lia.
    + by apply sorted_blocks_snoc.
    + rewrite length_app. simpl. lia.
    + rewrite length_drop. lia.
    + exists bl, O. split_and!; try done.
      rewrite <-Heq2. f_equal. rewrite concat_app. simpl.
      by rewrite app_nil_r, <-app_assoc.
Qed.

(** *** The cascade *)

Lemma orphan_fits_small number : ∀ bsz o,
  (0 < number)%nat → (o ≤ bsz)%nat → orphan_fits number bsz o.
Proof.
  induction (lt_wf number) as [number _ IH]. intros bsz o Hpos Ho.
  destruct (decide (number `mod` 2 = 1)%nat) as [Hodd|Heven].
  - by apply orphan_fits_odd.
  - assert (number `mod` 2 = 0)%nat as Hev.
    { pose proof (Nat.mod_upper_bound number 2). lia. }
    apply orphan_fits_even; [done|].
    assert (2 ≤ number)%nat.
    { destruct number as [|[|?]]; [lia|simpl in Hev; lia|lia]. }
    apply IH; [apply Nat.div_lt; lia|apply Nat.div_str_pos; lia|lia].
Qed.

Lemma orphan_fits_pow2 j : ∀ m bsz o,
  (m `mod` 2 = 1)%nat → (o ≤ 2 ^ j * bsz)%nat →
  orphan_fits (2 ^ j * m) bsz o.
Proof.
  induction j as [|j IH]; intros m bsz o Hm Ho.
  - rewrite Nat.pow_0_r, Nat.mul_1_l in *. by apply orphan_fits_odd.
  - assert (2 ^ S j * m = 2 * (2 ^ j * m))%nat as Heq
      by (rewrite Nat.pow_succ_r'; lia).
    rewrite Heq. apply orphan_fits_even.
    + by rewrite Nat.mul_comm, Nat.Div0.mod_mul.
    + rewrite Nat.mul_comm, Nat.div_mul by lia. apply IH; [done|].
      rewrite Nat.pow_succ_r' in Ho. lia.
Qed.

Lemma pmsort_sections_loop_blocks obj number agg bsz O fuel :
  ∀ done rest,
  bsz = (npt obj * agg)%nat → (0 < bsz)%nat →
  sorted_blocks (2 * bsz) done → sorted_blocks bsz rest →
  StronglySorted Z.le O →
  (length done * 2 + length rest = number)%nat →
  len obj = length (concat done ++ concat rest ++ O) →
  (length rest ≤ 2 * fuel)%nat →
  (length rest `mod` 2 = 1 → length O ≤ bsz)%nat →
  ∃ done' O',
    pmsort_sections_loop fuel obj (concat done ++ concat rest ++ O)
      number agg (length done * 2) = concat done' ++ O' ∧
    sorted_blocks (2 * bsz) done' ∧ length done' = (number / 2)%nat ∧
    StronglySorted Z.le O' ∧
    (length rest `mod` 2 = 0 → O' = O)%nat ∧
    (length rest `mod` 2 = 1 → length O' ≤ 2 * bsz)%nat.
Proof.
  induction fuel as [|fuel IH];
    intros done rest Hbsz Hpos Hdone Hrest HO Hnum Hlen Hfuel Hodd.
  { destruct rest; [|cbn [length] in Hfuel; lia].
    cbn [concat app length] in *.
    exists done, O. split_and!; [done|done| |done|done|].
    - rewrite <-Hnum, Nat.add_0_r, Nat.div_mul by lia. done.
    - intros Hm. vm_compute in Hm. done. }
  cbn [pmsort_sections_loop].
  pose proof (sorted_blocks_length _ _ Hdone) as Hldone.
  destruct rest as [|b1 [|b2 rest]].
  - rewrite bool_decide_eq_false_2 by (cbn [length] in Hnum; lia).
    cbn [concat app length] in *. exists done, O.
    split_and!; [done|done| |done|done|].
    + rewrite <-Hnum, Nat.add_0_r, Nat.div_mul by lia. done.
    + intros Hm. vm_compute in Hm. done.
  - (* the last section has no partner: it is merged with what follows *)
    rewrite bool_decide_eq_true_2 by (cbn [length] in Hnum; lia).
    apply Forall_inv in Hrest as [Hb1 Hs1].
    specialize (Hodd eq_refl).
    rewrite !length_app in Hlen. cbn [concat length] in Hlen.
    rewrite app_nil_r in Hlen.
    set (right := if bool_decide _ then _ else _).
    assert (right = length (concat done) + length b1 + length O - 1)%nat
      as Hright.
    { unfold right. subst bsz. case_bool_decide; lia. }
    clearbody right. subst right.
    assert (pmsort_merge (concat done ++ concat [b1] ++ O)
              (length done * 2 * (npt obj * agg))
              (length done * 2 * (npt obj * agg) + npt obj * agg - 1)
              (length (concat done) + length b1 + length O - 1)
            = concat done ++ pmsort_merge_loop b1 O ++ []) as ->.
    { transitivity (pmsort_merge (concat done ++ b1 ++ O ++ [])
                      (length (concat done))
                      (length (concat done) + length b1 - 1)
                      (length (concat done) + length b1 + length O - 1)).
      { f_equal; [by cbn [concat]; rewrite !app_nil_r|subst bsz; lia
                 |subst bsz; lia]. }
      apply pmsort_merge_app. intros ->. cbn [length] in Hb1. lia. }
    rewrite app_nil_r.
    exists done, (pmsort_merge_loop b1 O).
    split_and!.
    + destruct fuel; [done|]. cbn [pmsort_sections_loop].
      by rewrite bool_decide_eq_false_2 by (cbn [length] in Hnum; lia).
    + done.
    + cbn [length] in Hnum. rewrite <-Hnum.
      replace (length done * 2 + 1)%nat with (1 + length done * 2)%nat
        by lia.
      rewrite Nat.div_add by lia. done.
    + by apply pmsort_merge_loop_StronglySorted.
    + intros Hm. vm_compute in Hm. done.
    + intros _. rewrite pmsort_merge_loop_perm, length_app. lia.
  - (* two sections are merged into one *)
    rewrite bool_decide_eq_true_2 by (cbn [length] in Hnum; lia).
    apply Forall_inv_tail in Hrest as Hrest'.
    apply Forall_inv in Hrest as [Hb1 Hs1].
    apply Forall_inv_tail in Hrest' as Hrest''.
    apply Forall_inv in Hrest' as [Hb2 Hs2].
    pose proof (sorted_blocks_length _ _ Hrest'') as Hlrest.
    rewrite !length_app in Hlen. cbn [concat] in Hlen.
    rewrite !length_app in Hlen. cbn [length] in Hnum, Hfuel.
    rewrite bool_decide_eq_false_2 by (subst bsz; lia).
    assert (pmsort_merge (concat done ++ concat (b1 :: b2 :: rest) ++ O)
              (length done * 2 * (npt obj * agg))
              (length done * 2 * (npt obj * agg) + npt obj * agg - 1)
              ((length done * 2 + 2) * npt obj * agg - 1)
            = concat done ++ pmsort_merge_loop b1 b2 ++ concat rest ++ O)
      as ->.
    { transitivity (pmsort_merge (concat done ++ b1 ++ b2 ++ concat rest ++ O)
                      (length (concat done))
                      (length (concat done) + length b1 - 1)
                      (length (concat done) + length b1 + length b2 - 1)).
      { f_equal; [by cbn [concat]; rewrite <-!app_assoc|subst bsz; lia
                 |subst bsz; lia|subst bsz; lia]. }
      apply pmsort_merge_app. intros ->. cbn [length] in Hb1. lia. }
    assert (length (b1 :: b2 :: rest) `mod` 2 = length rest `mod` 2)%nat
      as Hpar.
    { cbn [length].
      replace (S (S (length rest))) with (length rest + 1 * 2)%nat by lia.
      by rewrite Nat.Div0.mod_add. }
    rewrite Hpar in Hodd. rewrite Hpar.
    destruct (IH (done ++ [pmsort_merge_loop b1 b2]) rest)
      as (done' & O' & Heq & Hdone' & Hl' & HO' & Hev' & Hodd'); try done.
    + apply sorted_blocks_snoc; [done| |].
      * rewrite pmsort_merge_loop_perm, length_app. lia.
      * by apply pmsort_merge_loop_StronglySorted.
    + rewrite length_app. cbn [length]. lia.
    + rewrite concat_app, !length_app. cbn [concat].
      rewrite app_nil_r, pmsort_merge_loop_perm, !length_app. lia.
    + lia.
    + exists done', O'. split_and!; try done.
      rewrite <-Heq. rewrite length_app. cbn [length].
      replace ((length done + 1) * 2)%nat with (length done * 2 + 2)%nat
        by lia.
      f_equal. rewrite concat_app. cbn [concat].
      by rewrite app_nil_r, <-!app_assoc.
Qed.

Lemma pmsort_merge_array_sections_rec_blocks obj fuel :
  ∀ number agg bl O,
  (0 < npt obj)%nat → (0 < agg)%nat → (0 < number ≤ fuel)%nat →
  sorted_blocks (npt obj * agg) bl → length bl = number →
  StronglySorted Z.le O →
  len obj = length (concat bl ++ O) →
  orphan_fits number (npt obj * agg) (length O) →
  StronglySorted Z.le
    (pmsort_merge_array_sections_rec fuel obj (concat bl ++ O) number agg).
Proof.
  induction fuel as [|fuel IH];
    intros number agg bl O Hnpt Hagg Hnum Hbl Hlbl HO Hlen Hfits; [lia|].
  cbn [pmsort_merge_array_sections_rec].
  assert (0 < npt obj * agg)%nat as Hpos by nia.
  assert (length bl `mod` 2 = 1 → length O ≤ npt obj * agg)%nat as Hodd0.
  { intros Hm. rewrite Hlbl in Hm. inversion Hfits; subst; [done|lia]. }
  destruct (pmsort_sections_loop_blocks obj number agg (npt obj * agg) O
              number [] bl eq_refl Hpos (Forall_nil_2 _) Hbl HO
              ltac:(cbn [length]; lia) Hlen ltac:(lia) Hodd0)
    as (done' & O' & Heq & Hdone' & Hl' & HO' & Hev & Hodd).
  cbn [concat app length] in Heq. rewrite Nat.mul_0_l in Heq.
  rewrite Heq.
  assert (len obj = length (concat done' ++ O')) as Hlen'.
  { rewrite <-Heq, pmsort_sections_loop_perm by done. done. }
  case_bool_decide as Hhalf.
  - apply IH; try done.
    + lia.
    + assert (number / 2 < number)%nat by (apply Nat.div_lt; lia). lia.
    + by replace (npt obj * (agg * 2))%nat with (2 * (npt obj * agg))%nat
        by lia.
    + replace (npt obj * (agg * 2))%nat with (2 * (npt obj * agg))%nat
        by lia.
      destruct (decide (number `mod` 2 = 1)%nat) as [Hm|Hm].
      * apply orphan_fits_small; [lia|]. apply Hodd. by rewrite Hlbl.
      * assert (number `mod` 2 = 0)%nat as Hm0.
        { pose proof (Nat.mod_upper_bound number 2). lia. }
        rewrite Hev by (by rewrite Hlbl).
        inversion Hfits; subst; [lia|done].
  - assert (number / 2 = 0)%nat as Hzero by lia.
    rewrite Hzero in Hl'. destruct done'; [|done]. done.
Qed.

(** *** [pmsort_sort] *)

Lemma pmsort_threads_perm obj l : ∀ arr,
  foldl (pmsort_thread_merge_sort obj) arr l ≡ₚ arr.
Proof.
  induction l as [|i l IH]; intros arr; [done|].
  cbn [foldl]. by rewrite IH, pmsort_thread_merge_sort_perm.
Qed.

Lemma pmsort_sort_sorts_when arr num_threads :
  arr ≠ [] → (0 < num_threads)%nat →
  orphan_fits (num_threads `min` length arr)
    (length arr / (num_threads `min` length arr))
    (length arr `mod` (num_threads `min` length arr)) →
  ∃ arr', pmsort_sort arr (length arr) num_threads = Some arr' ∧
          arr' ≡ₚ arr ∧ StronglySorted Z.le arr'.
Proof.
  intros Hne Hthr Hfits.
  destruct (pmsort_sort_Some arr (length arr) num_threads)
    as (arr' & Heq & Hperm & _); [destruct arr; [done|simpl; lia]|done|].
  exists arr'. split_and!; [done|done|].
  assert (0 < length arr)%nat by (destruct arr; [done|simpl; lia]).
  unfold pmsort_sort in Heq.
  rewrite !bool_decide_eq_false_2 in Heq by lia.
  case_bool_decide as Hone.
  { injection Heq as <-.
    destruct arr as [|x [|y arr]]; [done| |simpl in Hone; lia].
    repeat constructor. }
  set (T := if bool_decide (length arr < num_threads)%nat
            then length arr else num_threads) in *.
  assert (T = num_threads `min` length arr)%nat as HT.
  { unfold T. destruct (decide (length arr < num_threads)%nat).
    - rewrite bool_decide_eq_true_2 by done. lia.
    - rewrite bool_decide_eq_false_2 by done. lia. }
  rewrite <-HT in Hfits.
  assert (0 < T ≤ length arr)%nat as HT' by lia.
  assert (0 < length arr / T)%nat as Hnpt by (apply Nat.div_str_pos; lia).
  set (obj := {| len := length arr; num_threads := T;
                 npt := (length arr / T)%nat;
                 offset := (length arr `mod` T)%nat |}) in *.
  assert ((if bool_decide (T = 1%nat)
           then pmsort_thread_merge_sort obj arr 0
           else pmsort_run_threads obj arr)
          = foldl (pmsort_thread_merge_sort obj) arr (seq 0 T)) as Hthreads.
  { destruct (decide (T = 1%nat)) as [HT1|HT1].
    - rewrite bool_decide_eq_true_2 by done. by rewrite HT1.
    - by rewrite bool_decide_eq_false_2 by done. }
  rewrite Hthreads in Heq.
  destruct T as [|n]; [lia|].
  assert (length arr = S n * npt obj + offset obj)%nat as Hsplit.
  { change (npt obj) with (length arr / S n)%nat.
    change (offset obj) with (length arr `mod` S n)%nat.
    pose proof (Nat.div_mod_eq (length arr) (S n)). lia. }
  destruct (pmsort_run_threads_blocks obj n 0 [] arr Hnpt eq_refl
              (Forall_nil_2 _) eq_refl Hsplit)
    as (bl & O & Hrun & Hbl & Hlbl & HO & HlO).
  cbn [concat app] in Hrun. rewrite Hrun in Heq.
  injection Heq as <-. unfold pmsort_merge_array_sections.
  change (length bl = S n) in Hlbl.
  change (length O = (length arr `mod` S n)%nat) in HlO.
  apply pmsort_merge_array_sections_rec_blocks;
    [done|lia|lia|by rewrite Nat.mul_1_r|done|done| |].
  - change (len obj) with (length arr).
    by rewrite <-Hrun, pmsort_threads_perm.
  - rewrite Nat.mul_1_r, HlO. done.
Qed.

Lemma power_of_two_sorts k : chunk_sorter_sorts (2 ^ k).
Proof.
  intros arr arr' Hsort.
  destruct (decide (arr = [])) as [->|Hne]; [done|].
  assert (0 < length arr)%nat by (destruct arr; [done|simpl; lia]).
  assert (0 < 2 ^ k)%nat as Hpow by (apply Nat.neq_0_lt_0, Nat.pow_nonzero; lia).
  destruct (pmsort_sort_sorts_when arr (2 ^ k) Hne Hpow)
    as (arr1 & Heq & _ & Hs).
  - destruct (decide (length arr < 2 ^ k)%nat) as [Hlt|Hge].
    + rewrite Nat.min_r by lia. rewrite Nat.Div0.mod_same.
      apply orphan_fits_small; lia.
    + rewrite Nat.min_l by lia.
      replace (2 ^ k)%nat with (2 ^ k * 1)%nat at 1 by lia.
      apply orphan_fits_pow2; [done|].
      pose proof (Nat.mod_upper_bound (length arr) (2 ^ k) ltac:(lia)).
      assert (0 < length arr / 2 ^ k)%nat by (apply Nat.div_str_pos; lia).
      nia.
  - rewrite Hsort in Heq. by injection Heq as ->.
Qed.

(** X1: for a non-empty array and at least one thread, [pmsort_sort]
    returns, and the array it leaves holds the items it was given: it is a
    permutation of the initial one, of the same length. *)
Theorem pmsort_sort_permutes arr num_threads :
  arr ≠ [] → (0 < num_threads)%nat →
  ∃ arr', pmsort_sort arr (length arr) num_threads = Some arr' ∧
          arr' ≡ₚ arr ∧ length arr' = length arr.
Proof.
  intros Hne Hthr.
  destruct (pmsort_sort_Some arr (length arr) num_threads)
    as (arr' & Heq & Hperm & _); [destruct arr; [done|simpl; lia]|done|].
  exists arr'. split_and!; [done|done|by rewrite Hperm].
Qed.

Lemma pmsort_sort_permutes_example :
  ∃ arr', pmsort_sort [10; 11; 1; 2; 3] (length [10; 11; 1; 2; 3]) 3
            = Some arr' ∧
          arr' ≡ₚ [10; 11; 1; 2; 3] ∧
          length arr' = length [10; 11; 1; 2; 3].
Proof. apply pmsort_sort_permutes; [discriminate|lia]. Defined.

(** X2: [pmsort_sort] leaves an array that is already sorted as it is,
    whatever the number of threads. *)
Theorem pmsort_sort_keeps_sorted_array arr num_threads :
  arr ≠ [] → (0 < num_threads)%nat → StronglySorted Z.le arr →
  pmsort_sort arr (length arr) num_threads = Some arr.
Proof.
  intros Hne Hthr Hs.
  destruct (pmsort_sort_Some arr (length arr) num_threads)
    as (arr' & Heq & _ & Hid); [destruct arr; [done|simpl; lia]|done|].
  by rewrite Heq, (Hid Hs).
Qed.

Lemma pmsort_sort_keeps_sorted_array_example :
  pmsort_sort [1; 2; 2; 5; 9] (length [1; 2; 2; 5; 9]) 3
  = Some [1; 2; 2; 5; 9].
Proof.
  apply pmsort_sort_keeps_sorted_array; [discriminate|lia|].
  repeat constructor; vm_compute; discriminate.
Defined.

(** X3: when [pmsort_sort] sorts. Let [T] be the number of threads used
    (the smaller of [num_threads] and [len]), [npt = len / T] and
    [offset = len mod T]. If [T = 2^j * m] with [m] odd and
    [offset <= 2^j * npt], the array [pmsort_sort] leaves is a permutation
    of the initial one in non-decreasing order. This is the case whenever
    [T] is a power of two (one thread included), and whenever [T] divides
    [len]. *)
Theorem pmsort_sort_sorts_if_tail_fits arr num_threads j m :
  arr ≠ [] → (0 < num_threads)%nat →
  (num_threads `min` length arr = 2 ^ j * m)%nat → (m `mod` 2 = 1)%nat →
  (length arr `mod` (num_threads `min` length arr)
   ≤ 2 ^ j * (length arr / (num_threads `min` length arr)))%nat →
  ∃ arr', pmsort_sort arr (length arr) num_threads = Some arr' ∧
          arr' ≡ₚ arr ∧ StronglySorted Z.le arr'.
Proof.
  intros Hne Hthr HT Hm Hoff.
  apply pmsort_sort_sorts_when; [done|done|].
  rewrite HT at 1. by apply orphan_fits_pow2.
Qed.

Lemma pmsort_sort_sorts_if_tail_fits_example :
  ∃ arr', pmsort_sort [10; 11; 1; 2; 3] (length [10; 11; 1; 2; 3]) 4
            = Some arr' ∧
          arr' ≡ₚ [10; 11; 1; 2; 3] ∧ StronglySorted Z.le arr'.
Proof.
  apply (pmsort_sort_sorts_if_tail_fits [10; 11; 1; 2; 3] 4 2 1).
  - discriminate.
  - lia.
  - reflexivity.
  - reflexivity.
  - vm_compute. lia.
Defined.

(** X4: [pmsort_merge_sort] on the range [left..right] of an array sorts
    this range and does not touch the items before and after it. *)
Theorem pmsort_merge_sort_sorts_range pre seg post :
  seg ≠ [] →
  ∃ seg',
    pmsort_merge_sort (pre ++ seg ++ post) (length pre)
      (length pre + length seg - 1) = pre ++ seg' ++ post ∧
    seg' ≡ₚ seg ∧ StronglySorted Z.le seg'.
Proof.
  intros Hne. unfold pmsort_merge_sort.
  apply pmsort_merge_sort_rec_app; [done|].
  destruct seg; [done|simpl; lia].
Qed.

Lemma pmsort_merge_sort_sorts_range_example :
  ∃ seg',
    pmsort_merge_sort ([7; 7] ++ [3; 1; 2] ++ [0]) (length [7; 7])
      (length [7; 7] + length [3; 1; 2] - 1) = [7; 7] ++ seg' ++ [0] ∧
    seg' ≡ₚ [3; 1; 2] ∧ StronglySorted Z.le seg'.
Proof. apply pmsort_merge_sort_sorts_range. discriminate. Defined.

(** X5: [pmsort_merge] on two adjacent sorted sections
    [arr[left..middle]] and [arr[middle+1..right]] replaces them by their
    sorted merge, and does not touch the rest of the array. *)
Theorem pmsort_merge_merges_sections pre s1 s2 post :
  s1 ≠ [] → StronglySorted Z.le s1 → StronglySorted Z.le s2 →
  ∃ m,
    pmsort_merge (pre ++ s1 ++ s2 ++ post) (length pre)
      (length pre + length s1 - 1) (length pre + length s1 + length s2 - 1)
    = pre ++ m ++ post ∧
    m ≡ₚ s1 ++ s2 ∧ StronglySorted Z.le m.
Proof.
  intros Hne Hs1 Hs2. exists (pmsort_merge_loop s1 s2).
  split_and!; [by apply pmsort_merge_app|apply pmsort_merge_loop_perm|].
  by apply pmsort_merge_loop_StronglySorted.
Qed.

Lemma pmsort_merge_merges_sections_example :
  ∃ m,
    pmsort_merge ([9] ++ [1; 4] ++ [2; 3; 8] ++ [0]) (length [9])
      (length [9] + length [1; 4] - 1)
      (length [9] + length [1; 4] + length [2; 3; 8] - 1)
    = [9] ++ m ++ [0] ∧
    m ≡ₚ [1; 4] ++ [2; 3; 8] ∧ StronglySorted Z.le m.
Proof.
  apply pmsort_merge_merges_sections; [discriminate| |];
    repeat constructor; vm_compute; discriminate.
Defined.

(** X24: more threads than items are not used: [pmsort_sort] with
    [num_threads > len] does what it does with [num_threads = len]. *)
Theorem pmsort_sort_clamps_threads arr len num_threads :
  (len ≤ num_threads)%nat →
  pmsort_sort arr len num_threads = pmsort_sort arr len len.
Proof.
  intros Hle. unfold pmsort_sort.
  destruct (decide (len = 0)%nat) as [->|Hlen]; [done|].
  assert ((if bool_decide (len < num_threads)%nat then len else num_threads)
          = len) as -> by (case_bool_decide; lia).
  rewrite (bool_decide_eq_false_2 (len < len)%nat) by lia.
  rewrite (bool_decide_eq_false_2 (num_threads = 0)%nat) by lia.
  by rewrite !(bool_decide_eq_false_2 (len = 0)%nat) by done.
Qed.

Lemma pmsort_sort_clamps_threads_example :
  pmsort_sort [3; 1; 2] 3 8 = pmsort_sort [3; 1; 2] 3 3.
Proof. apply pmsort_sort_clamps_threads. lia. Defined.

End pmsort_more.

(** ** algo/heap.c *)

Section heap_more.
Import Heap.

(** X6: two elements popped one after the other from a heap come out in
    non-decreasing order of their keys, and the heap left is again a
    min-heap, with two elements less. *)
Theorem heap_pop_twice_in_order obj :
  heap_inv obj → (2 ≤ count obj)%nat →
  ∃ el1 obj1 el2 obj2,
    heap_pop obj = Some (el1, obj1) ∧ heap_pop obj1 = Some (el2, obj2) ∧
    key el1 ≤ key el2 ∧ heap_inv obj2 ∧
    elements obj ≡ₚ el1 :: el2 :: elements obj2.
Proof.
  intros Hinv Hc.
  pose proof (heap_pop_Some obj ltac:(lia)) as Hpop1.
  destruct (heap_pop_wf _ _ _ (proj1 Hinv) Hpop1)
    as (Hwf1 & _ & Hcnt1 & _ & Hp1).
  pose proof (heap_pop_ordered _ _ _ Hinv Hpop1) as Ho1.
  set (obj1 := heap_heapify_min _ _) in *.
  pose proof (heap_pop_Some obj1 ltac:(lia)) as Hpop2.
  destruct (heap_pop_wf _ _ _ Hwf1 Hpop2) as (Hwf2 & _ & Hcnt2 & _ & Hp2).
  pose proof (heap_pop_ordered _ _ _ (conj Hwf1 Ho1) Hpop2) as Ho2.
  eexists _, obj1, _, _. split_and!; [done|done| |done|].
  - apply (heap_pop_min _ _ _ Hinv Hpop1).
    rewrite <-Hp1, <-Hp2. set_solver.
  - by rewrite <-Hp1, <-Hp2.
Qed.

Lemma heap_pop_twice_in_order_example :
  ∃ el1 obj1 el2 obj2,
    heap_pop heap_of_three = Some (el1, obj1) ∧
    heap_pop obj1 = Some (el2, obj2) ∧
    key el1 ≤ key el2 ∧ heap_inv obj2 ∧
    elements heap_of_three ≡ₚ el1 :: el2 :: elements obj2.
Proof.
  apply heap_pop_twice_in_order.
  - split; [split; [reflexivity|simpl; lia]|].
    intros i Hi. simpl in Hi.
    assert (i = 1 ∨ i = 2)%nat as [->| ->] by lia; vm_compute; discriminate.
  - simpl. lia.
Defined.

(** X7: the assertions of the heap: [heap_create] fails for capacity 0,
    [heap_insert] fails exactly when the heap is full
    ([count >= capacity]), [heap_pop] exactly when it is empty. A heap made
    by [heap_create] is an empty min-heap of the capacity asked for, and
    popping what was inserted into it gives back the element and an empty
    heap. *)
Theorem heap_assertions_and_round_trip cap el :
  heap_create 0 = None ∧
  (∀ obj, heap_insert obj el = None ↔ (capacity obj ≤ count obj)%nat) ∧
  (∀ obj, heap_pop obj = None ↔ count obj = 0%nat) ∧
  ((0 < cap)%nat →
   ∃ h obj obj',
     heap_create cap = Some h ∧ heap_inv h ∧ capacity h = cap ∧
     heap_empty h = true ∧
     heap_insert h el = Some obj ∧ heap_empty obj = false ∧
     heap_pop obj = Some (el, obj') ∧ heap_empty obj' = true).
Proof.
  split_and!.
  - done.
  - intros obj. rewrite heap_insert_None. lia.
  - apply heap_pop_None.
  - intros Hcap. destruct cap as [|cap]; [lia|].
    eexists _, _, _. split_and!.
    + done.
    + split; [split; [apply length_replicate|simpl; lia]|].
      intros i Hi. simpl in Hi. lia.
    + done.
    + done.
    + by rewrite heap_insert_Some by (simpl; lia).
    + done.
    + by rewrite heap_pop_Some by (simpl; lia).
    + done.
Qed.

End heap_more.

(** ** tools.c *)

Section tools_more.
Import Tools.

#[local] Arguments String.append : simpl nomatch.
#[local] Arguments digit_char : simpl never.

(** What [strtol] makes of a printed integer followed by [rest], when
    [rest] does not start with a digit. *)
Lemma strtol_print_int v rest :
  (∀ a, strtol_digits rest a = (a, rest)) →
  ∃ c s,
    (print_int v +:+ rest)%string = String c s ∧ isspace c = false ∧
    strtol (String c s)
    = if LONG_MAX <? v then (LONG_MAX, true, rest)
      else if v <? LONG_MIN then (LONG_MIN, true, rest)
      else (v, false, rest).
Proof.
  intros Hrest. unfold print_int.
  destruct (Z.ltb_spec v 0) as [Hneg|Hpos].
  - destruct (print_digits_spec (Z.to_nat (Z.log2 (Z.abs v))) (- v) EmptyString)
      as (ds & k & Hk & -> & Hne & Hall & Hparse).
    { split; [lia|]. replace (Z.abs v) with (- v) by lia.
      apply pow10_log2. lia. }
    rewrite string_app_nil_r. specialize (Hparse 0 rest).
    rewrite Hrest in Hparse.
    destruct ds as [|c ds]; [done|]. destruct Hall as [(d & Hd & ->) Hall].
    eexists _, _. split; [by rewrite string_app_cons|]. split; [done|].
    rewrite string_app_cons.
    destruct (strtol_digit_head d (ds +:+ rest) Hd) as [_ ->].
    rewrite <-string_app_cons, Hparse.
    replace (0 * 10 ^ k + - v) with (- v) by lia.
    rewrite Z.opp_involutive. cbv zeta iota beta.
    unfold LONG_MAX. rewrite (proj2 (Z.ltb_ge _ _)) by lia. done.
  - destruct (print_digits_spec (Z.to_nat (Z.log2 (Z.abs v))) v EmptyString)
      as (ds & k & Hk & -> & Hne & Hall & Hparse).
    { split; [lia|]. replace (Z.abs v) with v by lia.
      apply pow10_log2. lia. }
    rewrite string_app_nil_r. specialize (Hparse 0 rest).
    rewrite Hrest in Hparse.
    destruct ds as [|c ds]; [done|]. destruct Hall as [(d & Hd & ->) Hall].
    eexists _, _. split; [by rewrite string_app_cons|].
    split; [by destruct (digit_char_spec d Hd) as (_ & _ & -> & _)|].
    destruct (strtol_digit_head d (ds +:+ rest) Hd) as [-> _].
    rewrite <-string_app_cons, Hparse.
    replace (0 * 10 ^ k + v) with v by lia. cbv zeta iota beta.
    unfold LONG_MIN. rewrite (proj2 (Z.ltb_ge v _)) by lia.
    by destruct (LONG_MAX <? v).
Qed.

(** X8: [str2int] reads back what [%d] prints: for every [int] value [v],
    the conversion of the decimal text of [v] succeeds with [v]. *)
Theorem str2int_reads_printed_int v :
  int32 v → str2int (print_int v) = inr v.
Proof. apply str2int_print_int. Qed.

Lemma str2int_reads_printed_int_example :
  str2int (print_int (-2147483648)) = inr (-2147483648).
Proof. apply str2int_reads_printed_int. vm_compute. split; discriminate. Defined.

(** X9: a value [str2int] returns is in the range of [int]. *)
Theorem str2int_result_in_int_range s v :
  str2int s = inr v → INT_MIN ≤ v ≤ INT_MAX.
Proof. apply str2int_int32. Qed.

Lemma str2int_result_in_int_range_example : INT_MIN ≤ 42 ≤ INT_MAX.
Proof. apply (str2int_result_in_int_range "42"). reflexivity. Defined.

(** X10: what [str2int] does not convert: the empty string, a string with
    leading whitespace, and the text of an [int] followed by characters
    that are not part of the number; each gives [EINVAL]. *)
Theorem str2int_rejects_malformed v c s :
  str2int EmptyString = inl EINVAL ∧
  (isspace c = true → str2int (String c s) = inl EINVAL) ∧
  (int32 v → isdigit c = false → c ≠ "000"%char →
   str2int (print_int v +:+ String c s) = inl EINVAL).
Proof.
  split_and!; [done|by unfold str2int; intros ->|].
  unfold int32, INT_MIN, INT_MAX. intros Hv Hc _.
  destruct (strtol_print_int v (String c s)) as (c' & s' & -> & Hsp & Hstrtol).
  { intros a. cbn [strtol_digits]. by rewrite Hc. }
  unfold str2int. rewrite Hsp, Hstrtol.
  unfold LONG_MAX, LONG_MIN, INT_MAX, INT_MIN.
  rewrite (proj2 (Z.ltb_ge _ v)) by lia.
  rewrite (proj2 (Z.ltb_ge v _)) by lia.
  rewrite (proj2 (Z.ltb_ge _ v)) by lia.
  rewrite (proj2 (Z.ltb_ge v _)) by lia. done.
Qed.

(** X11: the decimal text of an integer outside the range of [int] is
    rejected with [ERANGE], also when it is outside the range of [long]. *)
Theorem str2int_rejects_out_of_range v :
  v < INT_MIN ∨ INT_MAX < v → str2int (print_int v) = inl ERANGE.
Proof.
  unfold INT_MIN, INT_MAX. intros Hv.
  destruct (strtol_print_int v EmptyString) as (c' & s' & Heq & Hsp & Hstrtol);
    [done|].
  rewrite string_app_nil_r in Heq. rewrite Heq.
  unfold str2int. rewrite Hsp, Hstrtol.
  unfold LONG_MAX, LONG_MIN, INT_MAX, INT_MIN.
  destruct (Z.ltb_spec 9223372036854775807 v); [done|].
  destruct (Z.ltb_spec v (-9223372036854775808)); [done|].
  destruct (Z.ltb_spec 2147483647 v); [done|].
  destruct (Z.ltb_spec v (-2147483648)); [|lia].
  cbn [orb andb]. done.
Qed.

Lemma str2int_rejects_out_of_range_example :
  str2int (print_int 2147483648) = inl ERANGE.
Proof. apply str2int_rejects_out_of_range. right. reflexivity. Defined.

(** X12: a text file printed from [int] values, one [%d] and a newline
    each, is read back by the line loop of [sort_read_chunks] ([getline],
    removal of the newline, [str2int]) as the same values. *)
Theorem printed_file_reads_back vs :
  Forall int32 vs → parse_file (render vs) = Some vs.
Proof. apply parse_file_render. Qed.

Lemma printed_file_reads_back_example :
  parse_file (render [3; -1; 0]) = Some [3; -1; 0].
Proof.
  apply printed_file_reads_back.
  repeat constructor; vm_compute; discriminate.
Defined.

End tools_more.

(** ** algo/kmerge.c *)

Section kmerge_more.
Import Kmerge.

(** X13: when no [fwrite] is short, [kmerge_merge] on [fcount >= 1]
    non-empty chunk files [0_0 .. 0_(fcount-1)], with a buffer of more than
    16 items, returns [true]; it leaves the text file alone, and the file
    it names holds exactly the items of all the chunk files, in sorted
    order if every chunk file is sorted. (The number of stages and of files
    per stage are taken with their exact values.) *)
Theorem kmerge_merge_merges_all_chunks e fcount buf_nmemb w fl :
  no_short_fwrite e →
  stage_files w 0 fl → length fl = fcount → (0 < fcount)%nat →
  nonempty_files fl → (NMERGE < buf_nmemb)%nat →
  ∃ out w' merged,
    kmerge_merge e fcount buf_nmemb w = Ok (true, out, w') ∧
    input w' = input w ∧
    tmp w' !! out = Some merged ∧ merged ≡ₚ concat fl ∧
    (sorted_files fl → StronglySorted Z.le merged).
Proof.
  intros Hnf Hst Hlen Hfc Hne Hbuf.
  destruct (kmerge_merge_spec e fcount buf_nmemb w fl Hst Hlen Hfc Hne Hbuf)
    as (ret & out & w' & Heq & Hok & Hin & _ & Hres).
  assert (ret = true) as -> by (by apply Hok).
  destruct (Hres eq_refl) as (merged & ? & ? & ? & _).
  by exists out, w', merged.
Qed.

Lemma kmerge_merge_merges_all_chunks_example :
  ∃ out w' merged,
    kmerge_merge env_ideal 2 17 world_two_chunks = Ok (true, out, w') ∧
    input w' = input world_two_chunks ∧
    tmp w' !! out = Some merged ∧ merged ≡ₚ concat [[1; 3]; [2]] ∧
    (sorted_files [[1; 3]; [2]] → StronglySorted Z.le merged).
Proof.
  apply kmerge_merge_merges_all_chunks.
  - intros t. reflexivity.
  - intros i Hi. destruct i as [|[|i]]; [reflexivity|reflexivity|].
    simpl in Hi. lia.
  - reflexivity.
  - lia.
  - repeat constructor; discriminate.
  - vm_compute. lia.
Defined.

(** X14: [kmerge_copy] returns; it succeeds when no [fwrite] is short, and
    when it succeeds the file written is a copy of the file read. *)
Theorem kmerge_copy_copies e obj from t :
  (0 < buf_nmemb obj)%nat →
  ∃ ret to t',
    kmerge_copy e obj from [] t = Ok (ret, to, t') ∧
    (no_short_fwrite e → ret = true) ∧ (ret = true → to = from).
Proof.
  intros Hbuf.
  destruct (kmerge_copy_spec e obj from t Hbuf)
    as (ret & to & t' & Heq & Hok & Hres & _).
  by exists ret, to, t'.
Qed.

Lemma kmerge_copy_copies_example :
  ∃ ret to t',
    kmerge_copy env_ideal
      {| fcount := 1; buf_nmemb := 2; queue := Heap.heap_new NMERGE |}
      [5; 6; 7] [] 0 = Ok (ret, to, t') ∧
    (no_short_fwrite env_ideal → ret = true) ∧ (ret = true → to = [5; 6; 7]).
Proof. apply kmerge_copy_copies. simpl. lia. Defined.

(** X15: with a single chunk file there is no merge stage: [kmerge_merge]
    succeeds at once, names the chunk file [0_0] as the merged file, and
    writes nothing. *)
Theorem kmerge_merge_single_chunk e buf_nmemb w :
  (NMERGE < buf_nmemb)%nat →
  kmerge_merge e 1 buf_nmemb w = Ok (true, (0%nat, 0%nat), w).
Proof.
  intros Hbuf. unfold kmerge_merge.
  rewrite !bool_decide_eq_true_2 by (done || lia). done.
Qed.

Lemma kmerge_merge_single_chunk_example :
  kmerge_merge env_ideal 1 17 world_two_chunks
  = Ok (true, (0%nat, 0%nat), world_two_chunks).
Proof. apply kmerge_merge_single_chunk. vm_compute. lia. Defined.

(** X25: one merge stage. When no [fwrite] is short, [kmerge_merge_stage]
    on the [F] non-empty files of stage [s] returns [true]; it only writes
    files of stage [s + 1]; stage [s + 1] then has [ceil(F / 16)] files,
    none of them empty, which together hold exactly the items of the files
    of stage [s], and which are sorted if those are. *)
Theorem kmerge_merge_stage_groups_by_16 e obj s fl w :
  no_short_fwrite e →
  stage_files w s fl → nonempty_files fl →
  idle_queue obj → (NMERGE < buf_nmemb obj)%nat →
  ∃ obj' w' fl',
    kmerge_merge_stage e obj s (length fl) w = Ok (true, obj', w') ∧
    input w' = input w ∧
    (∀ s' k, s' ≠ S s → tmp w' !! (s', k) = tmp w !! (s', k)) ∧
    stage_files w' (S s) fl' ∧
    length fl' = ((length fl + NMERGE - 1) / NMERGE)%nat ∧
    concat fl' ≡ₚ concat fl ∧ nonempty_files fl' ∧
    (sorted_files fl → sorted_files fl').
Proof.
  intros Hnf Hst Hne Hidle Hbuf.
  destruct (merge_stage_spec e obj s fl w Hst Hne Hidle Hbuf)
    as (ret & obj' & w' & Heq & Hok & Hin & _ & _ & _ & Hlow & Hres).
  assert (ret = true) as -> by (by apply Hok).
  destruct (Hres eq_refl) as (fl' & Hst' & Hlen & _ & Hperm & Hne' & Hso & _).
  exists obj', w', fl'. by split_and!.
Qed.

Lemma kmerge_merge_stage_groups_by_16_example :
  ∃ obj' w' fl',
    kmerge_merge_stage env_ideal
      {| fcount := 2; buf_nmemb := 17; queue := Heap.heap_new NMERGE |}
      0 (length [[1; 3]; [2]]) world_two_chunks = Ok (true, obj', w') ∧
    input w' = input world_two_chunks ∧
    (∀ s' k, s' ≠ 1%nat →
             tmp w' !! (s', k) = tmp world_two_chunks !! (s', k)) ∧
    stage_files w' 1 fl' ∧
    length fl'
    = ((length [[1; 3]; [2]] + NMERGE - 1) / NMERGE)%nat ∧
    concat fl' ≡ₚ concat [[1; 3]; [2]] ∧ nonempty_files fl' ∧
    (sorted_files [[1; 3]; [2]] → sorted_files fl').
Proof.
  apply kmerge_merge_stage_groups_by_16.
  - intros t. reflexivity.
  - intros i Hi. destruct i as [|[|i]]; [reflexivity|reflexivity|].
    simpl in Hi. lia.
  - repeat constructor; discriminate.
  - apply heap_new_idle.
  - vm_compute. lia.
Defined.

End kmerge_more.

(** ** sort.c *)

Section sort_more.
Import Sort.

(** X17: with a number of threads that is a power of two (1, 2, 4, ...)
    the sorter sorts. If the temp directory can be created, no write is
    short and every line of the non-empty input file is an integer,
    [sort_sort] returns [true], removes the temp directory, and leaves a
    file whose lines are the integers of the input file in non-decreasing
    order, each as often as it was there. *)
Theorem sort_sort_power_of_two_threads_sorts e obj w vs k :
  sort_ready obj → thr_count obj = (2 ^ k)%nat →
  mkdtemp_ok e = true → no_short_fwrite e → no_short_fprintf e →
  input w ≠ EmptyString → parse_file (input w) = Some vs →
  ∃ w' out,
    sort_sort e obj w = Ok (true, w') ∧ input w' = render out ∧
    tmp w' = ∅ ∧ out ≡ₚ vs ∧ StronglySorted Z.le out.
Proof.
  intros Hready Hpow Hmk Hnw Hnp Hin Hparse.
  destruct (sort_sort_spec e obj w Hready Hin)
    as (ret & w' & Heq & Hok & _ & Hres & Htmp).
  assert (ret = true) as -> by (apply Hok; [done|done|by rewrite Hparse]).
  destruct (Hres eq_refl) as (vs' & out & Hvs' & Hperm & _ & Hout & Hsorted).
  rewrite Hparse in Hvs'. injection Hvs' as <-.
  exists w', out. split_and!; try done; [by apply Hout|by apply Htmp|].
  apply Hsorted. rewrite Hpow. apply power_of_two_sorts.
Qed.

Lemma sort_sort_power_of_two_threads_sorts_example :
  ∃ w' out,
    sort_sort env_ideal {| buf_nmemb := 17; thr_count := 2; fcount := 0 |}
      (world_of (render [10; 11; 1; 2; 3])) = Ok (true, w') ∧
    input w' = render out ∧ tmp w' = ∅ ∧
    out ≡ₚ [10; 11; 1; 2; 3] ∧ StronglySorted Z.le out.
Proof.
  apply (sort_sort_power_of_two_threads_sorts env_ideal
           {| buf_nmemb := 17; thr_count := 2; fcount := 0 |}
           (world_of (render [10; 11; 1; 2; 3])) [10; 11; 1; 2; 3] 1).
  - split; vm_compute; lia.
  - reflexivity.
  - reflexivity.
  - intros t. reflexivity.
  - intros t. reflexivity.
  - vm_compute. discriminate.
  - vm_compute. reflexivity.
Defined.

(** X18: [sort_sort] on a non-empty file always returns to its caller.
    When it returns [false] the input file is as it was. It returns [false]
    when some line of the file is not an integer, and when no temp
    directory can be created (then nothing at all has changed). Whenever
    the temp directory was created, it is removed at the end. *)
Theorem sort_sort_failure_keeps_file e obj w :
  sort_ready obj → input w ≠ EmptyString →
  ∃ ret w',
    sort_sort e obj w = Ok (ret, w') ∧
    (ret = false → input w' = input w) ∧
    (parse_file (input w) = None → ret = false) ∧
    (mkdtemp_ok e = false → ret = false ∧ w' = w) ∧
    (mkdtemp_ok e = true → tmp w' = ∅).
Proof.
  intros Hready Hin.
  destruct (sort_sort_spec e obj w Hready Hin)
    as (ret & w' & Heq & _ & Hfalse & Hres & Htmp).
  exists ret, w'. split_and!; try done.
  - intros Hparse. destruct ret; [|done].
    destruct (Hres eq_refl) as (vs & _ & Hvs & _). congruence.
  - intros Hmk. unfold sort_sort, sort_create_tmp_dir in Heq.
    rewrite Hmk in Heq. cbn [negb] in Heq. by injection Heq as <- <-.
Qed.

Lemma sort_sort_failure_keeps_file_example :
  ∃ ret w',
    sort_sort env_ideal sort_small (world_of ("1" +:+ nl +:+ "x" +:+ nl))
      = Ok (ret, w') ∧
    (ret = false →
     input w' = input (world_of ("1" +:+ nl +:+ "x" +:+ nl))) ∧
    (parse_file (input (world_of ("1" +:+ nl +:+ "x" +:+ nl))) = None →
     ret = false) ∧
    (mkdtemp_ok env_ideal = false →
     ret = false ∧ w' = world_of ("1" +:+ nl +:+ "x" +:+ nl)) ∧
    (mkdtemp_ok env_ideal = true → tmp w' = ∅).
Proof.
  apply sort_sort_failure_keeps_file.
  - split; vm_compute; lia.
  - vm_compute. discriminate.
Defined.

(** X19: [sort_write_output] returns when the merged file exists, and
    dies in [xfopen] when it does not. It leaves the temp directory as it
    is, and when no [fprintf] is short, the text file it leaves has one
    line for each item of the merged file, in the order of that file. *)
Theorem sort_write_output_prints_merged_file e obj name w :
  (0 < buf_nmemb obj)%nat →
  match tmp w !! name with
  | Some merged =>
    ∃ w', sort_write_output e obj name w = Ok w' ∧ tmp w' = tmp w ∧
          (no_short_fprintf e → input w' = render merged)
  | None => sort_write_output e obj name w = Err Died
  end.
Proof.
  intros HB. destruct (tmp w !! name) as [merged|] eqn:Hname.
  - destruct (sort_write_output_spec e obj name w merged HB Hname)
      as (w' & Heq & Hout).
    exists w'. split_and!; [done| |done].
    unfold sort_write_output, Kmerge.xfopen_tmp in Heq. rewrite Hname in Heq.
    cbn [mbind result_bind] in Heq.
    destruct (sort_write_output_loop _ _ _ _ _ _) as [[fout t]|]; [|done].
    cbn [mbind result_bind] in Heq. by injection Heq as <-.
  - unfold sort_write_output, Kmerge.xfopen_tmp. by rewrite Hname.
Qed.

Lemma sort_write_output_prints_merged_file_example :
  match tmp world_two_chunks !! (0%nat, 0%nat) with
  | Some merged =>
    ∃ w', sort_write_output env_ideal sort_small (0%nat, 0%nat)
            world_two_chunks = Ok w' ∧
          tmp w' = tmp world_two_chunks ∧
          (no_short_fprintf env_ideal → input w' = render merged)
  | None =>
    sort_write_output env_ideal sort_small (0%nat, 0%nat) world_two_chunks
    = Err Died
  end.
Proof.
  apply sort_write_output_prints_merged_file. vm_compute. lia.
Defined.

Lemma sort_handle_buf_chunk e obj buf bufn w :
  buf ≠ [] → (0 < thr_count obj)%nat →
  ∃ ret out,
    sort_handle_buf e obj buf bufn w
      = Ok (ret, {| input := input w;
                    tmp := <[(0%nat, bufn) := out]> (tmp w);
                    clock := S (clock w) |}) ∧
    (ret = true ↔ length out = length buf) ∧
    (ret = true → out ≡ₚ buf) ∧
    (fwrite_short e (clock w) = None → ret = true) ∧
    (∀ k, fwrite_short e (clock w) = Some k → (k < length buf)%nat →
          ret = false).
Proof.
  intros Hne Hthr. unfold sort_handle_buf.
  destruct (pmsort_sort_Some buf (length buf) (thr_count obj))
    as (buf' & -> & Hperm & _); [destruct buf; [done|simpl; lia]|done|].
  cbn [asserted mbind result_bind]. unfold fwrite. cbn [app].
  assert (length buf' = length buf) as Hlen by (by rewrite Hperm).
  eexists _, _. split; [done|].
  set (n := match fwrite_short e (clock w) with
            | Some k => (k `min` length buf')%nat
            | None => length buf'
            end).
  assert (n ≤ length buf')%nat as Hn
    by (unfold n; destruct (fwrite_short e (clock w)); lia).
  split_and!.
  - rewrite bool_decide_eq_true, length_take. lia.
  - intros Hret%bool_decide_eq_true. by rewrite take_ge by lia.
  - intros Hnone. apply bool_decide_eq_true. unfold n. by rewrite Hnone.
  - intros k Hk Hlt. apply bool_decide_eq_false. unfold n. rewrite Hk. lia.
Qed.

(** X20: [sort_handle_buf] on a non-empty buffer returns, having written
    the one file [0_bufn] with a single [fwrite]. It returns [false] when
    this [fwrite] reports fewer items than the buffer holds. When no
    [fwrite] is short it returns [true] and the file holds the items of
    the buffer: a permutation of them, the buffer itself if it was sorted,
    and a sorted list whenever the chunk sorter sorts with the thread count
    of the sorter. *)
Theorem sort_handle_buf_writes_chunk e obj buf bufn w :
  buf ≠ [] → (0 < thr_count obj)%nat →
  ∃ ret out,
    sort_handle_buf e obj buf bufn w
      = Ok (ret, {| input := input w;
                    tmp := <[(0%nat, bufn) := out]> (tmp w);
                    clock := S (clock w) |}) ∧
    (∀ k, fwrite_short e (clock w) = Some k → (k < length buf)%nat →
          ret = false) ∧
    (no_short_fwrite e →
       ret = true ∧ out ≡ₚ buf ∧
       (StronglySorted Z.le buf → out = buf) ∧
       (chunk_sorter_sorts (thr_count obj) → StronglySorted Z.le out)).
Proof.
  intros Hne Hthr. unfold sort_handle_buf.
  destruct (pmsort_sort_Some buf (length buf) (thr_count obj))
    as (buf' & Hsort & Hperm & Hid); [destruct buf; [done|simpl; lia]|done|].
  rewrite Hsort.
  cbn [asserted mbind result_bind]. unfold fwrite. cbn [app].
  assert (length buf' = length buf) as Hlen by (by rewrite Hperm).
  eexists _, _. split; [done|]. split.
  - intros k Hk Hlt. apply bool_decide_eq_false. rewrite Hk. lia.
  - intros Hnf. rewrite Hnf, firstn_all. split_and!; try done.
    + by apply bool_decide_eq_true.
    + intros Hcs. by apply (Hcs buf).
Qed.

Lemma sort_handle_buf_writes_chunk_example :
  ∃ ret out,
    sort_handle_buf env_ideal sort_small [3; 1; 2] 0 (world_of EmptyString)
      = Ok (ret, {| input := input (world_of EmptyString);
                    tmp := <[(0%nat, 0%nat) := out]>
                             (tmp (world_of EmptyString));
                    clock := S (clock (world_of EmptyString)) |}) ∧
    (∀ k, fwrite_short env_ideal (clock (world_of EmptyString)) = Some k →
          (k < length [3; 1; 2])%nat → ret = false) ∧
    (no_short_fwrite env_ideal →
       ret = true ∧ out ≡ₚ [3; 1; 2] ∧
       (StronglySorted Z.le [3; 1; 2] → out = [3; 1; 2]) ∧
       (chunk_sorter_sorts (thr_count sort_small) →
        StronglySorted Z.le out)).
Proof.
  apply sort_handle_buf_writes_chunk; [discriminate|vm_compute; lia].
Defined.

Lemma concat_full_chunks B (l : list (list Z)) :
  Forall (λ f, length f = B) l → length (concat l) = (length l * B)%nat.
Proof.
  induction 1 as [|f l Hf _ IH]; [done|].
  simpl. rewrite length_app, IH, Hf. lia.
Qed.

Lemma concat_length_chunks B (fl : list (list Z)) :
  (0 < B)%nat →
  (∀ i f, fl !! i = Some f →
          (0 < length f ≤ B)%nat ∧ (S i < length fl → length f = B)%nat) →
  length fl = ((length (concat fl) + B - 1) / B)%nat.
Proof.
  intros HB Hfl. destruct fl as [|f0 fl0] using rev_ind.
  { simpl. symmetry. apply Nat.div_small. lia. }
  clear IHfl0. rewrite concat_app, !length_app. simpl. rewrite app_nil_r.
  rewrite (concat_full_chunks B).
  - destruct (Hfl (length fl0) f0) as [Hf0 _];
      [by rewrite lookup_app_r, Nat.sub_diag by lia|].
    apply Nat.div_unique with (length f0 - 1)%nat; lia.
  - apply Forall_lookup. intros i f Hf.
    destruct (Hfl i f) as [_ Hfull];
      [by rewrite lookup_app_l by (by eapply lookup_lt_Some)|].
    apply Hfull. rewrite length_app. simpl.
    apply lookup_lt_Some in Hf. lia.
Qed.

Lemma sort_handle_buf_full e obj buf bufn w w' :
  buf ≠ [] → (0 < thr_count obj)%nat →
  sort_handle_buf e obj buf bufn w = Ok (true, w') →
  ∃ out, tmp w' = <[(0%nat, bufn) := out]> (tmp w) ∧
         length out = length buf.
Proof.
  intros Hne Hthr Hrun.
  destruct (sort_handle_buf_chunk e obj buf bufn w Hne Hthr)
    as (ret & out & Heq & Hlen & _).
  rewrite Hrun in Heq. injection Heq as <- ->.
  exists out. split; [done|by apply Hlen].
Qed.

Lemma sort_read_chunks_loop_sizes e obj lines :
  ∀ buf bufn w buf' bufn' w',
  (0 < thr_count obj)%nat → (length buf < buf_nmemb obj)%nat →
  (∀ k f, tmp w !! (0%nat, k) = Some f →
          (k < bufn)%nat ∧ length f = buf_nmemb obj) →
  sort_read_chunks_loop e obj lines buf bufn w = Ok (true, buf', bufn', w') →
  (∀ k f, tmp w' !! (0%nat, k) = Some f →
          (k < bufn')%nat ∧ length f = buf_nmemb obj) ∧
  (length buf' < buf_nmemb obj)%nat.
Proof.
  induction lines as [|line lines IH];
    intros buf bufn w buf' bufn' w' Hthr Hbuf Hinv.
  { cbn [sort_read_chunks_loop]. by intros [= <- <- <-]. }
  cbn [sort_read_chunks_loop].
  destruct (Tools.str2int _) as [err|val]; [done|].
  case_bool_decide as Hfull.
  - destruct (sort_handle_buf e obj (buf ++ [val]) bufn w)
      as [[[] w1]|] eqn:Hrun; cbn [mbind result_bind negb]; [|done|done].
    assert (buf ++ [val] ≠ []) as Hne by (by destruct buf).
    destruct (sort_handle_buf_full _ _ _ _ _ _ Hne Hthr Hrun)
      as (out & Htmp & Hlen).
    apply IH; [done|simpl; lia|].
    intros k f. rewrite Htmp.
    destruct (decide (k = bufn)) as [->|Hk].
    + rewrite lookup_insert_eq. intros [= <-]. split; [lia|congruence].
    + rewrite lookup_insert_ne by congruence. intros Hf.
      destruct (Hinv k f Hf). split; [lia|done].
  - apply IH; [done| |done].
    rewrite length_app in *. simpl in *. lia.
Qed.

(** X21: the chunk files [sort_read_chunks] writes. When no [fwrite] is
    short and every line of the file is an integer, [sort_read_chunks]
    returns [true]; for a file of [n] lines it has written
    [ceil(n / buf_nmemb)] files, numbered from 0 without gap; none is
    empty, none holds more items than the RAM buffer, and all but the last
    one hold exactly [buf_nmemb] items. *)
Theorem sort_read_chunks_chunk_sizes e obj w vs :
  sort_ready obj → tmp w = ∅ → no_short_fwrite e →
  parse_file (input w) = Some vs →
  ∃ obj' w',
    sort_read_chunks e obj w = Ok (true, obj', w') ∧
    fcount obj' = ((length vs + buf_nmemb obj - 1) / buf_nmemb obj)%nat ∧
    (∀ k, (k < fcount obj')%nat → is_Some (tmp w' !! (0%nat, k))) ∧
    ∀ k f, tmp w' !! (0%nat, k) = Some f →
      (k < fcount obj')%nat ∧ (0 < length f ≤ buf_nmemb obj)%nat ∧
      (S k < fcount obj' → length f = buf_nmemb obj)%nat.
Proof.
  intros Hready Hempty Hnf Hparse.
  destruct (sort_read_chunks_spec e obj w Hready Hempty)
    as (ret & obj' & w' & Heq & _ & _ & Hok & _ & _ & Hres).
  assert (ret = true) as -> by (apply Hok; [done|by rewrite Hparse]).
  exists obj', w'. split; [done|].
  destruct (Hres eq_refl) as (vs' & fl & Hvs & Hst & Hlen & Hperm & _).
  rewrite Hparse in Hvs. injection Hvs as <-.
  destruct Hready as [HB Hthr].
  assert (0 < buf_nmemb obj)%nat as HB' by (unfold Kmerge.NMERGE in HB; lia).
  assert (∀ k f, tmp w' !! (0%nat, k) = Some f →
            (k < fcount obj')%nat ∧ (0 < length f ≤ buf_nmemb obj)%nat ∧
            (S k < fcount obj' → length f = buf_nmemb obj)%nat) as Hsizes.
  { clear Hres Hst Hlen Hperm. unfold sort_read_chunks in Heq.
    destruct (sort_read_chunks_loop e obj _ [] 0 w)
      as [[[[[] buf] bufn] w1]|] eqn:Hloop; cbn [mbind result_bind negb] in Heq;
      [|done|done].
    apply sort_read_chunks_loop_sizes in Hloop as [Hinv Hbuf];
      [|done|simpl; lia|by intros k f; rewrite Hempty, lookup_empty].
    case_bool_decide as Hrem.
    - destruct (sort_handle_buf e obj buf bufn w1)
        as [[[] w2]|] eqn:Hrun; cbn [mbind result_bind negb] in Heq;
        [|done|done].
      injection Heq as <- <-.
      assert (buf ≠ []) as Hne by (by destruct buf).
      destruct (sort_handle_buf_full _ _ _ _ _ _ Hne Hthr Hrun)
        as (out & Htmp & Hout).
      intros k f. rewrite Htmp. cbn [fcount set_fcount].
      destruct (decide (k = bufn)) as [->|Hk].
      + rewrite lookup_insert_eq. intros [= <-]. lia.
      + rewrite lookup_insert_ne by congruence. intros Hf.
        destruct (Hinv k f Hf). lia.
    - injection Heq as <- <-. intros k f Hf. cbn [fcount set_fcount].
      destruct (Hinv k f Hf). lia. }
  split_and!; [ | |done].
  - rewrite <-Hlen, <-Hperm. apply concat_length_chunks; [done|].
    intros i f Hf. pose proof (lookup_lt_Some _ _ _ Hf) as Hi.
    rewrite <-Hst in Hf by done. destruct (Hsizes i f Hf) as (_ & ? & ?).
    split; [done|]. by rewrite Hlen.
  - intros k Hk. rewrite Hst by lia. apply lookup_lt_is_Some. lia.
Qed.

Lemma sort_read_chunks_chunk_sizes_example :
  ∃ obj' w',
    sort_read_chunks env_ideal sort_small (world_of (render twenty))
      = Ok (true, obj', w') ∧
    fcount obj'
    = ((length twenty + buf_nmemb sort_small - 1)
       / buf_nmemb sort_small)%nat ∧
    (∀ k, (k < fcount obj')%nat → is_Some (tmp w' !! (0%nat, k))) ∧
    ∀ k f, tmp w' !! (0%nat, k) = Some f →
      (k < fcount obj')%nat ∧ (0 < length f ≤ buf_nmemb sort_small)%nat ∧
      (S k < fcount obj' → length f = buf_nmemb sort_small)%nat.
Proof.
  apply sort_read_chunks_chunk_sizes.
  - split; vm_compute; lia.
  - reflexivity.
  - intros t. reflexivity.
  - vm_compute. reflexivity.
Defined.

(** X26: a second run changes nothing. After a successful run with a
    number of threads that is a power of two, in which no write was short,
    the file is sorted and written the way the sorter writes it; a second
    run on it, again without short write, succeeds and leaves the file
    byte for byte as the first run left it. The second run may use any
    number of threads. *)
Theorem sort_sort_twice e obj obj2 w w1 k :
  sort_ready obj → thr_count obj = (2 ^ k)%nat → sort_ready obj2 →
  mkdtemp_ok e = true → no_short_fwrite e → no_short_fprintf e →
  sort_sort e obj w = Ok (true, w1) →
  ∃ w2, sort_sort e obj2 w1 = Ok (true, w2) ∧ input w2 = input w1.
Proof.
  intros Hready Hpow Hready2 Hmk Hnw Hnp Hrun.
  destruct (decide (input w = EmptyString)) as [Hemp|Hin].
  { by rewrite (sort_sort_empty e obj w Hmk Hemp) in Hrun. }
  destruct (sort_sort_spec e obj w Hready Hin)
    as (ret & w' & Heq & _ & _ & Hres & _).
  rewrite Hrun in Heq. injection Heq as <- <-.
  destruct (Hres eq_refl) as (vs & out & Hvs & Hperm & _ & Hout & Hsorted).
  specialize (Hout Hnp).
  assert (StronglySorted Z.le out) as Hs
    by (apply Hsorted; rewrite Hpow; apply power_of_two_sorts).
  assert (Forall int32 out) as H32
    by (rewrite Hperm; by eapply parse_file_int32).
  assert (out ≠ []) as Hne.
  { intros ->. apply Permutation_nil_l in Hperm. subst vs.
    pose proof (getlines_nonempty (input w) Hin) as Hl.
    apply length_mapM in Hvs. by destruct (Tools.getlines (input w)). }
  assert (input w1 ≠ EmptyString) as Hin1.
  { rewrite Hout. destruct out; [done|]. apply render_nonempty. }
  pose proof (parse_file_render out H32) as Hparse. rewrite <-Hout in Hparse.
  destruct (sort_sort_spec e obj2 w1 Hready2 Hin1)
    as (ret2 & w2 & Heq2 & Hok2 & _ & Hres2 & _).
  assert (ret2 = true) as -> by (apply Hok2; [done|done|by rewrite Hparse]).
  exists w2. split; [done|].
  destruct (Hres2 eq_refl) as (vs2 & out2 & Hvs2 & _ & Hid2 & Hout2 & _).
  rewrite Hparse in Hvs2. injection Hvs2 as <-.
  by rewrite (Hout2 Hnp), (Hid2 Hs).
Qed.

Lemma sort_sort_twice_example :
  ∃ w2,
    sort_sort env_ideal {| buf_nmemb := 17; thr_count := 3; fcount := 0 |}
      {| input := render [1; 2]; tmp := ∅; clock := 3 |} = Ok (true, w2) ∧
    input w2 = input {| input := render [1; 2]; tmp := ∅; clock := 3 |}.
Proof.
  apply (sort_sort_twice env_ideal sort_small
           {| buf_nmemb := 17; thr_count := 3; fcount := 0 |}
           (world_of (render [2; 1]))
           {| input := render [1; 2]; tmp := ∅; clock := 3 |} 0).
  - split; vm_compute; lia.
  - reflexivity.
  - split; vm_compute; lia.
  - reflexivity.
  - intros t. reflexivity.
  - intros t. reflexivity.
  - vm_compute. reflexivity.
Defined.

(** X16: what a run keeps, for every thread count. If the temp directory
    can be created, no [fwrite] is short and every line of the non-empty
    input file is an integer, [sort_sort] returns [true] and removes the
    temp directory, whatever the [fprintf] calls of the write-back do. If
    moreover no [fprintf] is short, the file it leaves has one line per
    line of the input file, and its integers are those of the input file,
    each as often as it was there. *)
Theorem sort_sort_keeps_integers e obj w vs :
  sort_ready obj → mkdtemp_ok e = true → no_short_fwrite e →
  input w ≠ EmptyString → parse_file (input w) = Some vs →
  ∃ w',
    sort_sort e obj w = Ok (true, w') ∧ tmp w' = ∅ ∧
    (no_short_fprintf e → ∃ out,
       input w' = render out ∧ parse_file (input w') = Some out ∧
       out ≡ₚ vs ∧
       length (Tools.getlines (input w'))
         = length (Tools.getlines (input w)) ∧
       length (Tools.getlines (input w)) = length vs).
Proof.
  intros Hready Hmk Hnw Hin Hparse.
  destruct (sort_sort_spec e obj w Hready Hin)
    as (ret & w' & Heq & Hok & _ & Hres & Htmp).
  assert (ret = true) as -> by (apply Hok; [done|done|by rewrite Hparse]).
  exists w'. split_and!; [done|by apply Htmp|]. intros Hnp.
  destruct (Hres eq_refl) as (vs' & out & Hvs' & Hperm & _ & Hout & _).
  rewrite Hparse in Hvs'. injection Hvs' as <-.
  assert (Forall int32 out) as H32.
  { rewrite Hperm. by eapply parse_file_int32. }
  exists out. rewrite (Hout Hnp). split_and!; try done.
  - by apply parse_file_render.
  - rewrite getlines_render_length, Hperm. symmetry.
    by eapply length_mapM.
  - by eapply length_mapM.
Qed.

Lemma sort_sort_keeps_integers_example :
  ∃ w',
    sort_sort env_ideal {| buf_nmemb := 17; thr_count := 3; fcount := 0 |}
      (world_of (render twenty)) = Ok (true, w') ∧
    tmp w' = ∅ ∧
    (no_short_fprintf env_ideal → ∃ out,
       input w' = render out ∧ parse_file (input w') = Some out ∧
       out ≡ₚ twenty ∧
       length (Tools.getlines (input w'))
         = length (Tools.getlines (input (world_of (render twenty)))) ∧
       length (Tools.getlines (input (world_of (render twenty))))
         = length twenty).
Proof.
  apply (sort_sort_keeps_integers env_ideal
           {| buf_nmemb := 17; thr_count := 3; fcount := 0 |}
           (world_of (render twenty)) twenty).
  - split; vm_compute; lia.
  - reflexivity.
  - intros t. reflexivity.
  - vm_compute. discriminate.
  - vm_compute. reflexivity.
Defined.

End sort_more.

(** ** main.c *)

Section main_more.
Import Main.

Lemma main_sort_create p w :
  validate_args p w = inr true →
  ∃ obj,
    Sort.sort_create (Z.to_nat (buf_size p ≪ 20)) (Z.to_nat (thr_count p))
      = Ok obj ∧
    sort_ready obj ∧ input w ≠ EmptyString ∧
    Sort.thr_count obj = Z.to_nat (thr_count p) ∧
    Sort.buf_nmemb obj = Z.to_nat (buf_size p * 2 ^ 18).
Proof.
  intros Hargs. unfold validate_args in Hargs.
  case_bool_decide as Hsize; [done|].
  destruct (Z.ltb_spec (buf_size p) BUF_MIN); [done|].
  destruct (Z.ltb_spec BUF_MAX (buf_size p)); [done|].
  destruct (Z.ltb_spec (thr_count p) THR_MIN); [done|].
  destruct (Z.ltb_spec THR_MAX (thr_count p)); [done|].
  unfold BUF_MIN, BUF_MAX, THR_MIN, THR_MAX in *.
  set (K := Z.to_nat (buf_size p * 2 ^ 18)).
  assert (Z.to_nat (buf_size p ≪ 20) = (K * 4)%nat) as Hshift.
  { rewrite Z.shiftl_mul_pow2 by lia. unfold K.
    change (2 ^ 20) with (2 ^ 18 * 4). rewrite Z.mul_assoc.
    rewrite Z2Nat.inj_mul by lia. done. }
  assert (16 < K)%nat as HK by (unfold K; lia).
  unfold Sort.sort_create.
  rewrite Hshift, Nat.Div0.mod_mul, Nat.div_mul by lia.
  rewrite !bool_decide_eq_true_2 by lia. cbn [negb].
  eexists. split; [done|]. split_and!; try done.
  - split; cbn [Sort.buf_nmemb Sort.thr_count]; [done|lia].
  - intros Hin. rewrite Hin in Hsize. simpl in Hsize. lia.
Qed.

(** X22: the exit code of [main] for arguments that pass [validate_args],
    when the temp directory can be created and no [fwrite] is short: 0 if
    every line of the file is an integer, 1 otherwise, and then the file is
    as it was. In both cases the temp directory is removed. *)
Theorem main_exit_code e p w :
  validate_args p w = inr true →
  mkdtemp_ok e = true → no_short_fwrite e →
  ∃ w',
    main e p w
    = Ok (match parse_file (input w) with
          | Some _ => EXIT_SUCCESS
          | None => EXIT_FAILURE
          end, w') ∧
    tmp w' = ∅ ∧
    (parse_file (input w) = None → input w' = input w).
Proof.
  intros Hargs Hmk Hnw. unfold main. rewrite Hargs.
  destruct (main_sort_create p w Hargs) as (obj & -> & Hready & Hin & _).
  cbn [mbind result_bind].
  destruct (sort_sort_spec e obj w Hready Hin)
    as (ret & w1 & -> & Hok & Hfalse & Hres & _).
  cbn [mbind result_bind].
  destruct (parse_file (input w)) as [vs|] eqn:Hparse.
  - rewrite (Hok Hmk Hnw) by done. cbn [negb]. eexists. by split_and!.
  - destruct ret.
    { destruct (Hres eq_refl) as (vs & _ & Hvs & _). done. }
    cbn [negb]. eexists. split_and!; [done|done|].
    intros _. by apply Hfalse.
Qed.

Lemma main_exit_code_example :
  ∃ w',
    main env_ideal {| buf_size := 1; thr_count := 4 |}
      (world_of ("7" +:+ nl +:+ "seven" +:+ nl))
    = Ok (match parse_file (input (world_of ("7" +:+ nl +:+ "seven" +:+ nl)))
          with
          | Some _ => EXIT_SUCCESS
          | None => EXIT_FAILURE
          end, w') ∧
    tmp w' = ∅ ∧
    (parse_file (input (world_of ("7" +:+ nl +:+ "seven" +:+ nl))) = None →
     input w' = input (world_of ("7" +:+ nl +:+ "seven" +:+ nl))).
Proof.
  apply main_exit_code.
  - reflexivity.
  - reflexivity.
  - intros t. reflexivity.
Defined.

(** X27: the program as a whole. For arguments that pass
    [validate_args], with a number of threads that is a power of two, when
    the temp directory can be created, no write is short and every line of
    the file is an integer, [main] exits with code 0, the temp directory is
    removed, and the file holds the integers it held, one per line, in
    non-decreasing order. *)
Theorem main_sorts_the_file e p w vs k :
  validate_args p w = inr true → thr_count p = Z.of_nat (2 ^ k) →
  mkdtemp_ok e = true → no_short_fwrite e → no_short_fprintf e →
  parse_file (input w) = Some vs →
  ∃ w' out,
    main e p w = Ok (EXIT_SUCCESS, w') ∧ tmp w' = ∅ ∧
    input w' = render out ∧ out ≡ₚ vs ∧ StronglySorted Z.le out.
Proof.
  intros Hargs Hpow Hmk Hnw Hnp Hparse. unfold main. rewrite Hargs.
  destruct (main_sort_create p w Hargs)
    as (obj & -> & Hready & Hin & Hthr & _).
  cbn [mbind result_bind].
  destruct (sort_sort_spec e obj w Hready Hin)
    as (ret & w1 & -> & Hok & _ & Hres & _).
  cbn [mbind result_bind].
  rewrite (Hok Hmk Hnw) by (by rewrite Hparse). cbn [negb].
  destruct (Hres (Hok Hmk Hnw ltac:(by rewrite Hparse)))
    as (vs' & out & Hvs' & Hperm & _ & Hout & Hsorted).
  rewrite Hparse in Hvs'. injection Hvs' as <-.
  eexists _, out. split_and!; [done|done|by apply Hout|done|].
  apply Hsorted. rewrite Hthr, Hpow, Nat2Z.id. apply power_of_two_sorts.
Qed.

Lemma main_sorts_the_file_example :
  ∃ w' out,
    main env_ideal {| buf_size := 1; thr_count := 4 |}
      (world_of (render [10; 11; 1; 2; 3])) = Ok (EXIT_SUCCESS, w') ∧
    tmp w' = ∅ ∧ input w' = render out ∧
    out ≡ₚ [10; 11; 1; 2; 3] ∧ StronglySorted Z.le out.
Proof.
  apply (main_sorts_the_file env_ideal {| buf_size := 1; thr_count := 4 |}
           (world_of (render [10; 11; 1; 2; 3])) [10; 11; 1; 2; 3] 2).
  - reflexivity.
  - reflexivity.
  - reflexivity.
  - intros t. reflexivity.
  - intros t. reflexivity.
  - vm_compute. reflexivity.
Defined.

(** X23: what [main] does without running the sorter: on an empty file it
    exits with code 0, and on a non-empty file with a buffer size or a
    thread count out of range it exits with code 1; the file is not
    touched. The first guard is needed: on an empty file [sort_sort] would
    fail [assert(fcount > 0)] of [kmerge_merge]. *)
Theorem main_guards e p w :
  (input w = EmptyString → main e p w = Ok (EXIT_SUCCESS, w)) ∧
  (input w ≠ EmptyString →
   ¬ (BUF_MIN ≤ buf_size p ≤ BUF_MAX ∧ THR_MIN ≤ thr_count p ≤ THR_MAX) →
   main e p w = Ok (EXIT_FAILURE, w)) ∧
  (input w = EmptyString → mkdtemp_ok e = true →
   ∀ obj, Sort.sort_sort e obj w = Err AssertFailed).
Proof.
  split_and!.
  - intros Hin. unfold main, validate_args. by rewrite Hin.
  - intros Hin Hargs. unfold main, validate_args.
    rewrite bool_decide_eq_false_2
      by (destruct (input w); [done|simpl; lia]).
    destruct (Z.ltb_spec (buf_size p) BUF_MIN); [done|].
    destruct (Z.ltb_spec BUF_MAX (buf_size p)); [done|].
    destruct (Z.ltb_spec (thr_count p) THR_MIN); [done|].
    destruct (Z.ltb_spec THR_MAX (thr_count p)); [done|].
    lia.
  - intros Hin Hmk obj. by apply sort_sort_empty.
Qed.

End main_more.
